(** * A chained hash table with prime sizing: model and verification

    Shallow embedding of [ac::HashTbl] (hashtbl.h, hashtbl.inl).

    - [std::size_t] is a 64-bit unsigned integer: a [Z] in [0, 2^64) whose
      arithmetic wraps ([SizeT.wrap]).
    - [float] is IEEE-754 binary32, taken from the parametric
      specification of the standard library ([SpecFloat] at precision 24
      and maximal exponent 128).
    - the array [m_table] of [std::forward_list<HashEntry>] is a list of
      chains, read with [!!] and updated with [<[ _ := _ ]>].
    - loops and the recursion [insert] -> [rehash] -> [insert] have no
      structural bound, so they take a fuel argument and return [None]
      when it runs out.

    - the stream of [operator<<] is the text written so far, a [string].

    The definitions come first: the integers, the floats, the prime sizer,
    the table and the vocabulary in which its properties are stated, then
    the instances used as test beds. The facts follow: the prime sizer
    ([PrimeFacts]), the sign of a quotient ([Float32Facts]), the table
    ([HashTblFacts]), a load factor for which [insert] never returns
    ([Divergence]), runs on concrete tables ([Scenarios]), and the
    operations one by one and in composition, the copies and the printing
    included ([Coverage]). *)

From Stdlib Require Import Strings.String.
From Stdlib Require Import ZArith Lia Bool List.
From Stdlib Require Import Floats.SpecFloat.
From stdpp Require Import base option list.

Local Open Scope Z_scope.

(** ** [std::size_t] *)

Module SizeT.

Definition modulus : Z := 2 ^ 64.

Definition wrap (z : Z) : Z := z mod modulus.

Definition in_range (z : Z) : Prop := 0 <= z < modulus.

End SizeT.

(** ** [float] *)

Module Float32.

Definition prec : Z := 24.
Definition emax : Z := 128.

(** [static_cast<float>(n)] for an unsigned integer [n]: round to nearest,
    ties to even. *)
Definition of_size (n : Z) : spec_float := binary_normalize prec emax n 0 false.

Definition div (x y : spec_float) : spec_float := SFdiv prec emax x y.

(** [x > y] *)
Definition gt (x y : spec_float) : bool := SFltb y x.

Definition one : spec_float := of_size 1.

(** [-1.0f] and [0.1f] *)
Definition minus_one : spec_float := S754_finite true 8388608 (-23).
Definition one_tenth : spec_float := S754_finite false 13421773 (-27).

(** sign bit clear and not a NaN: [+0], a positive finite number or [+inf] *)
Definition nonneg (x : spec_float) : Prop :=
  match x with
  | S754_zero s | S754_infinity s | S754_finite s _ _ => s = false
  | S754_nan => False
  end.

End Float32.

(** ** Prime sizer *)

Module Prime.

Import SizeT.

(** The [while] loop of [is_prime]; [divisor] is the loop variable. *)
Fixpoint is_prime_loop (fuel : nat) (number divisor : Z) : option bool :=
  match fuel with
  | O => None
  | S fuel' =>
      if wrap (wrap (wrap (divisor * divisor) - wrap (2 * divisor)) + 1) <=? number then
        if number mod wrap (divisor - 1) =? 0 then Some false
        else if number mod wrap (divisor + 1) =? 0 then Some false
        else is_prime_loop fuel' number (wrap (divisor + 6))
      else Some true
  end.

Definition is_prime (fuel : nat) (number : Z) : option bool :=
  if (number =? 2) || (number =? 3) then Some true
  else if (number mod 2 =? 0) || (number mod 3 =? 0) then Some false
  else is_prime_loop fuel number 6.

(** [while (!is_prime(n_)) n_++; return n_;] *)
Fixpoint find_next_prime (fuel : nat) (n_ : Z) : option Z :=
  match fuel with
  | O => None
  | S fuel' =>
      match is_prime fuel' n_ with
      | None => None
      | Some true => Some n_
      | Some false => find_next_prime fuel' (wrap (n_ + 1))
      end
  end.

End Prime.

(** ** The table *)

Module ac.

Import SizeT Prime.

(** [std::out_of_range], the only exception the class throws. *)
Inductive exception := out_of_range.

(** How a member function that walks another table's array can end:
    normally, in a loop that outlasts the fuel, or in a read
    [m_table[index]] past the end of the array, which is undefined
    behaviour. *)
Inductive outcome (A : Type) :=
  | Returned (a : A)
  | OutOfFuel
  | OutOfBounds.

Arguments Returned {A} a.
Arguments OutOfFuel {A}.
Arguments OutOfBounds {A}.

(** A [DataType&] into the table: the chain and the position in it of the
    entry whose [m_data] is referred to. *)
Record DataRef := { ref_index : nat; ref_pos : nat }.

Section HashTbl.

Context {KeyType DataType : Type}.

(** [KeyHash::operator()], returning a [std::size_t]. *)
Variable hashFunc : KeyType -> Z.
(** [KeyEqual::operator()]. *)
Variable keyEqual : KeyType -> KeyType -> bool.
(** [operator==] of [KeyType]. *)
Variable key_op_eq : KeyType -> KeyType -> bool.
(** [DataType{}]. *)
Variable default_data : DataType.

Record HashEntry := { m_key : KeyType; m_data : DataType }.

(** [using list_type = std::forward_list<entry_type>] *)
Abbreviation list_type := (list HashEntry).

Record HashTbl := {
  m_size : Z;
  m_count : Z;
  m_load_factor : spec_float;
  m_table : list list_type
}.

Definition DEFAULT_SIZE : Z := 10.

(** [m_table[index]] *)
Definition bucket (t : HashTbl) (index : nat) : list_type :=
  default [] (m_table t !! index).

Definition set_bucket (t : HashTbl) (index : nat) (chain : list_type) : HashTbl :=
  {| m_size := m_size t; m_count := m_count t;
     m_load_factor := m_load_factor t;
     m_table := <[index := chain]> (m_table t) |}.

Definition set_count (t : HashTbl) (c : Z) : HashTbl :=
  {| m_size := m_size t; m_count := c;
     m_load_factor := m_load_factor t; m_table := m_table t |}.

(** [hashFunc(key_) % m_size]. The constructors never leave [m_size] at 0
    (see [find_next_prime_range]), where the C++ would divide by zero. *)
Definition index_of (t : HashTbl) (key_ : KeyType) : nat :=
  Z.to_nat (hashFunc key_ mod m_size t).

(** [std::find_if]: the position of the first entry satisfying the
    predicate, [None] for the end iterator. *)
Fixpoint find_if (predicate : HashEntry -> bool) (chain : list_type) : option nat :=
  match chain with
  | [] => None
  | e :: rest =>
      if predicate e then Some O
      else match find_if predicate rest with
           | Some pos => Some (S pos)
           | None => None
           end
  end.

(** [forward_list::remove_if] *)
Definition remove_if (predicate : HashEntry -> bool) (chain : list_type) : list_type :=
  List.filter (fun e => negb (predicate e)) chain.

Definition is_empty (chain : list_type) : bool :=
  match chain with [] => true | _ => false end.

(** [static_cast<float>(m_count) / static_cast<float>(m_size) > m_load_factor] *)
Definition load_exceeded (t : HashTbl) : bool :=
  Float32.gt (Float32.div (Float32.of_size (m_count t)) (Float32.of_size (m_size t)))
             (m_load_factor t).

(** [for (... e : entries) insert(e.m_key, e.m_data);] for a given [insert] *)
Fixpoint insert_each (ins : HashTbl -> KeyType -> DataType -> option (bool * HashTbl))
    (entries : list HashEntry) (t : HashTbl) : option HashTbl :=
  match entries with
  | [] => Some t
  | e :: rest =>
      match ins t (m_key e) (m_data e) with
      | None => None
      | Some (_, t') => insert_each ins rest t'
      end
  end.

(** [HashTbl(size_type sz)]: the state after allocation. *)
Definition fresh (sz : Z) (lf : spec_float) : HashTbl :=
  {| m_size := sz; m_count := 0; m_load_factor := lf;
     m_table := replicate (Z.to_nat sz) [] |}.

Definition HashTbl_new (fuel : nat) (sz : Z) : option HashTbl :=
  match find_next_prime fuel sz with
  | None => None
  | Some p => Some (fresh p Float32.one)
  end.

Fixpoint insert (fuel : nat) (t : HashTbl) (key_ : KeyType) (new_data_ : DataType)
    {struct fuel} : option (bool * HashTbl) :=
  match fuel with
  | O => None
  | S fuel' =>
      let hashEntry := {| m_key := key_; m_data := new_data_ |} in
      let index := index_of t key_ in
      if is_empty (bucket t index) then
        let t1 := set_bucket t index (hashEntry :: bucket t index) in
        let t2 := set_count t1 (wrap (m_count t1 + 1)) in
        if load_exceeded t2 then
          match rehash fuel' t2 with
          | None => None
          | Some t3 => Some (true, t3)
          end
        else Some (true, t2)
      else
        let predicate := fun e => keyEqual key_ (m_key e) in
        match find_if predicate (bucket t index) with
        | None =>
            let t1 := set_bucket t index (hashEntry :: bucket t index) in
            let t2 := set_count t1 (wrap (m_count t1 + 1)) in
            if load_exceeded t2 then
              match rehash fuel' t2 with
              | None => None
              | Some t3 => Some (true, t3)
              end
            else Some (true, t2)
        | Some iterator =>
            let t1 := set_bucket t index (<[iterator := hashEntry]> (bucket t index)) in
            if load_exceeded t1 then
              match rehash fuel' t1 with
              | None => None
              | Some t2 => Some (false, t2)
              end
            else Some (false, t1)
        end
  end
with rehash (fuel : nat) (t : HashTbl) {struct fuel} : option HashTbl :=
  match fuel with
  | O => None
  | S fuel' =>
      match find_next_prime fuel' (wrap (2 * m_size t)) with
      | None => None
      | Some new_size =>
          let _old_m_table := m_table t in
          insert_each (insert fuel') (concat _old_m_table)
                      (fresh new_size (m_load_factor t))
      end
  end.

Definition clear (t : HashTbl) : HashTbl :=
  {| m_size := m_size t; m_count := 0; m_load_factor := m_load_factor t;
     m_table := (fun _ => []) <$> m_table t |}.

Definition empty (t : HashTbl) : bool := m_count t =? 0.

Definition size (t : HashTbl) : Z := m_count t.

(** [retrieve(key_, data_item_)]: the result and the final content of the
    output parameter. *)
Definition retrieve (t : HashTbl) (key_ : KeyType) (data_item_ : DataType) : bool * DataType :=
  let index := index_of t key_ in
  let predicate := fun e => keyEqual key_ (m_key e) in
  match find_if predicate (bucket t index) with
  | Some iterator =>
      match bucket t index !! iterator with
      | Some e => (true, m_data e)
      | None => (false, data_item_)
      end
  | None => (false, data_item_)
  end.

Definition erase (t : HashTbl) (key_ : KeyType) : bool * HashTbl :=
  let index := index_of t key_ in
  let predicate := fun e => keyEqual key_ (m_key e) in
  match find_if predicate (bucket t index) with
  | Some _ =>
      let t1 := set_bucket t index (remove_if predicate (bucket t index)) in
      (true, set_count t1 (wrap (m_count t1 - 1)))
  | None => (false, t)
  end.

Definition count (t : HashTbl) (key_ : KeyType) : Z :=
  let index := index_of t key_ in
  let predicate := fun e => keyEqual key_ (m_key e) in
  match find_if predicate (bucket t index) with
  | None => 0
  | Some _ => wrap (Z.of_nat (length (bucket t index)))
  end.

(** [at(key_)]: the member function is not [const], so it is given the
    table it leaves behind as well as its outcome. *)
Definition at_ (t : HashTbl) (key_ : KeyType) : (exception + DataRef) * HashTbl :=
  let index := index_of t key_ in
  let predicate := fun e => keyEqual key_ (m_key e) in
  match find_if predicate (bucket t index) with
  | Some iterator => (inr {| ref_index := index; ref_pos := iterator |}, t)
  | None => (inl out_of_range, t)
  end.

(** [operator[]]: the lambda captures [keyEqual] but compares with [==]. *)
Fixpoint operator_index (fuel : nat) (t : HashTbl) (key_ : KeyType)
    : option (DataRef * HashTbl) :=
  match fuel with
  | O => None
  | S fuel' =>
      let index := index_of t key_ in
      let predicate := fun e => key_op_eq key_ (m_key e) in
      match find_if predicate (bucket t index) with
      | Some iterator => Some ({| ref_index := index; ref_pos := iterator |}, t)
      | None =>
          match insert fuel' t key_ default_data with
          | None => None
          | Some (_, t') => operator_index fuel' t' key_
          end
      end
  end.

(** Reading and writing through a [DataType&]. *)
Definition deref (t : HashTbl) (r : DataRef) : option DataType :=
  match bucket t (ref_index r) !! ref_pos r with
  | Some e => Some (m_data e)
  | None => None
  end.

Definition assign (t : HashTbl) (r : DataRef) (d : DataType) : HashTbl :=
  match bucket t (ref_index r) !! ref_pos r with
  | Some e =>
      set_bucket t (ref_index r)
        (<[ref_pos r := {| m_key := m_key e; m_data := d |}]> (bucket t (ref_index r)))
  | None => t
  end.

Definition max_load_factor (t : HashTbl) : spec_float := m_load_factor t.

Definition set_max_load_factor (t : HashTbl) (mlf : spec_float) : HashTbl :=
  {| m_size := m_size t; m_count := m_count t; m_load_factor := mlf;
     m_table := m_table t |}.

(** [HashTbl(const std::initializer_list<entry_type>&)], which starts from
    the default constructor [HashTbl()]. *)
Definition HashTbl_ilist (fuel : nat) (ilist : list HashEntry) : option HashTbl :=
  match HashTbl_new fuel DEFAULT_SIZE with
  | None => None
  | Some t => insert_each (insert fuel) ilist t
  end.

(** [operator=(const std::initializer_list<entry_type>&)]; the previous
    content of [this] is destroyed. *)
Definition assign_ilist (fuel : nat) (this : HashTbl) (ilist : list HashEntry)
    : option HashTbl :=
  match find_next_prime fuel (wrap (Z.of_nat (length ilist))) with
  | None => None
  | Some p => insert_each (insert fuel) ilist (fresh p Float32.one)
  end.

(** The loop shared by the copy constructor and the copy assignment,
    [for (index = 0; index < this->m_size; index++)
       for (e : source.m_table[index]) insert(e.m_key, e.m_data);]
    The bound is the [m_size] of the table being filled, read again at
    every turn; [rest] is the source array from [index] on. *)
Fixpoint copy_loop (fuel : nat) (rest : list list_type) (index : Z) (this : HashTbl)
    {struct rest} : outcome HashTbl :=
  match rest with
  | [] => if index <? m_size this then OutOfBounds else Returned this
  | chain :: rest' =>
      if index <? m_size this then
        match insert_each (insert fuel) chain this with
        | None => OutOfFuel
        | Some this' => copy_loop fuel rest' (wrap (index + 1)) this'
        end
      else Returned this
  end.

(** [HashTbl(const HashTbl& source) : HashTbl(source.m_size)] *)
Definition HashTbl_copy (fuel : nat) (source : HashTbl) : outcome HashTbl :=
  match HashTbl_new fuel (m_size source) with
  | None => OutOfFuel
  | Some this =>
      copy_loop fuel (m_table source) 0
                (set_max_load_factor this (m_load_factor source))
  end.

(** [operator=(const HashTbl& clone)]; [same_object] is [this == &clone].
    [m_size], [m_load_factor] and [m_table] are assigned, [m_count] is
    not. *)
Definition assign_copy (fuel : nat) (this clone : HashTbl) (same_object : bool)
    : outcome HashTbl :=
  if same_object then Returned this
  else
    copy_loop fuel (m_table clone) 0
      {| m_size := m_size clone; m_count := m_count this;
         m_load_factor := m_load_factor clone;
         m_table := replicate (Z.to_nat (m_size clone)) [] |}.

(** [operator<<]: the stream is the text written so far, [show] is
    [operator<<] of [DataType]; an entry is written as its data alone. *)
Variable show : DataType -> String.string.

Definition put (os s : String.string) : String.string := String.append os s.

Definition print_chain (os : String.string) (chain : list_type) : String.string :=
  fold_left (fun os e => put (put os (show (m_data e))) ", "%string) chain os.

Definition print (os : String.string) (ht_ : HashTbl) : String.string :=
  put (fold_left print_chain (take (Z.to_nat (m_size ht_)) (m_table ht_))
                 (put os "{ "%string))
      "}"%string.

(** *** Vocabulary of the specification *)

(** All entries of the table, bucket [0] first, each chain front to back. *)
Definition entries (t : HashTbl) : list HashEntry := concat (m_table t).

(** The text of a list of entries: the data of each one, every one
    followed by a comma and a space. *)
Definition listing (l : list HashEntry) : String.string :=
  fold_right (fun e s => String.append (show (m_data e)) (String.append ", "%string s))
             String.EmptyString l.

(** The data of the first entry of a chain whose key matches. *)
Fixpoint chain_lookup (key_ : KeyType) (chain : list_type) : option DataType :=
  match chain with
  | [] => None
  | e :: rest =>
      if keyEqual key_ (m_key e) then Some (m_data e) else chain_lookup key_ rest
  end.

(** What the table associates with a key. *)
Definition lookup (t : HashTbl) (key_ : KeyType) : option DataType :=
  chain_lookup key_ (bucket t (index_of t key_)).

(** The data of the last entry of a list with a given key. *)
Fixpoint last_data (key_ : KeyType) (l : list HashEntry) : option DataType :=
  match l with
  | [] => None
  | e :: rest =>
      match last_data key_ rest with
      | Some d => Some d
      | None => if keyEqual key_ (m_key e) then Some (m_data e) else None
      end
  end.

(** How many entries of a list carry a given key. *)
Definition occurrences (key_ : KeyType) (l : list HashEntry) : nat :=
  length (List.filter (fun e => keyEqual key_ (m_key e)) l).

(** The representation invariant: a non-empty array of [m_size] chains,
    every entry in the chain its key hashes to, no key twice in a chain,
    and [m_count] the number of entries. *)
Record wf (t : HashTbl) : Prop := {
  wf_size : 1 <= m_size t < modulus;
  wf_length : length (m_table t) = Z.to_nat (m_size t);
  wf_placed : forall i chain e,
      m_table t !! i = Some chain -> e ∈ chain -> index_of t (m_key e) = i;
  wf_chain : forall i chain,
      m_table t !! i = Some chain -> NoDup (m_key <$> chain);
  wf_count : m_count t = Z.of_nat (length (entries t));
  wf_count_range : m_count t < modulus
}.

(** The mutation [insert] performs before it looks at the load factor, in
    the words of the specification: prepend and count when the key is new,
    overwrite the value in place when it is not. *)
Definition overwrite_value (d : DataType) (e : HashEntry) : HashEntry :=
  {| m_key := m_key e; m_data := d |}.

Definition insert_mutation (t : HashTbl) (key_ : KeyType) (new_data_ : DataType)
    : bool * HashTbl :=
  let index := index_of t key_ in
  let chain := bucket t index in
  match find_if (fun e => keyEqual key_ (m_key e)) chain with
  | None =>
      (true,
       {| m_size := m_size t; m_count := m_count t + 1;
          m_load_factor := m_load_factor t;
          m_table := <[index := {| m_key := key_; m_data := new_data_ |} :: chain]>
                       (m_table t) |})
  | Some pos =>
      (false,
       {| m_size := m_size t; m_count := m_count t;
          m_load_factor := m_load_factor t;
          m_table := <[index := alter (overwrite_value new_data_) pos chain]>
                       (m_table t) |})
  end.

(** What a call [insert(key_, new_data_)] that returned [r] on [t] has to
    have done. *)
Definition inserted (t : HashTbl) (key_ : KeyType) (new_data_ : DataType)
    (r : bool * HashTbl) : Prop :=
  wf (snd r) /\
  m_load_factor (snd r) = m_load_factor t /\
  (forall k, lookup (snd r) k
             = if keyEqual k key_ then Some new_data_ else lookup t k) /\
  (fst r = true <-> lookup t key_ = None) /\
  m_count (snd r) = m_count t + (if fst r then 1 else 0).

(** What a call of [rehash] that turned [t] into [t'] has to have done. *)
Definition rehashed (t t' : HashTbl) : Prop :=
  wf t' /\ m_load_factor t' = m_load_factor t /\ entries t' ≡ₚ entries t.

(** The load-factor check that ends [insert]. *)
Definition check_load (fuel : nat) (r : bool * HashTbl) : option (bool * HashTbl) :=
  if load_exceeded (snd r) then
    match rehash fuel (snd r) with
    | None => None
    | Some t' => Some (fst r, t')
    end
  else Some r.

(** *** When [insert] returns

    The recursion [insert] -> [rehash] -> [insert] stops when the load
    factor of the new table is within the bound. Two facts about the
    arithmetic are enough for that, for capacities up to [B] and up to [N]
    entries. *)

(** A count that does not exceed the capacity does not exceed the bound
    [lf] (as for [1.0f] and above). *)
Definition calm (lf : spec_float) (B : Z) : Prop :=
  forall c s, 0 <= c <= s -> s <= B ->
    Float32.gt (Float32.div (Float32.of_size c) (Float32.of_size s)) lf = false.

(** [find_next_prime] finds a capacity from twice any capacity below [N],
    and finds it at or below [B]. *)
Definition ladder (N B : Z) : Prop :=
  forall s, 1 <= s < N ->
    exists fuel p, find_next_prime fuel (2 * s) = Some p /\ 2 * s <= p <= B.

(** Both facts are decided by running the code on the finitely many
    arguments. *)
Definition calm_upto (lf : spec_float) (B : nat) : bool :=
  forallb (fun s =>
    forallb (fun c =>
      negb (Float32.gt (Float32.div (Float32.of_size (Z.of_nat c))
                                    (Float32.of_size (Z.of_nat s))) lf))
      (seq 0 (S s)))
    (seq 0 (S B)).

Definition ladder_upto (fuel : nat) (N : nat) (B : Z) : bool :=
  forallb (fun s =>
    match find_next_prime fuel (2 * Z.of_nat s) with
    | Some p => (2 * Z.of_nat s <=? p) && (p <=? B)
    | None => false
    end)
    (seq 1 (N - 1)).

(** Call sequences. *)
Inductive operation :=
  | Insert (key_ : KeyType) (data_ : DataType)
  | Erase (key_ : KeyType).

(** Runs the calls in order; returns what each call returned and the
    final table. *)
Fixpoint run (fuel : nat) (ops : list operation) (t : HashTbl)
    : option (list bool * HashTbl) :=
  match ops with
  | [] => Some ([], t)
  | Insert k d :: rest =>
      match insert fuel t k d with
      | None => None
      | Some (b, t') =>
          match run fuel rest t' with
          | None => None
          | Some (bs, t'') => Some (b :: bs, t'')
          end
      end
  | Erase k :: rest =>
      let '(b, t') := erase t k in
      match run fuel rest t' with
      | None => None
      | Some (bs, t'') => Some (b :: bs, t'')
      end
  end.

(** The calls of a sequence that returned [true], by kind. *)
Fixpoint successes (ops : list operation) (results : list bool) : Z * Z :=
  match ops, results with
  | Insert _ _ :: ops', b :: bs =>
      let '(i, e) := successes ops' bs in ((if b then i + 1 else i), e)
  | Erase _ :: ops', b :: bs =>
      let '(i, e) := successes ops' bs in (i, (if b then e + 1 else e))
  | _, _ => (0, 0)
  end.

End HashTbl.

End ac.

(** ** Two instances *)

(** [HashTbl<int, int>] with the defaults [std::hash<int>], which converts
    the key to [std::size_t], and [std::equal_to<int>]. *)
Module IntTbl.

Import ac.

Definition hash (k : Z) : Z := SizeT.wrap k.

Definition entry (k v : Z) : HashEntry := {| m_key := k; m_data := v |}.

Abbreviation insert := (@ac.insert Z Z hash Z.eqb).
Abbreviation retrieve := (@ac.retrieve Z Z hash Z.eqb).
Abbreviation run := (@ac.run Z Z hash Z.eqb).

(** [HashTbl<int, int> t(sz);] *)
Definition new (fuel : nat) (sz : Z) : option (@HashTbl Z Z) := HashTbl_new fuel sz.

(** The keys [1 .. n], each with ten times itself as data. *)
Definition first_keys (n : nat) : list (@HashEntry Z Z) :=
  List.map (fun k => entry (Z.of_nat k) (10 * Z.of_nat k)) (seq 1 n).

(** Whether [retrieve] finds every entry of a list. *)
Definition retrieves (t : @HashTbl Z Z) (l : list (@HashEntry Z Z)) : bool :=
  forallb (fun e => let '(found, d) := retrieve t (m_key e) 0 in
                    found && (d =? m_data e)) l.

(** [HashTbl<int, int> t(10);] *)
Definition t0 : @HashTbl Z Z := fresh 11 Float32.one.

(** [t] after [insert(k, 10 * k)] for [k] from 1 to 11. *)
Definition t11 : @HashTbl Z Z :=
  Eval vm_compute in default t0 (insert_each (insert 30) (first_keys 11) t0).

(** [t] after [insert(12, 120)] as well. *)
Definition t12 : @HashTbl Z Z :=
  Eval vm_compute in default t0 (snd <$> insert 30 t11 12 120).

(** [HashTbl<int, int> u(2); u.max_load_factor(0.1f);] *)
Definition u0 : @HashTbl Z Z := set_max_load_factor (fresh 2 Float32.one) Float32.one_tenth.

(** [u] after [insert(7, 70)]. *)
Definition u1 : @HashTbl Z Z :=
  Eval vm_compute in default u0 (snd <$> insert 30 u0 7 70).

(** Twelve distinct keys, then the key 3 twice more. *)
Definition calls : list (@HashEntry Z Z) :=
  first_keys 12 ++ [entry 3 33; entry 3 34].

(** [t] after these calls. *)
Definition after_calls : @HashTbl Z Z :=
  Eval vm_compute in default t0 (insert_each (insert 30) calls t0).

(** A mixed sequence of calls, what they return and what they leave. *)
Definition ops : list (@operation Z Z) :=
  [Insert 1 10; Insert 1 11; Erase 1; Erase 2; Insert 2 20]
  ++ List.map (fun e => Insert (m_key e) (m_data e)) (first_keys 12).

Definition ops_results : list bool :=
  Eval vm_compute in default [] (fst <$> run 30 ops t0).

Definition after_ops : @HashTbl Z Z :=
  Eval vm_compute in default t0 (snd <$> run 30 ops t0).

(** [t] after [insert(5, 50)]. *)
Definition with_5 : @HashTbl Z Z :=
  set_count (set_bucket t0 5 [entry 5 50]) 1.

(** [t] after the keys 1, 12 and 23, which all fall into bucket 1. *)
Definition colliding : @HashTbl Z Z :=
  set_count (set_bucket t0 1 [entry 23 230; entry 12 120; entry 1 10]) 3.

(** [with_5] after [insert(16, 160)], which falls into the bucket of 5. *)
Definition with_5_16 : @HashTbl Z Z :=
  set_count (set_bucket with_5 5 [entry 16 160; entry 5 50]) 2.

(** [t11] with the entry [(12, 120)] in its chain, as [insert] hands it
    to [rehash]. *)
Definition t11_full : @HashTbl Z Z :=
  Eval vm_compute in snd (insert_mutation hash Z.eqb t11 12 120).

(** A list that names the key 1 twice. *)
Definition pairs : list (@HashEntry Z Z) := [entry 1 10; entry 2 20; entry 1 11].

(** [HashTbl<int, int> v{{1, 10}, {2, 20}, {1, 11}};] *)
Definition from_pairs : @HashTbl Z Z :=
  set_count (set_bucket (set_bucket t0 1 [entry 1 11]) 2 [entry 2 20]) 2.

(** [with_5 = {{1, 10}, {2, 20}, {1, 11}};] *)
Definition assigned_pairs : @HashTbl Z Z :=
  {| m_size := 3; m_count := 2; m_load_factor := Float32.one;
     m_table := [[]; [entry 1 11]; [entry 2 20]] |}.

(** [HashTbl<int, int> c(colliding);] *)
Definition colliding_copy : @HashTbl Z Z :=
  set_count (set_bucket t0 1 [entry 1 10; entry 12 120; entry 23 230]) 3.

(** [with_5 = colliding;] *)
Definition with_5_assigned : @HashTbl Z Z := set_count colliding_copy 4.

(** [with_5] after [insert(5, 51)]. *)
Definition with_5_51 : @HashTbl Z Z :=
  set_count (set_bucket t0 5 [entry 5 51]) 1.

(** [0.5f] *)
Definition half : spec_float := S754_finite false 8388608 (-24).

(** [t11] after [max_load_factor(0.5f)]: eleven entries in eleven
    buckets, over the new bound. *)
Definition t11_half : @HashTbl Z Z := set_max_load_factor t11 half.

(** [t11_half] after [insert(1, 11)], a key it holds. *)
Definition t11_half_1 : @HashTbl Z Z :=
  Eval vm_compute in default t0 (snd <$> insert 30 t11_half 1 11).

End IntTbl.

(** [HashTbl<int, std::string>], the data written as it is. *)
Module StrTbl.

Import ac.

Definition hash (k : Z) : Z := SizeT.wrap k.

Definition show (d : String.string) : String.string := d.

Definition words : list (@HashEntry Z String.string) :=
  [ {| m_key := 1; m_data := "one"%string |};
    {| m_key := 12; m_data := "twelve"%string |};
    {| m_key := 5; m_data := "five"%string |} ].

Definition blank : @HashTbl Z String.string := fresh 11 Float32.one.

(** The table of 11 buckets after the three words; 1 and 12 share a
    bucket. *)
Definition named : @HashTbl Z String.string :=
  Eval vm_compute in default blank (insert_each (insert hash Z.eqb 30) words blank).

End StrTbl.

(** [HashTbl<int, int, AbsHash, AbsEqual>]: keys are compared and hashed
    by absolute value, so that [KeyEqual] is coarser than [==]. *)
Module AbsTbl.

Import ac.

Definition hash (k : Z) : Z := Z.abs k.
Definition equal (a b : Z) : bool := Z.abs a =? Z.abs b.

Abbreviation insert := (@ac.insert Z Z hash equal).
Abbreviation retrieve := (@ac.retrieve Z Z hash equal).
Abbreviation operator_index := (@ac.operator_index Z Z hash equal Z.eqb 0).

(** The table of 11 buckets after [insert(5, 50)]. *)
Definition with_5 : @HashTbl Z Z :=
  set_count (set_bucket (fresh 11 Float32.one) 5 [{| m_key := 5; m_data := 50 |}]) 1.

(** The same table after [operator[](-5)], and the reference returned. *)
Definition indexed : @HashTbl Z Z :=
  Eval vm_compute in default with_5 (snd <$> operator_index 30 with_5 (-5)).

Definition indexed_ref : DataRef :=
  Eval vm_compute in
    default {| ref_index := 0; ref_pos := 0 |} (fst <$> operator_index 30 with_5 (-5)).

End AbsTbl.

(** * Facts about the integers and the prime sizer *)

Module SizeTFacts.

Import SizeT.

Lemma wrap_range z : in_range (wrap z).
Proof. unfold in_range, wrap, modulus. apply Z.mod_pos_bound. lia. Qed.

Lemma wrap_small z : in_range z -> wrap z = z.
Proof. unfold in_range, wrap. intros H. apply Z.mod_small. exact H. Qed.

End SizeTFacts.

Module PrimeFacts.

Import SizeT SizeTFacts Prime.

(** *** Fuel only decides whether a loop finishes *)

Lemma is_prime_loop_mono fuel fuel' number divisor b :
  (fuel <= fuel')%nat ->
  is_prime_loop fuel number divisor = Some b ->
  is_prime_loop fuel' number divisor = Some b.
Proof.
  revert fuel' divisor. induction fuel as [|fuel IH]; intros fuel' divisor Hle H.
  - discriminate.
  - destruct fuel' as [|fuel']; [lia|]. simpl in *.
    destruct (_ <=? number); [|exact H].
    destruct (number mod wrap (divisor - 1) =? 0); [exact H|].
    destruct (number mod wrap (divisor + 1) =? 0); [exact H|].
    apply IH; [lia | exact H].
Qed.

Lemma is_prime_mono fuel fuel' number b :
  (fuel <= fuel')%nat ->
  is_prime fuel number = Some b -> is_prime fuel' number = Some b.
Proof.
  unfold is_prime. intros Hle.
  destruct ((number =? 2) || (number =? 3)); [easy|].
  destruct ((number mod 2 =? 0) || (number mod 3 =? 0)); [easy|].
  now apply is_prime_loop_mono.
Qed.

Lemma find_next_prime_mono fuel fuel' n p :
  (fuel <= fuel')%nat ->
  find_next_prime fuel n = Some p -> find_next_prime fuel' n = Some p.
Proof.
  revert fuel' n. induction fuel as [|fuel IH]; intros fuel' n Hle H.
  - discriminate.
  - destruct fuel' as [|fuel']; [lia|]. simpl in *.
    destruct (is_prime fuel n) as [b|] eqn:Hp; [|discriminate].
    rewrite (is_prime_mono fuel fuel' n b) by (lia || assumption).
    destruct b; [exact H|]. apply IH; [lia | exact H].
Qed.

(** *** What [find_next_prime] returns *)

Lemma is_prime_0 fuel : is_prime fuel 0 = Some false.
Proof. reflexivity. Qed.

Lemma find_next_prime_accepts fuel n p :
  find_next_prime fuel n = Some p -> exists fuel', is_prime fuel' p = Some true.
Proof.
  revert n. induction fuel as [|fuel IH]; intros n H; [discriminate|].
  simpl in H. destruct (is_prime fuel n) as [[|]|] eqn:Hp; try discriminate.
  - inversion H; subst. now exists fuel.
  - now apply IH in H.
Qed.

Lemma find_next_prime_in_range fuel n p :
  in_range n -> find_next_prime fuel n = Some p -> in_range p.
Proof.
  revert n. induction fuel as [|fuel IH]; intros n Hn H; [discriminate|].
  simpl in H. destruct (is_prime fuel n) as [[|]|]; try discriminate.
  - now inversion H; subst.
  - eapply IH; [apply wrap_range | exact H].
Qed.

(** The result is never [0]: no table has an empty bucket array. *)
Lemma find_next_prime_range fuel n p :
  in_range n -> find_next_prime fuel n = Some p -> 1 <= p < modulus.
Proof.
  intros Hn H.
  pose proof (find_next_prime_in_range _ _ _ Hn H) as Hr.
  destruct (find_next_prime_accepts _ _ _ H) as [fuel' Hp].
  destruct (Z.eq_dec p 0) as [->|Hne].
  - rewrite is_prime_0 in Hp. discriminate.
  - unfold in_range in Hr. lia.
Qed.

(** *** [is_prime] from 2 on, below the numbers whose square root overflows *)

Lemma prime_of_no_small_divisor n d :
  1 < n -> 0 <= d -> n < d * d ->
  (forall q, 1 < q < d -> ~ (q | n)) ->
  Z.prime n.
Proof.
  intros Hn Hd Hsq Hno. split; [exact Hn|].
  intros q Hq [c Hc].
  destruct (Z.lt_ge_cases q d) as [Hlt|Hge].
  - apply (Hno q); [lia | now exists c].
  - assert (Hc1 : 1 < c < d) by nia.
    apply (Hno c Hc1). exists q. lia.
Qed.

Lemma divide_mod_0 q n m :
  m <> 0 -> (q | n) -> q mod m = 0 -> n mod m = 0.
Proof.
  intros Hm Hqn Hq. apply Z.mod_divide; [exact Hm|].
  apply Z.mod_divide in Hq; [|exact Hm].
  now apply Z.divide_trans with (m := q).
Qed.

Lemma is_prime_loop_correct n :
  5 <= n < 2 ^ 62 -> n mod 2 <> 0 -> n mod 3 <> 0 ->
  forall fuel divisor,
    6 <= divisor -> divisor mod 6 = 0 ->
    divisor = 6 \/ (divisor - 7) * (divisor - 7) <= n ->
    (forall q, 1 < q < divisor - 1 -> ~ (q | n)) ->
    (Z.to_nat (n + 7 - divisor) < fuel)%nat ->
    exists b, is_prime_loop fuel n divisor = Some b /\ (b = true <-> Z.prime n).
Proof.
  intros Hn H2 H3. induction fuel as [|fuel IH]; intros d Hd Hd6 Hprev Hno Hfuel; [lia|].
  assert (Hsmall : d < 2147483656).
  { destruct Hprev as [->|Hprev]; [lia|]. nia. }
  cbn [is_prime_loop].
  assert (Hsq : wrap (wrap (wrap (d * d) - wrap (2 * d)) + 1) = (d - 1) * (d - 1)).
  { rewrite (wrap_small (d * d)) by (unfold in_range, modulus; nia).
    rewrite (wrap_small (2 * d)) by (unfold in_range, modulus; lia).
    rewrite (wrap_small (d * d - 2 * d)) by (unfold in_range, modulus; nia).
    rewrite wrap_small by (unfold in_range, modulus; nia). ring. }
  rewrite Hsq.
  rewrite (wrap_small (d - 1)) by (unfold in_range, modulus; lia).
  rewrite (wrap_small (d + 1)) by (unfold in_range, modulus; lia).
  rewrite (wrap_small (d + 6)) by (unfold in_range, modulus; lia).
  destruct ((d - 1) * (d - 1) <=? n) eqn:Hcond.
  - apply Z.leb_le in Hcond.
    destruct (n mod (d - 1) =? 0) eqn:Hm1.
    { apply Z.eqb_eq, Z.mod_divide in Hm1; [|lia].
      exists false. split; [reflexivity|]. split; [discriminate|].
      intros [_ Hp]. elim (Hp (d - 1)); [nia | exact Hm1]. }
    destruct (n mod (d + 1) =? 0) eqn:Hp1.
    { apply Z.eqb_eq, Z.mod_divide in Hp1; [|lia].
      exists false. split; [reflexivity|]. split; [discriminate|].
      intros [_ Hp]. elim (Hp (d + 1)); [nia | exact Hp1]. }
    apply Z.eqb_neq in Hm1, Hp1.
    assert (Hd6' : (6 | d)) by (apply Z.mod_divide; [lia | exact Hd6]).
    destruct Hd6' as [c Hc].
    apply IH; try lia.
    + apply Z.mod_divide; [lia|]. exists (c + 1). lia.
    + intros q Hq Hdiv.
      assert (Hcase : q < d - 1 \/ q = d - 1 \/ q = d \/ q = d + 1 \/
                      q = d + 2 \/ q = d + 3 \/ q = d + 4) by lia.
      destruct Hcase as [Hlt|[->|[->|[->|[->|[->| ->]]]]]].
      * now apply (Hno q).
      * apply Hm1. apply Z.mod_divide; [lia | exact Hdiv].
      * apply H2. apply (divide_mod_0 d n 2); [lia | exact Hdiv |].
        apply Z.mod_divide; [lia|]. exists (3 * c). lia.
      * apply Hp1. apply Z.mod_divide; [lia | exact Hdiv].
      * apply H2. apply (divide_mod_0 (d + 2) n 2); [lia | exact Hdiv |].
        apply Z.mod_divide; [lia|]. exists (3 * c + 1). lia.
      * apply H3. apply (divide_mod_0 (d + 3) n 3); [lia | exact Hdiv |].
        apply Z.mod_divide; [lia|]. exists (2 * c + 1). lia.
      * apply H2. apply (divide_mod_0 (d + 4) n 2); [lia | exact Hdiv |].
        apply Z.mod_divide; [lia|]. exists (3 * c + 2). lia.
    + nia.
  - apply Z.leb_gt in Hcond. exists true. split; [reflexivity|].
    split; [intros _|reflexivity].
    apply (prime_of_no_small_divisor n (d - 1)); [lia | lia | exact Hcond | exact Hno].
Qed.

(** From 2 on [is_prime] decides primality. *)
Theorem is_prime_correct n :
  2 <= n < 2 ^ 62 ->
  exists fuel b, is_prime fuel n = Some b /\ (b = true <-> Z.prime n).
Proof.
  intros Hn. unfold is_prime.
  destruct ((n =? 2) || (n =? 3)) eqn:H23.
  - exists O, true. split; [reflexivity|]. split; [intros _|reflexivity].
    apply orb_true_iff in H23 as [H|H]; apply Z.eqb_eq in H; subst.
    + apply Z.prime_2.
    + apply Z.prime_3.
  - apply orb_false_iff in H23 as [Hn2 Hn3]. apply Z.eqb_neq in Hn2, Hn3.
    destruct ((n mod 2 =? 0) || (n mod 3 =? 0)) eqn:Hdiv.
    + exists O, false. split; [reflexivity|]. split; [discriminate|].
      intros [_ Hp].
      apply orb_true_iff in Hdiv as [H|H]; apply Z.eqb_eq, Z.mod_divide in H; try lia.
      * elim (Hp 2); [lia | exact H].
      * elim (Hp 3); [lia | exact H].
    + apply orb_false_iff in Hdiv as [H2 H3]. apply Z.eqb_neq in H2, H3.
      assert (Hn5 : 5 <= n).
      { destruct (Z.eq_dec n 4) as [->|]; [now elim H2 | lia]. }
      destruct (is_prime_loop_correct n ltac:(lia) H2 H3 (S (Z.to_nat (n + 7 - 6))) 6)
        as [b Hb]; try lia.
      * reflexivity.
      * intros q Hq Hdiv.
        assert (Hcase : q = 2 \/ q = 3 \/ q = 4) by lia.
        destruct Hcase as [->|[->| ->]].
        -- apply H2. apply Z.mod_divide; [lia | exact Hdiv].
        -- apply H3. apply Z.mod_divide; [lia | exact Hdiv].
        -- apply H2. apply (divide_mod_0 4 n 2); [lia | exact Hdiv | reflexivity].
      * now exists (S (Z.to_nat (n + 7 - 6))), b.
Qed.

(** From 2 on [find_next_prime] returns the smallest prime at or above
    its argument, provided there is one in that range. *)
Theorem find_next_prime_smallest p : forall n,
  2 <= n <= p -> p < 2 ^ 62 -> Z.prime p ->
  exists fuel q, find_next_prime fuel n = Some q /\ Z.prime q /\ n <= q <= p /\
                 forall r, n <= r < q -> ~ Z.prime r.
Proof.
  intros n Hn Hp Hprime.
  remember (Z.to_nat (p - n)) as m eqn:Hm. revert n Hn Hm.
  induction m as [|m IH]; intros n Hn Hm.
  - assert (n = p) as -> by lia.
    destruct (is_prime_correct p ltac:(lia)) as (fuel & b & Hb & Hbp).
    apply Hbp in Hprime. subst b.
    exists (S fuel), p. cbn [find_next_prime]. rewrite Hb.
    split_and!; trivial; try lia. now apply Hbp.
  - destruct (is_prime_correct n ltac:(lia)) as (fuel & b & Hb & Hbp).
    destruct b.
    + exists (S fuel), n. cbn [find_next_prime]. rewrite Hb.
      split_and!; trivial; try lia. now apply Hbp.
    + destruct (IH (n + 1) ltac:(lia) ltac:(lia)) as (fuel' & q & Hq & Hqp & Hrange & Hmin).
      exists (S (Nat.max fuel fuel')), q. cbn [find_next_prime].
      rewrite (is_prime_mono fuel (Nat.max fuel fuel') n false (Nat.le_max_l _ _) Hb).
      rewrite wrap_small by (unfold in_range, modulus; lia).
      rewrite (find_next_prime_mono fuel' (Nat.max fuel fuel') _ q (Nat.le_max_r _ _) Hq).
      split_and!; trivial; try lia.
      intros r Hr. destruct (Z.eq_dec r n) as [->|Hne].
      * intros Hpr. apply Hbp in Hpr. discriminate.
      * apply Hmin. lia.
Qed.

End PrimeFacts.

(** * Facts about binary32 arithmetic *)

Module Float32Facts.

Import Float32.

Lemma shr_1_nonneg mrs : 0 <= shr_m mrs -> 0 <= shr_m (shr_1 mrs).
Proof.
  destruct mrs as [m r s]. simpl.
  destruct m as [|[p|p|]|p]; simpl; lia.
Qed.

Lemma iter_shr_1_nonneg p mrs :
  0 <= shr_m mrs -> 0 <= shr_m (SpecFloat.iter_pos shr_1 p mrs).
Proof.
  revert mrs. induction p as [p IH|p IH|]; intros mrs H; simpl.
  - apply IH, IH, shr_1_nonneg, H.
  - apply IH, IH, H.
  - apply shr_1_nonneg, H.
Qed.

Lemma shr_nonneg mrs e n : 0 <= shr_m mrs -> 0 <= shr_m (fst (shr mrs e n)).
Proof.
  intros H. destruct n; simpl; trivial. now apply iter_shr_1_nonneg.
Qed.

Lemma shr_fexp_nonneg m e l :
  0 <= m -> 0 <= shr_m (fst (shr_fexp prec emax m e l)).
Proof.
  intros H. unfold shr_fexp. apply shr_nonneg.
  destruct l as [|[]]; exact H.
Qed.

Lemma round_nearest_even_nonneg m l : 0 <= m -> 0 <= round_nearest_even m l.
Proof.
  intros H. destruct l as [|[]]; simpl; try lia.
  destruct (Z.even m); lia.
Qed.

(** Rounding a non-negative mantissa with the sign bit clear never gives a
    NaN or a negative number. *)
Lemma binary_round_aux_nonneg mx ex lx :
  0 <= mx -> nonneg (binary_round_aux prec emax false mx ex lx).
Proof.
  intros H. unfold binary_round_aux.
  pose proof (shr_fexp_nonneg mx ex lx H) as H1.
  destruct (shr_fexp prec emax mx ex lx) as [mrs' e']. simpl in H1.
  pose proof (shr_fexp_nonneg _ e' loc_Exact
                (round_nearest_even_nonneg _ (loc_of_shr_record mrs') H1)) as H2.
  destruct (shr_fexp prec emax _ e' loc_Exact) as [mrs'' e'']. simpl in H2.
  destruct (shr_m mrs'') as [|m|m]; simpl.
  - reflexivity.
  - destruct (e'' <=? emax - prec); reflexivity.
  - lia.
Qed.

Lemma of_size_nonneg n : 0 <= n -> nonneg (of_size n).
Proof.
  intros H. unfold of_size, binary_normalize.
  destruct n as [|m|m]; [reflexivity| |lia].
  unfold binary_round.
  destruct (shl_align m 0 _) as [mz ez].
  apply binary_round_aux_nonneg. lia.
Qed.

Lemma div_nonneg x y : nonneg x -> nonneg y ->
  x <> S754_zero false \/ y <> S754_zero false ->
  (forall s, x <> S754_infinity s) ->
  nonneg (div x y).
Proof.
  intros Hx Hy Hz Hinf.
  destruct x as [sx|sx| |sx mx ex]; simpl in Hx; try contradiction; subst.
  - destruct y as [sy|sy| |sy my ey]; simpl in Hy; try contradiction; subst;
      simpl; try reflexivity.
    destruct Hz as [Hz|Hz]; now elim Hz.
  - now elim (Hinf false).
  - destruct y as [sy|sy| |sy my ey]; simpl in Hy; try contradiction; subst;
      simpl; try reflexivity.
    unfold div, SFdiv.
    destruct (SFdiv_core_binary prec emax (Z.pos mx) ex (Z.pos my) ey)
      as [[mz ez] lz] eqn:Hcore.
    apply binary_round_aux_nonneg.
    unfold SFdiv_core_binary in Hcore.
    set (m' := match _ - _ - _ with Z0 => _ | Z.pos _ => _ | Z.neg _ => _ end) in Hcore.
    assert (Hm : 0 <= m').
    { subst m'. destruct (_ - _ - _); try lia. apply Z.shiftl_nonneg. lia. }
    pose proof (Z.div_pos m' (Z.pos my) Hm ltac:(lia)) as Hq.
    unfold Z.div in Hq.
    destruct (Z.div_eucl m' (Z.pos my)) as [q r].
    inversion Hcore; subst. exact Hq.
Qed.

(** Every non-negative float, NaN excluded, is greater than a negative
    finite one. *)
Lemma gt_negative x m e : nonneg x -> gt x (S754_finite true m e) = true.
Proof.
  intros H. destruct x as [s|s| |s mx ex]; simpl in H; try contradiction; subst;
    reflexivity.
Qed.

(** Nothing is greater than [+inf]. *)
Lemma gt_infinity x : gt x (S754_infinity false) = false.
Proof. destruct x as [[]|[]| |[] mx ex]; reflexivity. Qed.

End Float32Facts.

(** * Facts about the table *)

Module HashTblFacts.

Import SizeT SizeTFacts Prime PrimeFacts ac.

(** ** Chains and arrays of chains *)

Section Chains.

Context {KeyType DataType : Type}.

Abbreviation HashEntry := (@HashEntry KeyType DataType).

Implicit Types (chain : list HashEntry) (tbl : list (list HashEntry)).

Lemma find_if_None predicate chain :
  find_if predicate chain = None <-> forall e, e ∈ chain -> predicate e = false.
Proof.
  induction chain as [|e chain IH]; simpl.
  - split; [intros _ e He; inversion He | reflexivity].
  - destruct (predicate e) eqn:He.
    + split; [discriminate|]. intros H. rewrite H in He; [discriminate|constructor].
    + destruct (find_if predicate chain) as [pos|] eqn:Hf.
      * split; [discriminate|]. intros H.
        destruct IH as [_ IH]. discriminate IH.
        intros e' He'. apply H. now constructor.
      * split; [|reflexivity]. intros _ e' He'. inversion He'; subst; [exact He|].
        now apply IH.
Qed.

Lemma find_if_Some predicate chain pos :
  find_if predicate chain = Some pos ->
  exists e, chain !! pos = Some e /\ predicate e = true /\
            forall j e', (j < pos)%nat -> chain !! j = Some e' -> predicate e' = false.
Proof.
  revert pos. induction chain as [|e chain IH]; intros pos H; simpl in H; [discriminate|].
  destruct (predicate e) eqn:He.
  - inversion H; subst. exists e. repeat split; trivial. intros j e' Hj. lia.
  - destruct (find_if predicate chain) as [pos'|] eqn:Hf; [|discriminate].
    inversion H; subst. destruct (IH pos' eq_refl) as (e0 & Hl & Hp & Hlt).
    exists e0. repeat split; trivial.
    intros [|j] e' Hj He'; simpl in He'.
    + now inversion He'; subst.
    + eapply Hlt; [|exact He']. lia.
Qed.

Lemma length_concat_insert tbl i chain chain' :
  tbl !! i = Some chain ->
  (length (concat (<[i := chain']> tbl)) + length chain
   = length (concat tbl) + length chain')%nat.
Proof.
  revert i. induction tbl as [|c tbl IH]; intros i H; [discriminate|].
  destruct i as [|i]; simpl in *.
  - inversion H; subst. rewrite !length_app. lia.
  - rewrite !length_app. specialize (IH i H). lia.
Qed.

Lemma concat_insert_replicate n i chain :
  (i < n)%nat -> concat (<[i := chain]> (replicate n ([] : list HashEntry))) = chain.
Proof.
  revert i. induction n as [|n IH]; intros i Hi; [lia|].
  destruct i as [|i]; simpl.
  - clear. induction n as [|n IHn]; simpl; [apply app_nil_r | exact IHn].
  - apply IH. lia.
Qed.

Lemma elem_of_concat (e : HashEntry) tbl :
  e ∈ concat tbl <-> exists i chain, tbl !! i = Some chain /\ e ∈ chain.
Proof.
  rewrite list_elem_of_In, in_concat. split.
  - intros (chain & Hc & He). apply list_elem_of_In, list_elem_of_lookup in Hc.
    destruct Hc as [i Hi]. exists i, chain. split; [exact Hi|].
    now apply list_elem_of_In.
  - intros (i & chain & Hi & He). exists chain. split.
    + apply list_elem_of_In, list_elem_of_lookup. now exists i.
    + now apply list_elem_of_In.
Qed.

(** Keys are unique in the whole array as soon as they are unique in every
    chain and the chain of a key is determined by the key. *)
Lemma NoDup_keys_concat (f : KeyType -> nat) tbl (base : nat) :
  (forall i chain e, tbl !! i = Some chain -> e ∈ chain -> f (m_key e) = (base + i)%nat) ->
  (forall i chain, tbl !! i = Some chain -> NoDup (m_key <$> chain)) ->
  NoDup (m_key <$> concat tbl).
Proof.
  revert base. induction tbl as [|c tbl IH]; intros base Hpl Hnd; simpl.
  - constructor.
  - rewrite fmap_app. apply NoDup_app. split; [|split].
    + apply (Hnd O c). reflexivity.
    + intros k Hk Hk'.
      apply list_elem_of_fmap in Hk as (e & -> & He).
      apply list_elem_of_fmap in Hk' as (e' & Heq & He').
      apply elem_of_concat in He' as (i & chain & Hi & He').
      pose proof (Hpl O c e eq_refl He) as H1.
      pose proof (Hpl (S i) chain e' Hi He') as H2.
      rewrite Heq in H1. lia.
    + apply (IH (S base)).
      * intros i chain e Hi He. rewrite (Hpl (S i) chain e Hi He). lia.
      * intros i chain Hi. apply (Hnd (S i) chain Hi).
Qed.

End Chains.

(** ** [insert] and [rehash] *)

Section Table.

Context {KeyType DataType : Type}.
Variable hashFunc : KeyType -> Z.
Variable keyEqual : KeyType -> KeyType -> bool.

(** [KeyEqual] decides equality of keys, as [std::equal_to] does. *)
Hypothesis keyEqual_spec : forall a b, keyEqual a b = true <-> a = b.

Abbreviation HashEntry := (@HashEntry KeyType DataType).
Abbreviation HashTbl := (@HashTbl KeyType DataType).
Abbreviation index_of := (@index_of KeyType DataType hashFunc).
Abbreviation insert := (@insert KeyType DataType hashFunc keyEqual).
Abbreviation rehash := (@rehash KeyType DataType hashFunc keyEqual).
Abbreviation erase := (@erase KeyType DataType hashFunc keyEqual).
Abbreviation lookup := (@lookup KeyType DataType hashFunc keyEqual).
Abbreviation chain_lookup := (@chain_lookup KeyType DataType keyEqual).
Abbreviation last_data := (@last_data KeyType DataType keyEqual).
Abbreviation wf := (@wf KeyType DataType hashFunc).
Abbreviation insert_mutation := (@insert_mutation KeyType DataType hashFunc keyEqual).
Abbreviation check_load := (@check_load KeyType DataType hashFunc keyEqual).
Abbreviation run := (@run KeyType DataType hashFunc keyEqual).
Abbreviation inserted := (@inserted KeyType DataType hashFunc keyEqual).
Abbreviation rehashed := (@rehashed KeyType DataType hashFunc).
Abbreviation retrieve := (@retrieve KeyType DataType hashFunc keyEqual).
Abbreviation at_ := (@at_ KeyType DataType hashFunc keyEqual).
Abbreviation count := (@count KeyType DataType hashFunc keyEqual).
Abbreviation occurrences := (@occurrences KeyType DataType keyEqual).

Implicit Types (t : HashTbl) (chain : list HashEntry) (e : HashEntry).

Lemma keyEqual_refl k : keyEqual k k = true.
Proof. now apply keyEqual_spec. Qed.

Lemma keyEqual_false a b : keyEqual a b = false <-> a <> b.
Proof.
  destruct (keyEqual a b) eqn:H.
  - apply keyEqual_spec in H. split; [discriminate | contradiction].
  - split; [|reflexivity]. intros _ Heq. apply keyEqual_spec in Heq. congruence.
Qed.

(** *** One step of the recursion *)

Lemma rehash_S fuel t :
  rehash (S fuel) t
  = match find_next_prime fuel (wrap (2 * m_size t)) with
    | None => None
    | Some new_size =>
        insert_each (insert fuel) (concat (m_table t))
                    (fresh new_size (m_load_factor t))
    end.
Proof. reflexivity. Qed.

Lemma insert_S_empty fuel t k v :
  bucket t (index_of t k) = [] ->
  insert (S fuel) t k v
  = let t2 := set_count (set_bucket t (index_of t k) [{| m_key := k; m_data := v |}])
                        (wrap (m_count t + 1)) in
    if load_exceeded t2 then
      match rehash fuel t2 with
      | None => None
      | Some t3 => Some (true, t3)
      end
    else Some (true, t2).
Proof. intros Hb. cbn [ac.insert]. rewrite Hb. reflexivity. Qed.

(** *** Fuel *)

Lemma insert_each_mono (ins ins' : HashTbl -> KeyType -> DataType -> option (bool * HashTbl))
    (l : list HashEntry) t r :
  (forall t k v r, ins t k v = Some r -> ins' t k v = Some r) ->
  insert_each ins l t = Some r -> insert_each ins' l t = Some r.
Proof.
  intros Hins. revert t. induction l as [|e l IH]; intros t H; simpl in *; [exact H|].
  destruct (ins t (m_key e) (m_data e)) as [[b t']|] eqn:Hi; [|discriminate].
  rewrite (Hins _ _ _ _ Hi). now apply IH.
Qed.

Lemma insert_rehash_mono fuel :
  (forall fuel' t k v r, (fuel <= fuel')%nat ->
     insert fuel t k v = Some r -> insert fuel' t k v = Some r) /\
  (forall fuel' t r, (fuel <= fuel')%nat ->
     rehash fuel t = Some r -> rehash fuel' t = Some r).
Proof.
  induction fuel as [|fuel [IHi IHr]]; [split; discriminate|].
  assert (Hr : forall fuel' t r, (S fuel <= fuel')%nat ->
     rehash (S fuel) t = Some r -> rehash fuel' t = Some r).
  { intros [|fuel'] t r Hle H; [lia|]. simpl in *.
    destruct (find_next_prime fuel _) as [p|] eqn:Hp; [|discriminate].
    rewrite (find_next_prime_mono fuel fuel' _ p) by (lia || assumption).
    eapply insert_each_mono; [|exact H].
    intros t0 k v r0. apply IHi. lia. }
  split; [|exact Hr].
  intros [|fuel'] t k v r Hle H; [lia|]. simpl in *.
  assert (Hre : forall t1 (b : bool),
    match rehash fuel t1 with Some t2 => Some (b, t2) | None => None end = Some r ->
    match rehash fuel' t1 with Some t2 => Some (b, t2) | None => None end = Some r).
  { intros t1 b H1. destruct (rehash fuel t1) as [t2|] eqn:H2; [|discriminate].
    rewrite (IHr fuel' t1 t2) by (lia || assumption). exact H1. }
  destruct (is_empty _).
  - destruct (load_exceeded _); [now apply Hre | exact H].
  - destruct (find_if _ _).
    + destruct (load_exceeded _); [now apply Hre | exact H].
    + destruct (load_exceeded _); [now apply Hre | exact H].
Qed.

Lemma insert_mono fuel fuel' t k v r :
  (fuel <= fuel')%nat -> insert fuel t k v = Some r -> insert fuel' t k v = Some r.
Proof. apply insert_rehash_mono. Qed.

Lemma rehash_mono fuel fuel' t r :
  (fuel <= fuel')%nat -> rehash fuel t = Some r -> rehash fuel' t = Some r.
Proof. apply insert_rehash_mono. Qed.

Lemma run_mono fuel fuel' ops t r :
  (fuel <= fuel')%nat -> run fuel ops t = Some r -> run fuel' ops t = Some r.
Proof.
  intros Hle. revert t r. induction ops as [|[k d|k] ops IH]; intros t r H; simpl in *.
  - exact H.
  - destruct (insert fuel t k d) as [[b t']|] eqn:Hi; [|discriminate].
    rewrite (insert_mono _ _ _ _ _ _ Hle Hi).
    destruct (run fuel ops t') as [[bs t'']|] eqn:Hr; [|discriminate].
    now rewrite (IH _ _ Hr).
  - destruct (ac.erase hashFunc keyEqual t k) as [b t'].
    destruct (run fuel ops t') as [[bs t'']|] eqn:Hr; [|discriminate].
    now rewrite (IH _ _ Hr).
Qed.

(** *** [insert] is its mutation followed by the load-factor check *)

Lemma is_empty_find_if (predicate : HashEntry -> bool) chain :
  is_empty chain = true -> find_if predicate chain = None.
Proof. destruct chain; [reflexivity | discriminate]. Qed.

Lemma alter_overwrite chain pos k v e :
  chain !! pos = Some e -> m_key e = k ->
  alter (overwrite_value v) pos chain = <[pos := {| m_key := k; m_data := v |}]> chain.
Proof.
  intros H <-. rewrite list_insert_alter.
  revert pos H. induction chain as [|e0 chain IH]; intros [|pos] H; simpl in *;
    try discriminate.
  - now inversion H; subst.
  - f_equal. now apply IH.
Qed.

Lemma insert_unfold fuel t k v :
  0 <= m_count t -> m_count t + 1 < modulus ->
  insert (S fuel) t k v = check_load fuel (insert_mutation t k v).
Proof.
  intros H0 H1. unfold check_load, ac.insert_mutation. simpl.
  assert (Hw : wrap (m_count t + 1) = m_count t + 1).
  { apply wrap_small. unfold in_range. lia. }
  destruct (is_empty (bucket t (index_of t k))) eqn:Hemp.
  - rewrite (is_empty_find_if _ _ Hemp). simpl. unfold set_count, set_bucket. simpl.
    rewrite Hw. reflexivity.
  - destruct (find_if _ _) as [pos|] eqn:Hf; simpl.
    + destruct (find_if_Some _ _ _ Hf) as (e & He & Hp & _).
      apply keyEqual_spec in Hp.
      rewrite (alter_overwrite _ _ k v e He (eq_sym Hp)).
      unfold set_bucket. simpl. reflexivity.
    + unfold set_count, set_bucket. simpl. rewrite Hw. reflexivity.
Qed.

(** *** Chains as association lists *)

Lemma chain_lookup_None k chain :
  chain_lookup k chain = None <-> k ∉ m_key <$> chain.
Proof.
  induction chain as [|e chain IH]; simpl.
  - split; [intros _ H; inversion H | reflexivity].
  - rewrite not_elem_of_cons. destruct (keyEqual k (m_key e)) eqn:He.
    + apply keyEqual_spec in He. split; [discriminate | tauto].
    + apply keyEqual_false in He. tauto.
Qed.

Lemma chain_lookup_find_if k chain :
  chain_lookup k chain =
  match find_if (fun e => keyEqual k (m_key e)) chain with
  | Some pos => m_data <$> chain !! pos
  | None => None
  end.
Proof.
  induction chain as [|e chain IH]; simpl; [reflexivity|].
  destruct (keyEqual k (m_key e)); [reflexivity|].
  rewrite IH. now destruct (find_if _ chain).
Qed.

Lemma chain_lookup_Some_elem k v chain :
  chain_lookup k chain = Some v -> {| m_key := k; m_data := v |} ∈ chain.
Proof.
  induction chain as [|e chain IH]; simpl; [discriminate|].
  destruct (keyEqual k (m_key e)) eqn:He.
  - apply keyEqual_spec in He. intros [= <-]. subst k. destruct e. constructor.
  - intros H. constructor. now apply IH.
Qed.

Lemma chain_lookup_elem k v chain :
  NoDup (m_key <$> chain) -> {| m_key := k; m_data := v |} ∈ chain ->
  chain_lookup k chain = Some v.
Proof.
  induction chain as [|e chain IH]; simpl; intros Hnd Hin; [inversion Hin|].
  apply NoDup_cons in Hnd as [Hne Hnd].
  apply elem_of_cons in Hin as [<-|Hin]; simpl.
  - now rewrite keyEqual_refl.
  - destruct (keyEqual k (m_key e)) eqn:He; [|now apply IH].
    apply keyEqual_spec in He. subst k. elim Hne.
    apply list_elem_of_fmap. now exists {| m_key := m_key e; m_data := v |}.
Qed.

Lemma chain_lookup_alter k k' v chain pos :
  find_if (fun e => keyEqual k (m_key e)) chain = Some pos ->
  chain_lookup k' (alter (overwrite_value v) pos chain)
  = if keyEqual k' k then Some v else chain_lookup k' chain.
Proof.
  revert pos. induction chain as [|e chain IH]; intros pos H; simpl in H; [discriminate|].
  destruct (keyEqual k (m_key e)) eqn:He.
  - inversion H; subst pos. simpl. apply keyEqual_spec in He. subst k.
    now destruct (keyEqual k' (m_key e)).
  - destruct (find_if _ chain) as [pos'|]; [|discriminate]. inversion H; subst pos.
    change (alter (overwrite_value v) (S pos') (e :: chain))
      with (e :: alter (overwrite_value v) pos' chain).
    cbn [ac.chain_lookup]. rewrite (IH pos' eq_refl).
    destruct (keyEqual k' (m_key e)) eqn:He'; [|reflexivity].
    destruct (keyEqual k' k) eqn:Hk; [|reflexivity].
    apply keyEqual_spec in He', Hk. apply keyEqual_false in He. congruence.
Qed.

Lemma keys_alter v pos chain :
  m_key <$> alter (overwrite_value v) pos chain = m_key <$> chain.
Proof.
  revert pos. induction chain as [|e chain IH]; intros [|pos]; simpl; trivial.
  f_equal. apply IH.
Qed.

Lemma elem_of_alter_key v pos chain e :
  e ∈ alter (overwrite_value v) pos chain -> exists e', e' ∈ chain /\ m_key e' = m_key e.
Proof.
  intros H.
  assert (Hk : m_key e ∈ m_key <$> alter (overwrite_value v) pos chain).
  { apply list_elem_of_fmap. now exists e. }
  rewrite keys_alter in Hk. apply list_elem_of_fmap in Hk as (e' & Heq & He').
  now exists e'.
Qed.

(** *** The array of chains *)

Lemma index_of_lt t k : wf t -> (index_of t k < length (m_table t))%nat.
Proof.
  intros Hwf. rewrite (wf_length _ _ Hwf). unfold ac.index_of.
  pose proof (wf_size _ _ Hwf) as Hs.
  pose proof (Z.mod_pos_bound (hashFunc k) (m_size t)) as Hm. lia.
Qed.

Lemma bucket_lookup t i :
  (i < length (m_table t))%nat -> m_table t !! i = Some (bucket t i).
Proof.
  intros Hi. unfold bucket. apply lookup_lt_is_Some in Hi as [c Hc].
  now rewrite Hc.
Qed.

Lemma bucket_of_lookup t i chain : m_table t !! i = Some chain -> bucket t i = chain.
Proof. intros H. unfold bucket. now rewrite H. Qed.

Lemma index_of_size t t' k : m_size t' = m_size t -> index_of t' k = index_of t k.
Proof. intros H. unfold ac.index_of. now rewrite H. Qed.

(** The table associates [k] with [v] exactly when it holds the entry
    [(k, v)]. *)
Lemma lookup_entries t k v :
  wf t -> lookup t k = Some v <-> {| m_key := k; m_data := v |} ∈ entries t.
Proof.
  intros Hwf. unfold ac.lookup, entries. rewrite elem_of_concat. split.
  - intros H. apply chain_lookup_Some_elem in H.
    exists (index_of t k), (bucket t (index_of t k)). split; [|exact H].
    apply bucket_lookup, index_of_lt, Hwf.
  - intros (i & chain & Hi & He).
    pose proof (wf_placed _ _ Hwf i chain _ Hi He) as Hp. simpl in Hp. subst i.
    rewrite (bucket_of_lookup _ _ _ Hi).
    apply chain_lookup_elem; [|exact He]. apply (wf_chain _ _ Hwf _ _ Hi).
Qed.

Lemma lookup_None t k : wf t -> lookup t k = None <-> k ∉ m_key <$> entries t.
Proof.
  intros Hwf. split.
  - intros H Hin. apply list_elem_of_fmap in Hin as ([k' v] & Hk & He).
    simpl in Hk. subst k'. apply lookup_entries in He; [congruence | exact Hwf].
  - intros H. destruct (lookup t k) as [v|] eqn:Hl; [|reflexivity].
    apply lookup_entries in Hl; [|exact Hwf]. elim H.
    apply list_elem_of_fmap. now exists {| m_key := k; m_data := v |}.
Qed.

Lemma wf_NoDup_keys t : wf t -> NoDup (m_key <$> entries t).
Proof.
  intros Hwf. apply (NoDup_keys_concat (index_of t) _ O).
  - intros i chain e Hi He. simpl. apply (wf_placed _ _ Hwf _ _ _ Hi He).
  - apply (wf_chain _ _ Hwf).
Qed.

Lemma wf_NoDup_entries t : wf t -> NoDup (entries t).
Proof. intros Hwf. eapply NoDup_fmap_1, wf_NoDup_keys, Hwf. Qed.

(** Two well-formed tables with the same entries answer every lookup
    alike and have the same size. *)
Lemma lookup_Permutation t t' k :
  wf t -> wf t' -> entries t ≡ₚ entries t' -> lookup t k = lookup t' k.
Proof.
  intros Hwf Hwf' Hp. apply option_eq. intros v.
  rewrite !lookup_entries by assumption. now rewrite Hp.
Qed.

Lemma count_Permutation t t' :
  wf t -> wf t' -> entries t ≡ₚ entries t' -> m_count t = m_count t'.
Proof.
  intros Hwf Hwf' Hp. rewrite (wf_count _ _ Hwf), (wf_count _ _ Hwf').
  now rewrite Hp.
Qed.

(** *** The mutation of [insert] *)

Lemma insert_mutation_size t k v : m_size (snd (insert_mutation t k v)) = m_size t.
Proof. unfold ac.insert_mutation. now destruct (find_if _ _). Qed.

Lemma insert_mutation_load_factor t k v :
  m_load_factor (snd (insert_mutation t k v)) = m_load_factor t.
Proof. unfold ac.insert_mutation. now destruct (find_if _ _). Qed.

Lemma insert_mutation_count t k v :
  m_count (snd (insert_mutation t k v))
  = m_count t + (if fst (insert_mutation t k v) then 1 else 0).
Proof. unfold ac.insert_mutation. destruct (find_if _ _); simpl; lia. Qed.

Lemma insert_mutation_fst t k v :
  fst (insert_mutation t k v) = true <-> lookup t k = None.
Proof.
  unfold ac.insert_mutation, ac.lookup. rewrite chain_lookup_find_if.
  destruct (find_if _ _) as [pos|] eqn:Hf; simpl; [|tauto].
  destruct (find_if_Some _ _ _ Hf) as (e & He & _). rewrite He. simpl.
  split; discriminate.
Qed.

Lemma insert_mutation_wf t k v :
  wf t -> m_count t + 1 < modulus -> wf (snd (insert_mutation t k v)).
Proof.
  intros Hwf Hc.
  pose proof (index_of_lt t k Hwf) as Hidx.
  pose proof (bucket_lookup _ _ Hidx) as Hb.
  pose proof (wf_count _ _ Hwf) as Hcount.
  unfold ac.insert_mutation.
  destruct (find_if _ _) as [pos|] eqn:Hf; simpl; constructor; simpl;
    try apply (wf_size _ _ Hwf); try (rewrite length_insert; apply (wf_length _ _ Hwf)).
  - (* overwrite: placement *)
    intros i c e Hi He.
    apply list_lookup_insert_Some in Hi as [(<- & <- & _)|(Hne & Hi)].
    + apply elem_of_alter_key in He as (e' & He' & <-).
      apply (wf_placed _ _ Hwf _ _ _ Hb He').
    + apply (wf_placed _ _ Hwf _ _ _ Hi He).
  - intros i c Hi.
    apply list_lookup_insert_Some in Hi as [(<- & <- & _)|(Hne & Hi)].
    + rewrite keys_alter. apply (wf_chain _ _ Hwf _ _ Hb).
    + apply (wf_chain _ _ Hwf _ _ Hi).
  - unfold entries in *. simpl.
    pose proof (length_concat_insert (m_table t) _ _
      (alter (overwrite_value v) pos (bucket t (index_of t k))) Hb) as Hl.
    rewrite length_alter in Hl. lia.
  - lia.
  - (* prepend: placement *)
    intros i c e Hi He.
    apply list_lookup_insert_Some in Hi as [(<- & <- & _)|(Hne & Hi)].
    + apply elem_of_cons in He as [->|He]; [reflexivity|].
      apply (wf_placed _ _ Hwf _ _ _ Hb He).
    + apply (wf_placed _ _ Hwf _ _ _ Hi He).
  - intros i c Hi.
    apply list_lookup_insert_Some in Hi as [(<- & <- & _)|(Hne & Hi)].
    + rewrite fmap_cons. apply NoDup_cons. split.
      * simpl. apply chain_lookup_None. rewrite chain_lookup_find_if. now rewrite Hf.
      * apply (wf_chain _ _ Hwf _ _ Hb).
    + apply (wf_chain _ _ Hwf _ _ Hi).
  - unfold entries in *. simpl.
    pose proof (length_concat_insert (m_table t) _ _
      ({| m_key := k; m_data := v |} :: bucket t (index_of t k)) Hb) as Hl.
    simpl in Hl. lia.
  - lia.
Qed.

Lemma insert_mutation_lookup t k v k' :
  wf t ->
  lookup (snd (insert_mutation t k v)) k'
  = if keyEqual k' k then Some v else lookup t k'.
Proof.
  intros Hwf.
  pose proof (index_of_lt t k Hwf) as Hidx.
  unfold ac.lookup.
  rewrite (index_of_size t _ k' (insert_mutation_size t k v)).
  assert (Hbk : bucket (snd (insert_mutation t k v)) (index_of t k')
    = if decide (index_of t k = index_of t k')
      then match find_if (fun e => keyEqual k (m_key e)) (bucket t (index_of t k)) with
           | None => {| m_key := k; m_data := v |} :: bucket t (index_of t k)
           | Some pos => alter (overwrite_value v) pos (bucket t (index_of t k))
           end
      else bucket t (index_of t k')).
  { unfold ac.insert_mutation, bucket at 1.
    destruct (find_if _ _); simpl; rewrite list_lookup_insert;
      destruct (decide (index_of t k = index_of t k')) as [Heq|Hne];
      try (rewrite decide_True by (split; [exact Heq | exact Hidx]));
      try (rewrite decide_False by (intros [? _]; contradiction));
      reflexivity. }
  rewrite Hbk. destruct (decide (index_of t k = index_of t k')) as [Heq|Hne].
  - rewrite <- Heq. destruct (find_if _ _) as [pos|] eqn:Hf.
    + now apply chain_lookup_alter.
    + reflexivity.
  - destruct (keyEqual k' k) eqn:Hk; [|reflexivity].
    apply keyEqual_spec in Hk. now subst k'.
Qed.

(** *** [erase] *)

Lemma chain_lookup_remove_if k k' chain :
  chain_lookup k' (remove_if (fun e => keyEqual k (m_key e)) chain)
  = if keyEqual k' k then None else chain_lookup k' chain.
Proof.
  induction chain as [|e chain IH]; simpl.
  - now destruct (keyEqual k' k).
  - destruct (keyEqual k (m_key e)) eqn:He; simpl.
    + rewrite IH. apply keyEqual_spec in He. subst k.
      now destruct (keyEqual k' (m_key e)).
    + rewrite IH. destruct (keyEqual k' (m_key e)) eqn:He'; [|reflexivity].
      destruct (keyEqual k' k) eqn:Hk; [|reflexivity].
      apply keyEqual_spec in He', Hk. apply keyEqual_false in He. congruence.
Qed.

Lemma elem_of_remove_if (predicate : HashEntry -> bool) chain e :
  e ∈ remove_if predicate chain -> e ∈ chain.
Proof.
  unfold remove_if. rewrite !list_elem_of_In, filter_In. tauto.
Qed.

Lemma NoDup_keys_remove_if (predicate : HashEntry -> bool) chain :
  NoDup (m_key <$> chain) -> NoDup (m_key <$> remove_if predicate chain).
Proof.
  induction chain as [|e chain IH]; simpl; [trivial|].
  rewrite NoDup_cons. intros [Hne Hnd].
  destruct (predicate e); simpl; [now apply IH|].
  apply NoDup_cons. split; [|now apply IH].
  intros Hin. apply Hne.
  apply list_elem_of_fmap in Hin as (e' & Heq & He').
  apply list_elem_of_fmap. exists e'. split; [exact Heq|].
  now apply elem_of_remove_if in He'.
Qed.

Lemma length_remove_if k chain :
  NoDup (m_key <$> chain) -> k ∈ m_key <$> chain ->
  S (length (remove_if (fun e => keyEqual k (m_key e)) chain)) = length chain.
Proof.
  induction chain as [|e chain IH]; simpl; intros Hnd Hin; [inversion Hin|].
  apply NoDup_cons in Hnd as [Hne Hnd].
  destruct (keyEqual k (m_key e)) eqn:He; simpl.
  - apply keyEqual_spec in He. subst k. f_equal.
    clear IH Hin. induction chain as [|e' chain IH]; simpl; [reflexivity|].
    rewrite fmap_cons in Hne, Hnd. apply not_elem_of_cons in Hne as [Hne1 Hne2].
    apply NoDup_cons in Hnd as [_ Hnd].
    apply keyEqual_false in Hne1. rewrite Hne1. simpl. f_equal. now apply IH.
  - f_equal. apply IH; [exact Hnd|].
    apply elem_of_cons in Hin as [->|Hin]; [|exact Hin].
    rewrite keyEqual_refl in He. discriminate.
Qed.

Lemma erase_size t k : m_size (snd (erase t k)) = m_size t.
Proof. unfold ac.erase. now destruct (find_if _ _). Qed.

Lemma erase_load_factor t k : m_load_factor (snd (erase t k)) = m_load_factor t.
Proof. unfold ac.erase. now destruct (find_if _ _). Qed.

Lemma erase_fst t k : fst (erase t k) = true <-> lookup t k <> None.
Proof.
  unfold ac.erase, ac.lookup. rewrite chain_lookup_find_if.
  destruct (find_if _ _) as [pos|] eqn:Hf; simpl.
  - destruct (find_if_Some _ _ _ Hf) as (e & He & _). rewrite He. simpl.
    split; [discriminate | reflexivity].
  - split; [discriminate | congruence].
Qed.

Lemma erase_wf_count t k :
  wf t ->
  wf (snd (erase t k)) /\
  m_count (snd (erase t k)) = m_count t - (if fst (erase t k) then 1 else 0).
Proof.
  intros Hwf.
  pose proof (index_of_lt t k Hwf) as Hidx.
  pose proof (bucket_lookup _ _ Hidx) as Hb.
  pose proof (wf_count _ _ Hwf) as Hcount.
  pose proof (wf_count_range _ _ Hwf) as Hrange.
  unfold ac.erase.
  destruct (find_if _ _) as [pos|] eqn:Hf; simpl; [|split; [exact Hwf | lia]].
  assert (Hin : k ∈ m_key <$> bucket t (index_of t k)).
  { destruct (find_if_Some _ _ _ Hf) as (e & He & Hp & _).
    apply keyEqual_spec in Hp. subst k. apply list_elem_of_fmap. exists e.
    split; [reflexivity|]. apply list_elem_of_lookup. now exists pos. }
  pose proof (length_remove_if k _ (wf_chain _ _ Hwf _ _ Hb) Hin) as Hlen.
  pose proof (length_concat_insert (m_table t) _ _
    (remove_if (fun e => keyEqual k (m_key e)) (bucket t (index_of t k))) Hb) as Hl.
  assert (Hw : wrap (m_count t - 1) = m_count t - 1).
  { apply wrap_small. unfold in_range, entries in *.
    destruct (bucket t (index_of t k)); simpl in *; lia. }
  rewrite Hw. split; [|reflexivity].
  constructor; simpl.
  - apply (wf_size _ _ Hwf).
  - rewrite length_insert. apply (wf_length _ _ Hwf).
  - intros i c e Hi He.
    apply list_lookup_insert_Some in Hi as [(<- & <- & _)|(Hne & Hi)].
    + apply elem_of_remove_if in He. apply (wf_placed _ _ Hwf _ _ _ Hb He).
    + apply (wf_placed _ _ Hwf _ _ _ Hi He).
  - intros i c Hi.
    apply list_lookup_insert_Some in Hi as [(<- & <- & _)|(Hne & Hi)].
    + apply NoDup_keys_remove_if, (wf_chain _ _ Hwf _ _ Hb).
    + apply (wf_chain _ _ Hwf _ _ Hi).
  - unfold entries in *. simpl. lia.
  - lia.
Qed.

Lemma erase_lookup t k k' :
  wf t -> lookup (snd (erase t k)) k' = if keyEqual k' k then None else lookup t k'.
Proof.
  intros Hwf.
  pose proof (index_of_lt t k Hwf) as Hidx.
  unfold ac.lookup. rewrite (index_of_size t _ k' (erase_size t k)).
  unfold ac.erase. destruct (find_if _ _) as [pos|] eqn:Hf; simpl.
  - unfold bucket at 1. simpl. rewrite list_lookup_insert.
    destruct (decide (index_of t k = index_of t k')) as [Heq|Hne].
    + rewrite decide_True by (split; [exact Heq | exact Hidx]). simpl.
      rewrite <- Heq. apply chain_lookup_remove_if.
    + rewrite decide_False by (intros [? _]; contradiction).
      destruct (keyEqual k' k) eqn:Hk; [|reflexivity].
      apply keyEqual_spec in Hk. now subst k'.
  - destruct (keyEqual k' k) eqn:Hk; [|reflexivity].
    apply keyEqual_spec in Hk. subst k'.
    rewrite chain_lookup_find_if. now rewrite Hf.
Qed.

(** *** Fresh tables *)

Lemma concat_replicate_nil n : concat (replicate n ([] : list HashEntry)) = [].
Proof. induction n as [|n IH]; simpl; [reflexivity | exact IH]. Qed.

Lemma fresh_wf sz lf : 1 <= sz < modulus -> wf (fresh sz lf).
Proof.
  intros Hsz. constructor; simpl; try lia.
  - apply length_replicate.
  - intros i chain e Hi He. apply lookup_replicate in Hi as [-> _]. inversion He.
  - intros i chain Hi. apply lookup_replicate in Hi as [-> _]. constructor.
  - unfold entries. simpl. now rewrite concat_replicate_nil.
Qed.

Lemma fresh_lookup sz lf k : lookup (fresh sz lf : HashTbl) k = None.
Proof.
  unfold ac.lookup, bucket. simpl.
  destruct (replicate _ _ !! _) as [c|] eqn:Hc; [|reflexivity].
  now apply lookup_replicate in Hc as [-> _].
Qed.

Lemma HashTbl_new_wf fuel sz (t : HashTbl) :
  in_range sz -> HashTbl_new fuel sz = Some t -> wf t.
Proof.
  intros Hsz. unfold HashTbl_new.
  destruct (find_next_prime fuel sz) as [p|] eqn:Hp; [|discriminate].
  intros [= <-]. apply fresh_wf. eapply find_next_prime_range; eassumption.
Qed.

Lemma set_max_load_factor_wf t mlf : wf t -> wf (set_max_load_factor t mlf).
Proof. intros [H1 H2 H3 H4 H5 H6]. now constructor. Qed.

Lemma clear_wf t : wf t -> wf (clear t) /\ entries (clear t) = [].
Proof.
  intros Hwf.
  assert (He : entries (clear t) = []).
  { unfold entries. simpl. induction (m_table t) as [|c l IH]; [reflexivity | exact IH]. }
  split; [|exact He]. constructor; simpl.
  - apply (wf_size _ _ Hwf).
  - rewrite length_fmap. apply (wf_length _ _ Hwf).
  - intros i chain e Hi He'. rewrite list_lookup_fmap in Hi.
    destruct (m_table t !! i); [|discriminate]. inversion Hi; subst. inversion He'.
  - intros i chain Hi. rewrite list_lookup_fmap in Hi.
    destruct (m_table t !! i); [|discriminate]. inversion Hi; subst. constructor.
  - now rewrite He.
  - unfold modulus. lia.
Qed.

(** *** Inserting a list of entries *)

Lemma last_data_elem k v (l : list HashEntry) :
  NoDup (m_key <$> l) ->
  last_data k l = Some v <-> {| m_key := k; m_data := v |} ∈ l.
Proof.
  revert v. induction l as [|e l IH]; simpl; intros v Hnd.
  - split; [discriminate | intros H; inversion H].
  - apply NoDup_cons in Hnd as [Hne Hnd].
    pose proof (fun v => IH v Hnd) as IH'. clear IH. rename IH' into IH.
    rewrite elem_of_cons. destruct (last_data k l) as [d|] eqn:Hl.
    + split.
      * intros [= ->]. right. now apply IH.
      * intros [<-|Hin]; [|now apply IH in Hin].
        simpl in Hne. elim Hne. apply list_elem_of_fmap.
        exists {| m_key := k; m_data := d |}. split; [reflexivity|]. now apply IH.
    + destruct (keyEqual k (m_key e)) eqn:He.
      * apply keyEqual_spec in He. subst k. split.
        -- intros [= <-]. left. now destruct e.
        -- intros [<-|Hin]; [reflexivity|]. apply IH in Hin. discriminate.
      * apply keyEqual_false in He. split; [discriminate|].
        intros [<-|Hin]; [now elim He | apply IH in Hin; discriminate].
Qed.

Lemma insert_each_post
    (ins : HashTbl -> KeyType -> DataType -> option (bool * HashTbl)) :
  (forall t k v r, wf t -> m_count t + 1 < modulus ->
     ins t k v = Some r -> inserted t k v r) ->
  forall (l : list HashEntry) t t',
    wf t -> m_count t + Z.of_nat (length l) < modulus ->
    insert_each ins l t = Some t' ->
    wf t' /\ m_load_factor t' = m_load_factor t /\
    (forall k, lookup t' k
               = match last_data k l with Some d => Some d | None => lookup t k end) /\
    m_count t <= m_count t' <= m_count t + Z.of_nat (length l).
Proof.
  intros Hins. induction l as [|e l IH]; intros t t' Hwf Hc H; simpl in H.
  - inversion H; subst. simpl. split_and!; trivial; lia.
  - destruct (ins t (m_key e) (m_data e)) as [[b t1]|] eqn:Hi; [|discriminate].
    cbn [length] in Hc. rewrite Nat2Z.inj_succ in Hc.
    assert (Hc0 : m_count t + 1 < modulus) by lia.
    destruct (Hins _ _ _ _ Hwf Hc0 Hi) as (Hwf1 & Hlf1 & Hlk1 & _ & Hc1).
    simpl in *.
    destruct (IH t1 t' Hwf1 ltac:(destruct b; lia) H) as (Hwf' & Hlf' & Hlk' & Hc').
    split_and!; trivial;
      try (cbn [length]; rewrite ?Nat2Z.inj_succ; destruct b; lia).
    + congruence.
    + intros k. rewrite Hlk'. destruct (last_data k l); [reflexivity|].
      rewrite Hlk1. now destruct (keyEqual k (m_key e)).
Qed.

(** *** The recursion [insert] -> [rehash] -> [insert] *)

Lemma insert_rehash_post fuel :
  (forall t k v r, wf t -> m_count t + 1 < modulus ->
     insert fuel t k v = Some r -> inserted t k v r) /\
  (forall t t', wf t -> rehash fuel t = Some t' -> rehashed t t').
Proof.
  induction fuel as [|fuel [IHi IHr]]; [split; discriminate|]. split.
  - intros t k v r Hwf Hc H.
    pose proof (wf_count _ _ Hwf) as Hcount.
    rewrite insert_unfold in H by lia. unfold ac.check_load in H.
    pose proof (insert_mutation_wf t k v Hwf Hc) as Hwf1.
    pose proof (insert_mutation_load_factor t k v) as Hlf1.
    pose proof (fun k' => insert_mutation_lookup t k v k' Hwf) as Hlk1.
    pose proof (insert_mutation_fst t k v) as Hb1.
    pose proof (insert_mutation_count t k v) as Hc1.
    destruct (insert_mutation t k v) as [b t1]. simpl in *.
    destruct (load_exceeded t1).
    + destruct (rehash fuel t1) as [t2|] eqn:Hr; [|discriminate].
      inversion H; subst r. destruct (IHr _ _ Hwf1 Hr) as (Hwf2 & Hlf2 & Hp).
      unfold ac.inserted. simpl. split_and!; trivial.
      * congruence.
      * intros k'. rewrite <- Hlk1. now apply lookup_Permutation.
      * rewrite <- Hc1. now apply count_Permutation.
    + inversion H; subst r. unfold ac.inserted. simpl. split_and!; trivial.
  - intros t t' Hwf H. simpl in H.
    destruct (find_next_prime fuel _) as [p|] eqn:Hp; [|discriminate].
    pose proof (find_next_prime_range _ _ _ (wrap_range _) Hp) as Hrange.
    pose proof (wf_count _ _ Hwf) as Hcount.
    pose proof (wf_count_range _ _ Hwf) as Hcr.
    assert (Hroom : m_count (fresh p (m_load_factor t) : HashTbl)
                    + Z.of_nat (length (concat (m_table t))) < modulus).
    { change (0 + Z.of_nat (length (entries t)) < modulus). lia. }
    destruct (insert_each_post (insert fuel) IHi _ _ _
                (fresh_wf p (m_load_factor t) Hrange) Hroom H)
      as (Hwf' & Hlf' & Hlk' & _).
    unfold ac.rehashed. split_and!; trivial.
    apply NoDup_Permutation; try now apply wf_NoDup_entries.
    intros [k v]. rewrite <- (lookup_entries t' k v Hwf').
    rewrite Hlk', fresh_lookup.
    rewrite <- (last_data_elem k v (entries t) (wf_NoDup_keys t Hwf)).
    unfold entries. now destruct (last_data k (concat (m_table t))).
Qed.

Lemma insert_post fuel t k v r :
  wf t -> m_count t + 1 < modulus -> insert fuel t k v = Some r -> inserted t k v r.
Proof. apply insert_rehash_post. Qed.

Lemma rehash_post fuel t t' : wf t -> rehash fuel t = Some t' -> rehashed t t'.
Proof. apply insert_rehash_post. Qed.

(** *** [retrieve] reads what [lookup] says *)

Lemma retrieve_lookup t k d :
  retrieve t k d = match lookup t k with Some v => (true, v) | None => (false, d) end.
Proof.
  unfold ac.retrieve, ac.lookup. rewrite chain_lookup_find_if.
  destruct (find_if _ _) as [pos|]; [|reflexivity].
  now destruct (_ !! pos).
Qed.

Lemma occurrences_NoDup k (l : list HashEntry) :
  NoDup (m_key <$> l) -> k ∈ m_key <$> l -> occurrences k l = 1%nat.
Proof.
  unfold ac.occurrences.
  induction l as [|e l IH]; simpl; intros Hnd Hin; [inversion Hin|].
  apply NoDup_cons in Hnd as [Hne Hnd].
  destruct (keyEqual k (m_key e)) eqn:He; simpl.
  - apply keyEqual_spec in He. subst k. f_equal.
    clear IH Hin Hnd. induction l as [|e' l IH]; simpl; [reflexivity|].
    rewrite fmap_cons in Hne. apply not_elem_of_cons in Hne as [Hne1 Hne2].
    apply keyEqual_false in Hne1. rewrite Hne1. now apply IH.
  - apply IH; [exact Hnd|].
    apply elem_of_cons in Hin as [->|Hin]; [|exact Hin].
    rewrite keyEqual_refl in He. discriminate.
Qed.

(** ** Termination under a bound that a full table meets *)

Section Returns.

Variable lf : spec_float.
Variables N B : Z.

Hypothesis calm_lf : calm lf B.
Hypothesis ladder_N : ladder N B.
Hypothesis B_range : B < modulus.
Hypothesis N_le_B : N <= B.

(** The tables under consideration. *)
Let regime (t : HashTbl) : Prop :=
  wf t /\ m_load_factor t = lf /\ m_size t <= B.

Lemma load_exceeded_full t :
  regime t -> load_exceeded t = true -> m_size t < m_count t.
Proof.
  intros (Hwf & Hlf & Hs) He.
  destruct (Z.lt_ge_cases (m_size t) (m_count t)) as [Hlt|Hge]; [exact Hlt|].
  pose proof (wf_count _ _ Hwf) as Hc.
  unfold load_exceeded in He. rewrite Hlf in He.
  rewrite calm_lf in He by lia. discriminate.
Qed.

Lemma insert_each_fuel fuel fuel' (l : list HashEntry) t r :
  (fuel <= fuel')%nat ->
  insert_each (insert fuel) l t = Some r -> insert_each (insert fuel') l t = Some r.
Proof.
  intros Hle. apply insert_each_mono. intros t0 k v r0. now apply insert_mono.
Qed.

(** [insert] returns as soon as the [rehash] it may call does. *)
Lemma insert_returns_if t k v :
  regime t -> m_count t + 1 <= N ->
  (forall t1, regime t1 -> m_size t1 = m_size t -> m_count t1 <= m_count t + 1 ->
              m_size t1 < m_count t1 ->
              exists fuel t', rehash fuel t1 = Some t' /\ m_size t1 <= m_size t' <= B) ->
  exists fuel r, insert fuel t k v = Some r /\
                 regime (snd r) /\ m_size t <= m_size (snd r) /\
                 m_count (snd r) <= m_count t + 1.
Proof.
  intros (Hwf & Hlf & Hs) Hc Hre.
  pose proof (wf_count _ _ Hwf) as Hcount.
  assert (Hroom : m_count t + 1 < modulus) by lia.
  pose proof (insert_mutation_wf t k v Hwf Hroom) as Hwf1.
  pose proof (insert_mutation_load_factor t k v) as Hlf1.
  pose proof (insert_mutation_size t k v) as Hs1.
  pose proof (insert_mutation_count t k v) as Hc1.
  assert (Hreg1 : regime (snd (insert_mutation t k v))).
  { split; [exact Hwf1|]. split; [congruence | lia]. }
  destruct (load_exceeded (snd (insert_mutation t k v))) eqn:He.
  - destruct (Hre _ Hreg1 Hs1 ltac:(destruct (fst (insert_mutation t k v)); lia)
                (load_exceeded_full _ Hreg1 He)) as (fuel & t' & Hr & Hs').
    exists (S fuel), (fst (insert_mutation t k v), t').
    assert (Hi : insert (S fuel) t k v = Some (fst (insert_mutation t k v), t')).
    { rewrite insert_unfold by lia. unfold ac.check_load. now rewrite He, Hr. }
    split; [exact Hi|].
    destruct (insert_post _ _ _ _ _ Hwf Hroom Hi) as (Hwf' & Hlf' & _ & _ & Hc').
    simpl in *. split; [|split].
    + split; [exact Hwf'|]. split; [congruence | lia].
    + lia.
    + destruct (fst (insert_mutation t k v)); lia.
  - exists 1%nat, (insert_mutation t k v).
    split; [rewrite insert_unfold by lia; unfold ac.check_load; now rewrite He|].
    split; [exact Hreg1|]. split; [lia|].
    destruct (fst (insert_mutation t k v)); lia.
Qed.

Lemma insert_each_returns_if n (l : list HashEntry) : forall t,
  regime t -> m_count t + Z.of_nat (length l) <= n -> n <= N ->
  (forall t1, regime t1 -> m_size t <= m_size t1 -> m_count t1 <= n ->
              m_size t1 < m_count t1 ->
              exists fuel t', rehash fuel t1 = Some t' /\ m_size t1 <= m_size t' <= B) ->
  exists fuel t', insert_each (insert fuel) l t = Some t' /\
                  regime t' /\ m_size t <= m_size t' /\
                  m_count t' <= m_count t + Z.of_nat (length l).
Proof.
  induction l as [|e l IH]; intros t Hreg Hc Hn Hre.
  - exists O, t. simpl. split_and!; trivial; lia.
  - cbn [length] in Hc. rewrite Nat2Z.inj_succ in Hc.
    destruct (insert_returns_if t (m_key e) (m_data e) Hreg ltac:(lia))
      as (fuel1 & [b t1] & Hi & Hreg1 & Hs1 & Hc1).
    { intros t1 Hreg1 Hs1 Hc1 Hlt. apply Hre; trivial; lia. }
    simpl in Hreg1, Hs1, Hc1.
    destruct (IH t1 Hreg1 ltac:(lia) Hn) as (fuel2 & t' & Hl & Hreg' & Hs' & Hc').
    { intros t2 Hreg2 Hs2 Hc2 Hlt. apply Hre; trivial; lia. }
    exists (Nat.max fuel1 fuel2), t'. split_and!; trivial.
    + cbn [insert_each].
      rewrite (insert_mono fuel1 (Nat.max fuel1 fuel2) _ _ _ _ ltac:(lia) Hi).
      apply (insert_each_fuel fuel2); [lia | exact Hl].
    + lia.
    + cbn [length]. rewrite Nat2Z.inj_succ. lia.
Qed.

(** [rehash] of a table with more entries than buckets: by induction on
    the excess, which every nested [rehash] finds smaller. *)
Lemma rehash_returns (d : nat) : forall t,
  regime t -> m_size t < m_count t <= N ->
  (Z.to_nat (m_count t - m_size t) <= d)%nat ->
  exists fuel t', rehash fuel t = Some t' /\ m_size t <= m_size t' <= B.
Proof.
  induction d as [|d IH]; intros t Hreg Hc Hd; [lia|].
  destruct Hreg as (Hwf & Hlf & Hs).
  pose proof (wf_size _ _ Hwf) as Hsize.
  pose proof (wf_count _ _ Hwf) as Hcount.
  destruct (ladder_N (m_size t) ltac:(lia)) as (fuel1 & p & Hp & Hp2).
  assert (Hw : wrap (2 * m_size t) = 2 * m_size t).
  { apply wrap_small. unfold in_range. lia. }
  assert (Hfresh : regime (fresh p (m_load_factor t))).
  { split; [apply fresh_wf; lia|]. split; [exact Hlf | simpl; lia]. }
  destruct (insert_each_returns_if (m_count t) (entries t)
              (fresh p (m_load_factor t)) Hfresh)
    as (fuel2 & t' & Hl & Hreg' & Hs' & _).
  - simpl. lia.
  - lia.
  - intros t1 Hreg1 Hs1 Hc1 Hlt. simpl in Hs1. apply IH; trivial; lia.
  - exists (S (Nat.max fuel1 fuel2)), t'. split.
    + rewrite rehash_S, Hw.
      rewrite (find_next_prime_mono fuel1 _ _ p) by (lia || assumption).
      apply (insert_each_fuel fuel2); [lia | exact Hl].
    + simpl in Hs'. destruct Hreg' as (_ & _ & Hb). lia.
Qed.

Lemma insert_returns t k v :
  regime t -> m_count t + 1 <= N ->
  exists fuel r, insert fuel t k v = Some r /\ regime (snd r) /\
                 m_count (snd r) <= m_count t + 1.
Proof.
  intros Hreg Hc.
  destruct (insert_returns_if t k v Hreg Hc) as (fuel & r & Hi & Hreg' & _ & Hc').
  - intros t1 Hreg1 Hs1 Hc1 Hlt.
    apply (rehash_returns (Z.to_nat (m_count t1 - m_size t1))); trivial; lia.
  - now exists fuel, r.
Qed.

Lemma insert_each_returns (l : list HashEntry) t :
  regime t -> m_count t + Z.of_nat (length l) <= N ->
  exists fuel t', insert_each (insert fuel) l t = Some t'.
Proof.
  intros Hreg Hc.
  destruct (insert_each_returns_if (m_count t + Z.of_nat (length l)) l t Hreg)
    as (fuel & t' & Hl & _); try lia.
  - intros t1 Hreg1 Hs1 Hc1 Hlt.
    apply (rehash_returns (Z.to_nat (m_count t1 - m_size t1))); trivial; lia.
  - now exists fuel, t'.
Qed.

Lemma run_returns ops : forall t,
  regime t -> m_count t + Z.of_nat (length ops) <= N ->
  exists fuel r, run fuel ops t = Some r.
Proof.
  induction ops as [|[k d|k] ops IH]; intros t Hreg Hc;
    cbn [length] in Hc; rewrite ?Nat2Z.inj_succ in Hc.
  - now exists O, ([], t).
  - destruct (insert_returns t k d Hreg ltac:(lia)) as (fuel1 & [b t1] & Hi & Hreg1 & Hc1).
    simpl in Hreg1, Hc1.
    destruct (IH t1 Hreg1 ltac:(lia)) as (fuel2 & [bs t2] & Hr).
    exists (Nat.max fuel1 fuel2), (b :: bs, t2). cbn [ac.run].
    rewrite (insert_mono fuel1 (Nat.max fuel1 fuel2) _ _ _ _ ltac:(lia) Hi).
    now rewrite (run_mono fuel2 (Nat.max fuel1 fuel2) _ _ _ ltac:(lia) Hr).
  - destruct Hreg as (Hwf & Hlf & Hs).
    destruct (erase_wf_count t k Hwf) as [Hwf1 Hc1].
    pose proof (erase_load_factor t k) as Hlf1.
    pose proof (erase_size t k) as Hs1.
    destruct (erase t k) as [b t1] eqn:He. simpl in *.
    destruct (IH t1) as (fuel & [bs t2] & Hr).
    { split; [exact Hwf1|]. split; [congruence | lia]. }
    { destruct b; lia. }
    exists fuel, (b :: bs, t2). cbn [ac.run]. now rewrite He, Hr.
Qed.

(** *** One [rehash] is enough under such a bound *)

Lemma insert_keeps_size fuel t k v r :
  regime t -> m_count t + 1 <= m_size t ->
  insert fuel t k v = Some r -> m_size (snd r) = m_size t.
Proof.
  intros (Hwf & Hlf & Hs) Hc H.
  pose proof (wf_count _ _ Hwf) as Hcount.
  destruct fuel as [|fuel]; [discriminate|].
  rewrite insert_unfold in H by lia. unfold ac.check_load in H.
  pose proof (insert_mutation_load_factor t k v) as Hlf1.
  pose proof (insert_mutation_size t k v) as Hs1.
  pose proof (insert_mutation_count t k v) as Hc1.
  unfold load_exceeded in H. rewrite Hlf1, Hlf, calm_lf in H.
  - inversion H; subst r. exact Hs1.
  - destruct (fst (insert_mutation t k v)); lia.
  - lia.
Qed.

Lemma insert_each_keeps_size fuel (l : list HashEntry) : forall t t',
  regime t -> m_count t + Z.of_nat (length l) <= m_size t ->
  insert_each (insert fuel) l t = Some t' -> m_size t' = m_size t.
Proof.
  induction l as [|e l IH]; intros t t' Hreg Hc H; cbn [insert_each] in H.
  - now inversion H.
  - cbn [length] in Hc. rewrite Nat2Z.inj_succ in Hc.
    destruct (insert fuel t (m_key e) (m_data e)) as [[b t1]|] eqn:Hi; [|discriminate].
    pose proof (insert_keeps_size _ _ _ _ _ Hreg ltac:(lia) Hi) as Hs1.
    destruct Hreg as (Hwf & Hlf & Hs).
    destruct (insert_post _ _ _ _ _ Hwf ltac:(lia) Hi) as (Hwf1 & Hlf1 & _ & _ & Hc1).
    simpl in *. rewrite <- Hs1. apply IH; [|destruct b; lia|exact H].
    split; [exact Hwf1|]. split; [congruence | lia].
Qed.

Lemma rehash_size fuel fuel' t t' p :
  regime t ->
  find_next_prime fuel' (2 * m_size t) = Some p -> 2 * m_size t <= p <= B ->
  m_count t <= p ->
  rehash fuel t = Some t' -> m_size t' = p.
Proof.
  intros (Hwf & Hlf & Hs) Hp Hp2 Hc H.
  pose proof (wf_size _ _ Hwf) as Hsize.
  pose proof (wf_count _ _ Hwf) as Hcount.
  destruct fuel as [|fuel]; [discriminate|]. rewrite rehash_S in H.
  rewrite wrap_small in H by (unfold in_range; lia).
  destruct (find_next_prime fuel (2 * m_size t)) as [p0|] eqn:Hp0; [|discriminate].
  assert (p0 = p) as ->.
  { pose proof (find_next_prime_mono fuel (Nat.max fuel fuel') _ _
                  (Nat.le_max_l _ _) Hp0) as H1.
    pose proof (find_next_prime_mono fuel' (Nat.max fuel fuel') _ _
                  (Nat.le_max_r _ _) Hp) as H2.
    congruence. }
  apply insert_each_keeps_size in H; [exact H| |].
  - split; [apply fresh_wf; lia|]. split; [exact Hlf | simpl; lia].
  - simpl. unfold entries in Hcount. lia.
Qed.

(** When an [insert] exceeds a bound that a full table meets, the table
    it returns has [find_next_prime(2 * m_size)] buckets, the same entries
    and the same count as after the mutation. *)
Lemma insert_grows_to_next_prime fuel fuel' t k v b t' p :
  regime t ->
  load_exceeded (snd (insert_mutation t k v)) = true ->
  find_next_prime fuel' (2 * m_size t) = Some p -> 2 * m_size t <= p <= B ->
  m_count t + 1 <= p ->
  insert fuel t k v = Some (b, t') ->
  m_size t' = p /\
  size t' = m_count t + (if b then 1 else 0) /\
  (forall k' d, retrieve t' k' d
                = if keyEqual k' k then (true, v) else retrieve t k' d).
Proof.
  intros (Hwf & Hlf & Hs) He Hp Hp2 Hc H.
  pose proof (wf_count _ _ Hwf) as Hcount.
  assert (Hroom : m_count t + 1 < modulus) by lia.
  destruct (insert_post _ _ _ _ _ Hwf Hroom H) as (_ & _ & Hlk & _ & Hc').
  simpl in Hlk, Hc'. split_and!.
  - destruct fuel as [|fuel]; [discriminate|].
    rewrite insert_unfold in H by lia. unfold ac.check_load in H. rewrite He in H.
    destruct (rehash fuel _) as [t2|] eqn:Hr; [|discriminate]. inversion H; subst t2.
    pose proof (insert_mutation_count t k v) as Hc1.
    apply (rehash_size fuel fuel' (snd (insert_mutation t k v))); trivial.
    + split; [now apply insert_mutation_wf|].
      rewrite insert_mutation_load_factor, insert_mutation_size. now split.
    + now rewrite insert_mutation_size.
    + now rewrite insert_mutation_size.
    + destruct (fst (insert_mutation t k v)); lia.
  - exact Hc'.
  - intros k' d. rewrite !retrieve_lookup, Hlk. now destruct (keyEqual k' k).
Qed.

End Returns.

(** ** The operations, one by one *)

Lemma insert_mutation_other t k v i :
  i <> index_of t k -> bucket (snd (insert_mutation t k v)) i = bucket t i.
Proof.
  intros Hne. unfold ac.insert_mutation, bucket.
  destruct (find_if _ _); simpl; now rewrite list_lookup_insert_ne by congruence.
Qed.

Lemma bucket_insert (t : HashTbl) sz c lf i chain :
  (i < length (m_table t))%nat ->
  bucket {| m_size := sz; m_count := c; m_load_factor := lf;
            m_table := <[i := chain]> (m_table t) |} i = chain.
Proof. intros Hi. unfold bucket. simpl. now rewrite list_lookup_insert_eq. Qed.

(** C3. [insert(k, v)] is a mutation followed by the load-factor check, in
    every branch. When no entry of the chain of [k] has the key, the
    mutation puts a new entry at the front of that chain, adds one to the
    count and the call returns [true]. When one has, the mutation replaces
    the data of that entry where it stands, leaves the count alone and the
    call returns [false]. Either way the count and the number of buckets
    the mutation left are then converted to [float] and divided, and
    [rehash] runs on the mutated table exactly when the quotient is
    greater than [m_load_factor]; the call returns what the mutation
    answered, with the table [rehash] left or, without a rehash, the
    mutated table. No other chain is touched by the mutation. *)
Theorem insert_branches fuel t k v :
  wf t -> m_count t + 1 < modulus ->
  let index := index_of t k in
  let r := insert_mutation t k v in
  insert (S fuel) t k v
  = (if Float32.gt (Float32.div (Float32.of_size (m_count (snd r)))
                                (Float32.of_size (m_size (snd r))))
                   (m_load_factor (snd r))
     then match rehash fuel (snd r) with
          | Some t' => Some (fst r, t')
          | None => None
          end
     else Some r) /\
  (lookup t k = None ->
     fst r = true /\
     bucket (snd r) index = {| m_key := k; m_data := v |} :: bucket t index /\
     m_count (snd r) = m_count t + 1) /\
  (forall d, lookup t k = Some d ->
     fst r = false /\
     m_count (snd r) = m_count t /\
     exists pos, bucket t index !! pos = Some {| m_key := k; m_data := d |} /\
                 bucket (snd r) index
                 = <[pos := {| m_key := k; m_data := v |}]> (bucket t index)) /\
  (forall i, i <> index -> bucket (snd r) i = bucket t i) /\
  m_size (snd r) = m_size t /\ m_load_factor (snd r) = m_load_factor t.
Proof.
  intros Hwf Hc index r.
  pose proof (wf_count _ _ Hwf) as Hcount.
  pose proof (index_of_lt t k Hwf) as Hidx.
  split_and!.
  - rewrite insert_unfold by lia. reflexivity.
  - intros Hl. subst r index. unfold ac.lookup in Hl.
    rewrite chain_lookup_find_if in Hl. unfold ac.insert_mutation.
    destruct (find_if _ _) as [pos|] eqn:Hf.
    + destruct (find_if_Some _ _ _ Hf) as (e & He & _). rewrite He in Hl. discriminate.
    + simpl. split_and!; trivial. now apply bucket_insert.
  - intros d Hl. subst r index. unfold ac.lookup in Hl.
    rewrite chain_lookup_find_if in Hl. unfold ac.insert_mutation.
    destruct (find_if _ _) as [pos|] eqn:Hf; [|discriminate].
    destruct (find_if_Some _ _ _ Hf) as (e & He & Hp & _). rewrite He in Hl.
    simpl in Hl. injection Hl as <-. apply keyEqual_spec in Hp.
    simpl. split_and!; trivial. exists pos. split.
    + rewrite He. destruct e. simpl in Hp. now subst.
    + rewrite bucket_insert by exact Hidx.
      now apply alter_overwrite with (e := e).
  - intros i Hi. now apply insert_mutation_other.
  - apply insert_mutation_size.
  - apply insert_mutation_load_factor.
Qed.

(** *** References *)

Lemma assign_at t k pos d :
  find_if (fun e => keyEqual k (m_key e)) (bucket t (index_of t k)) = Some pos ->
  assign t {| ref_index := index_of t k; ref_pos := pos |} d
  = snd (insert_mutation t k d).
Proof.
  intros Hf. unfold assign, ac.insert_mutation. simpl. rewrite Hf.
  destruct (find_if_Some _ _ _ Hf) as (e & He & Hp & _). rewrite He.
  apply keyEqual_spec in Hp. unfold set_bucket. simpl. f_equal. f_equal.
  symmetry. now apply alter_overwrite with (e := e).
Qed.

(** C8. [at(key)] leaves the table as it found it. When the table holds
    an entry [(key, v)], it returns a reference through which [v] is read
    and through which a write is seen by [retrieve], other keys keeping
    what they had. When the table holds no entry with that key, as is the
    case for every key of a newly allocated table, it throws
    [std::out_of_range]. *)
Theorem at_reference t k :
  wf t ->
  snd (at_ t k) = t /\
  (forall v, {| m_key := k; m_data := v |} ∈ entries t ->
     exists r, fst (at_ t k) = inr r /\
               deref t r = Some v /\
               forall d k' d0,
                 retrieve (assign t r d) k' d0
                 = if keyEqual k' k then (true, d) else retrieve t k' d0) /\
  (k ∉ m_key <$> entries t -> fst (at_ t k) = inl out_of_range) /\
  (forall sz lf, fst (at_ (fresh sz lf) k) = inl out_of_range).
Proof.
  intros Hwf. split_and!.
  - unfold ac.at_. now destruct (find_if _ _).
  - intros v Hin. apply lookup_entries in Hin; [|exact Hwf].
    unfold ac.lookup in Hin. rewrite chain_lookup_find_if in Hin.
    unfold ac.at_. destruct (find_if _ _) as [pos|] eqn:Hf; [|discriminate].
    eexists. split; [reflexivity|]. split.
    + unfold deref. simpl. destruct (_ !! pos) as [e|]; [|discriminate].
      simpl in Hin. congruence.
    + intros d k' d0. rewrite (assign_at _ _ _ _ Hf), !retrieve_lookup.
      rewrite insert_mutation_lookup by exact Hwf.
      now destruct (keyEqual k' k).
  - intros Hnin. apply lookup_None in Hnin; [|exact Hwf].
    unfold ac.lookup in Hnin. rewrite chain_lookup_find_if in Hnin.
    unfold ac.at_. destruct (find_if _ _) as [pos|] eqn:Hf; [|reflexivity].
    destruct (find_if_Some _ _ _ Hf) as (e & He & _). rewrite He in Hnin.
    discriminate.
  - intros sz lf. pose proof (fresh_lookup sz lf k) as Hl.
    unfold ac.lookup in Hl. rewrite chain_lookup_find_if in Hl.
    unfold ac.at_. destruct (find_if _ _) as [pos|] eqn:Hf; [|reflexivity].
    destruct (find_if_Some _ _ _ Hf) as (e & He & _). rewrite He in Hl.
    discriminate.
Qed.

(** C9. [count(k)] is [0] when no entry of the chain of [k] has the key
    [k], and the length of that whole chain, entries with other keys
    included, when one has. *)
Theorem count_chain_length t k :
  Z.of_nat (length (bucket t (index_of t k))) < modulus ->
  ((forall e, e ∈ bucket t (index_of t k) -> keyEqual k (m_key e) = false) ->
   count t k = 0) /\
  ((exists e, e ∈ bucket t (index_of t k) /\ keyEqual k (m_key e) = true) ->
   count t k = Z.of_nat (length (bucket t (index_of t k)))).
Proof.
  intros Hlen. unfold ac.count. split.
  - intros Hno. apply find_if_None in Hno. now rewrite Hno.
  - intros (e & He & Hk).
    destruct (find_if _ _) as [pos|] eqn:Hf.
    + apply wrap_small. unfold in_range. lia.
    + rewrite find_if_None in Hf. rewrite (Hf e He) in Hk. discriminate.
Qed.

(** *** [operator[]] when [==] is the configured equality *)

Section IndexAccess.

Variable key_op_eq : KeyType -> KeyType -> bool.
Variable default_data : DataType.

Hypothesis key_op_eq_keyEqual : forall a b, key_op_eq a b = keyEqual a b.

Abbreviation operator_index :=
  (@ac.operator_index KeyType DataType hashFunc keyEqual key_op_eq default_data).

Lemma find_if_ext (p q : HashEntry -> bool) chain :
  (forall e, p e = q e) -> find_if p chain = find_if q chain.
Proof.
  intros Hpq. induction chain as [|e chain IH]; simpl; [reflexivity|].
  now rewrite Hpq, IH.
Qed.

Lemma operator_index_S fuel t k :
  operator_index (S fuel) t k
  = match find_if (fun e => keyEqual k (m_key e)) (bucket t (index_of t k)) with
    | Some pos => Some ({| ref_index := index_of t k; ref_pos := pos |}, t)
    | None =>
        match insert fuel t k default_data with
        | None => None
        | Some (_, t') => operator_index fuel t' k
        end
    end.
Proof.
  cbn [ac.operator_index].
  rewrite (find_if_ext _ (fun e => keyEqual k (m_key e)))
    by (intros e; apply key_op_eq_keyEqual).
  reflexivity.
Qed.

Lemma deref_at t k pos v :
  find_if (fun e => keyEqual k (m_key e)) (bucket t (index_of t k)) = Some pos ->
  lookup t k = Some v ->
  deref t {| ref_index := index_of t k; ref_pos := pos |} = Some v.
Proof.
  intros Hf Hl. unfold ac.lookup in Hl. rewrite chain_lookup_find_if, Hf in Hl.
  unfold deref. simpl. now destruct (_ !! pos).
Qed.

(** With the default equality [operator[]] does what is expected of it: a
    key that is present gives a reference to its data and leaves the table
    alone; a key that is absent is inserted with [DataType{}] by [insert],
    and the reference returned is into the table [insert] left, so that
    what is written through it is what [retrieve] finds. *)
Lemma operator_index_default_equality fuel t k :
  wf t -> m_count t + 1 < modulus ->
  (forall v, lookup t k = Some v ->
     exists r, operator_index (S fuel) t k = Some (r, t) /\ deref t r = Some v) /\
  (lookup t k = None ->
   forall b t', insert fuel t k default_data = Some (b, t') ->
     exists r, operator_index (S (S fuel)) t k = Some (r, t') /\
               deref t' r = Some default_data /\
               forall d k' d0,
                 retrieve (assign t' r d) k' d0
                 = if keyEqual k' k then (true, d) else retrieve t' k' d0).
Proof.
  intros Hwf Hroom. split.
  - intros v Hl. rewrite operator_index_S.
    pose proof Hl as Hl'. unfold ac.lookup in Hl'. rewrite chain_lookup_find_if in Hl'.
    destruct (find_if _ _) as [pos|] eqn:Hf; [|discriminate].
    eexists. split; [reflexivity|]. now apply deref_at.
  - intros Hl b t' Hi. rewrite operator_index_S.
    pose proof Hl as Hl'. unfold ac.lookup in Hl'. rewrite chain_lookup_find_if in Hl'.
    destruct (find_if _ _) as [pos|] eqn:Hf.
    { destruct (find_if_Some _ _ _ Hf) as (e & He & _). rewrite He in Hl'. discriminate. }
    rewrite (insert_mono fuel (S fuel) _ _ _ _ ltac:(lia) Hi).
    destruct (insert_post _ _ _ _ _ Hwf Hroom Hi) as (Hwf' & _ & Hlk & _).
    simpl in Hwf', Hlk. specialize (Hlk k). rewrite keyEqual_refl in Hlk.
    rewrite operator_index_S.
    pose proof Hlk as Hlk'. unfold ac.lookup in Hlk'.
    rewrite chain_lookup_find_if in Hlk'.
    destruct (find_if _ (bucket t' _)) as [pos|] eqn:Hf'; [|discriminate].
    eexists. split; [reflexivity|]. split; [now apply deref_at|].
    intros d k' d0. rewrite (assign_at _ _ _ _ Hf'), !retrieve_lookup.
    rewrite insert_mutation_lookup by exact Hwf'.
    now destruct (keyEqual k' k).
Qed.

End IndexAccess.

(** ** Call sequences *)

Lemma last_data_elem_key k v (l : list HashEntry) :
  last_data k l = Some v -> k ∈ m_key <$> l.
Proof.
  revert v. induction l as [|e l IH]; intros v; simpl; [discriminate|].
  destruct (last_data k l) as [d|].
  - intros _. apply elem_of_cons. right. now apply (IH d).
  - destruct (keyEqual k (m_key e)) eqn:He; [|discriminate].
    apply keyEqual_spec in He. subst k. intros _. apply elem_of_cons. now left.
Qed.

Lemma last_data_of_key k (l : list HashEntry) :
  k ∈ m_key <$> l -> exists v, last_data k l = Some v.
Proof.
  induction l as [|e l IH]; simpl; intros Hin; [inversion Hin|].
  destruct (last_data k l) as [d|] eqn:Hl; [now exists d|].
  apply elem_of_cons in Hin as [->|Hin].
  - rewrite keyEqual_refl. now eexists.
  - destruct (IH Hin) as [v Hv]. discriminate.
Qed.

(** C1. On a well-formed table, every sequence of [insert] calls that
    returns leaves a table in which every key that was inserted is the key
    of exactly one entry, no two entries have the same key, and [retrieve]
    finds for every inserted key the data of the last call that inserted
    it. And the sequence does return whenever a full table meets the bound
    on the load factor and the capacities needed are found. *)
Theorem insert_sequence_unique (calls : list HashEntry) t :
  wf t ->
  m_count t + Z.of_nat (length calls) < modulus ->
  (forall fuel t',
     insert_each (insert fuel) calls t = Some t' ->
     (forall k, k ∈ m_key <$> calls -> occurrences k (entries t') = 1%nat) /\
     NoDup (m_key <$> entries t') /\
     (forall k v d, last_data k calls = Some v -> retrieve t' k d = (true, v))) /\
  (forall N B,
     calm (m_load_factor t) B -> ladder N B -> B < modulus -> N <= B ->
     m_size t <= B -> m_count t + Z.of_nat (length calls) <= N ->
     exists fuel t', insert_each (insert fuel) calls t = Some t').
Proof.
  intros Hwf Hc. split.
  - intros fuel t' H.
    destruct (insert_each_post (insert fuel) (insert_post fuel) calls t t' Hwf Hc H)
      as (Hwf' & _ & Hlk & _).
    split_and!.
    + intros k Hk. apply occurrences_NoDup; [now apply wf_NoDup_keys|].
      destruct (last_data_of_key k calls Hk) as [v Hv].
      specialize (Hlk k). rewrite Hv in Hlk.
      apply lookup_entries in Hlk; [|exact Hwf'].
      apply list_elem_of_fmap. now exists {| m_key := k; m_data := v |}.
    + now apply wf_NoDup_keys.
    + intros k v d Hv. rewrite retrieve_lookup, Hlk, Hv. reflexivity.
  - intros N B Hcalm Hladder HB HN Hs Hn.
    apply (insert_each_returns (m_load_factor t) N B); trivial.
    now split_and!.
Qed.

Lemma run_post fuel ops : forall t results t',
  wf t ->
  m_count t + Z.of_nat (length ops) < modulus ->
  run fuel ops t = Some (results, t') ->
  wf t' /\
  m_count t' = m_count t + fst (successes ops results) - snd (successes ops results).
Proof.
  induction ops as [|[k d|k] ops IH]; intros t results t' Hwf Hc H;
    cbn [length] in Hc; rewrite ?Nat2Z.inj_succ in Hc; cbn [ac.run] in H.
  - inversion H; subst. simpl. split; [exact Hwf | lia].
  - destruct (insert fuel t k d) as [[b t1]|] eqn:Hi; [|discriminate].
    destruct (run fuel ops t1) as [[bs t2]|] eqn:Hr; [|discriminate].
    inversion H; subst results t2.
    destruct (insert_post fuel t k d _ Hwf ltac:(lia) Hi) as (Hwf1 & _ & _ & _ & Hc1).
    simpl in Hwf1, Hc1.
    destruct (IH t1 bs t' Hwf1 ltac:(destruct b; lia) Hr) as [Hwf' Hc'].
    split; [exact Hwf'|]. simpl. destruct (successes ops bs) as [i e].
    simpl in *. destruct b; simpl; lia.
  - destruct (erase_wf_count t k Hwf) as [Hwf1 Hc1].
    destruct (erase t k) as [b t1] eqn:He.
    destruct (run fuel ops t1) as [[bs t2]|] eqn:Hr; [|discriminate].
    inversion H; subst results t2. simpl in Hwf1, Hc1.
    destruct (IH t1 bs t' Hwf1 ltac:(destruct b; lia) Hr) as [Hwf' Hc'].
    split; [exact Hwf'|]. simpl. destruct (successes ops bs) as [i e].
    simpl in *. destruct b; simpl; lia.
Qed.

(** C5. On a well-formed table, after every sequence of [insert] and
    [erase] calls that returns, [size()] is the number of entries in all
    the chains together, and it has grown by the number of [insert] calls
    that returned [true] less the number of [erase] calls that returned
    [true]; started on an empty table, it is that difference. And the
    sequence does return whenever a full table meets the bound on the load
    factor and the capacities needed are found. *)
Theorem size_counts_entries ops t :
  wf t ->
  m_count t + Z.of_nat (length ops) < modulus ->
  (forall fuel results t',
     run fuel ops t = Some (results, t') ->
     size t' = Z.of_nat (length (entries t')) /\
     size t' = size t + fst (successes ops results) - snd (successes ops results) /\
     (entries t = [] ->
      size t' = fst (successes ops results) - snd (successes ops results))) /\
  (forall N B,
     calm (m_load_factor t) B -> ladder N B -> B < modulus -> N <= B ->
     m_size t <= B -> m_count t + Z.of_nat (length ops) <= N ->
     exists fuel r, run fuel ops t = Some r).
Proof.
  intros Hwf Hc. split.
  - intros fuel results t' H.
    destruct (run_post fuel ops t results t' Hwf Hc H) as [Hwf' Hc'].
    unfold size. split_and!.
    + apply (wf_count _ _ Hwf').
    + exact Hc'.
    + intros He. rewrite Hc', (wf_count _ _ Hwf), He. simpl. lia.
  - intros N B Hcalm Hladder HB HN Hs Hn.
    apply (run_returns (m_load_factor t) N B); trivial.
    now split_and!.
Qed.

(** *** Initializer lists *)

Lemma insert_each_last_wins fuel (l : list HashEntry) p lf0 t :
  1 <= p < modulus -> Z.of_nat (length l) < modulus ->
  insert_each (insert fuel) l (fresh p lf0) = Some t ->
  wf t /\
  forall k d, retrieve t k d
              = match last_data k l with Some v => (true, v) | None => (false, d) end.
Proof.
  intros Hp Hl H.
  destruct (insert_each_post (insert fuel) (insert_post fuel) l _ t
              (fresh_wf p lf0 Hp) ltac:(simpl; lia) H) as (Hwf & _ & Hlk & _).
  split; [exact Hwf|]. intros k d.
  rewrite retrieve_lookup, Hlk, fresh_lookup. now destruct (last_data k l).
Qed.

(** The constructor and the assignment from an initializer list leave a
    table in which every key of the list has the data of its last
    occurrence, and nothing else. *)
Lemma HashTbl_ilist_last_wins fuel (ilist : list HashEntry) t :
  Z.of_nat (length ilist) < modulus ->
  HashTbl_ilist hashFunc keyEqual fuel ilist = Some t ->
  wf t /\
  forall k d, retrieve t k d
              = match last_data k ilist with Some v => (true, v) | None => (false, d) end.
Proof.
  intros Hl. unfold HashTbl_ilist, HashTbl_new.
  destruct (find_next_prime fuel DEFAULT_SIZE) as [p|] eqn:Hp; [|discriminate].
  apply insert_each_last_wins; [|exact Hl].
  apply (find_next_prime_range fuel DEFAULT_SIZE); [|exact Hp].
  unfold in_range, DEFAULT_SIZE, modulus. lia.
Qed.

Lemma assign_ilist_last_wins fuel this (ilist : list HashEntry) t :
  Z.of_nat (length ilist) < modulus ->
  assign_ilist hashFunc keyEqual fuel this ilist = Some t ->
  wf t /\
  forall k d, retrieve t k d
              = match last_data k ilist with Some v => (true, v) | None => (false, d) end.
Proof.
  intros Hl. unfold assign_ilist.
  destruct (find_next_prime fuel _) as [p|] eqn:Hp; [|discriminate].
  apply insert_each_last_wins; [|exact Hl].
  apply (find_next_prime_range fuel _ _ (wrap_range _) Hp).
Qed.

(** *** Deciding the two facts about the arithmetic *)

Lemma calm_upto_calm lf0 (b : nat) : calm_upto lf0 b = true -> calm lf0 (Z.of_nat b).
Proof.
  unfold calm_upto, calm. intros H c s Hc Hs.
  rewrite forallb_forall in H.
  specialize (H (Z.to_nat s)). rewrite forallb_forall in H.
  specialize (H ltac:(apply in_seq; lia) (Z.to_nat c) ltac:(apply in_seq; lia)).
  rewrite !Z2Nat.id in H by lia. now apply negb_true_iff in H.
Qed.

Lemma ladder_upto_ladder fuel (n : nat) b :
  ladder_upto fuel n b = true -> ladder (Z.of_nat n) b.
Proof.
  unfold ladder_upto, ladder. intros H s Hs.
  rewrite forallb_forall in H.
  specialize (H (Z.to_nat s) ltac:(apply in_seq; lia)).
  rewrite Z2Nat.id in H by lia.
  destruct (find_next_prime fuel (2 * s)) as [p|] eqn:Hp; [|discriminate].
  apply andb_true_iff in H as [H1 H2]. exists fuel, p. split; [exact Hp|]. lia.
Qed.

End Table.

End HashTblFacts.

(** * A load factor below zero: [insert] never returns *)

Module Divergence.

Import SizeT SizeTFacts Prime PrimeFacts Float32 Float32Facts ac HashTblFacts.

Section NegativeLoadFactor.

Context {KeyType DataType : Type}.
Variable hashFunc : KeyType -> Z.
Variable keyEqual : KeyType -> KeyType -> bool.

Abbreviation HashTbl := (@HashTbl KeyType DataType).
Abbreviation insert := (@insert KeyType DataType hashFunc keyEqual).
Abbreviation rehash := (@rehash KeyType DataType hashFunc keyEqual).

(** One entry is too many for any capacity when the bound is negative. *)
Lemma load_exceeded_negative (t : HashTbl) m e :
  m_load_factor t = S754_finite true m e ->
  m_count t = 1 -> 0 <= m_size t ->
  load_exceeded t = true.
Proof.
  intros Hlf Hc Hs. unfold load_exceeded. rewrite Hlf, Hc.
  apply gt_negative, div_nonneg.
  - apply of_size_nonneg. lia.
  - apply of_size_nonneg, Hs.
  - left. discriminate.
  - intros s. discriminate.
Qed.

Lemma insert_fresh_negative m e (k : KeyType) (v : DataType) fuel :
  forall p, 1 <= p < modulus ->
    insert fuel (fresh p (S754_finite true m e)) k v = None.
Proof.
  induction fuel as [fuel IH] using lt_wf_ind. intros p Hp.
  destruct fuel as [|fuel]; [reflexivity|].
  set (lf := S754_finite true m e) in *.
  set (i := @index_of KeyType DataType hashFunc (fresh p lf) k).
  assert (Hi : (i < Z.to_nat p)%nat).
  { subst i. unfold index_of. simpl.
    pose proof (Z.mod_pos_bound (hashFunc k) p). lia. }
  assert (Hb : bucket (fresh p lf : HashTbl) i = []).
  { unfold bucket. simpl. now rewrite lookup_replicate_2. }
  rewrite (insert_S_empty hashFunc keyEqual) by exact Hb. cbv zeta.
  fold i. rewrite load_exceeded_negative with (m := m) (e := e);
    [|reflexivity|reflexivity|simpl; lia].
  destruct fuel as [|fuel]; [reflexivity|].
  rewrite rehash_S. cbn [m_size m_table m_load_factor set_count set_bucket fresh].
  destruct (find_next_prime fuel (wrap (2 * p))) as [p'|] eqn:Hp'; [|reflexivity].
  pose proof (find_next_prime_range _ _ _ (wrap_range _) Hp') as Hrange.
  rewrite concat_insert_replicate by exact Hi.
  cbn [insert_each m_key m_data].
  fold lf. rewrite (IH fuel ltac:(lia) p' Hrange). reflexivity.
Qed.

End NegativeLoadFactor.

End Divergence.

(** * The claims on concrete tables *)

Module Scenarios.

Import SizeT SizeTFacts Prime PrimeFacts Float32 Float32Facts ac HashTblFacts.

Lemma range_11 : 1 <= 11 < modulus.
Proof. unfold modulus. lia. Qed.

(** *** Growth *)

(** A table asked for capacity 10 gets 11 buckets; eleven distinct keys
    fit without a rehash; the twelfth brings the capacity to 23 and all
    twelve keys are still found with their data. *)
Lemma scenario_growth :
  IntTbl.new 30 10 = Some IntTbl.t0 /\ m_size IntTbl.t0 = 11 /\
  insert_each (IntTbl.insert 30) (IntTbl.first_keys 11) IntTbl.t0 = Some IntTbl.t11 /\
  m_size IntTbl.t11 = 11 /\ size IntTbl.t11 = 11 /\
  load_exceeded IntTbl.t11 = false /\
  IntTbl.insert 30 IntTbl.t11 12 120 = Some (true, IntTbl.t12) /\
  find_next_prime 30 (2 * 11) = Some 23 /\
  m_size IntTbl.t12 = 23 /\ size IntTbl.t12 = 12 /\
  IntTbl.retrieves IntTbl.t12 (IntTbl.first_keys 12) = true.
Proof. split_and!; vm_compute; reflexivity. Qed.

(** C2. A table of capacity 2 whose bound is set to [0.1f]: inserting one
    key exceeds the bound (1/2), [rehash] moves to capacity 5 and
    re-inserts the key with [insert], which finds the bound exceeded again
    (1/5) and rehashes once more. The call returns with capacity 11, where
    [find_next_prime(2 * 2)] is 5. *)
Theorem rehash_nested_capacity :
  (flip set_max_load_factor one_tenth <$> IntTbl.new 30 2) = Some IntTbl.u0 /\
  Float32.div (Float32.of_size 1) (Float32.of_size 10) = one_tenth /\
  m_size IntTbl.u0 = 2 /\
  IntTbl.insert 30 IntTbl.u0 7 70 = Some (true, IntTbl.u1) /\
  find_next_prime 30 (2 * m_size IntTbl.u0) = Some 5 /\
  m_size IntTbl.u1 = 11 /\ size IntTbl.u1 = 1 /\
  IntTbl.retrieve IntTbl.u1 7 0 = (true, 70).
Proof. split_and!; vm_compute; reflexivity. Qed.

(** *** The prime sizer *)

(** C4. [is_prime(1)] is [true] although 1 is not a prime, so that
    [find_next_prime] answers 1 for 0 and for 1, and a table asked for
    capacity 0 or 1 has capacity 1. *)
Theorem is_prime_one :
  (forall fuel, is_prime (S fuel) 1 = Some true) /\
  ~ Z.prime 1 /\
  find_next_prime 3 0 = Some 1 /\
  find_next_prime 3 1 = Some 1 /\
  (m_size <$> IntTbl.new 3 0) = Some 1 /\
  (m_size <$> IntTbl.new 3 1) = Some 1.
Proof.
  split_and!; try reflexivity. apply Z.not_prime_1.
Qed.

(** *** Initializer lists *)

(** C6. The constructor from a list of three entries allocates the default
    11 buckets, where [find_next_prime(3)] is 3; the assignment from the
    same list allocates 3. Both hold the three entries afterwards. *)
Theorem ilist_constructor_capacity :
  let ilist := IntTbl.first_keys 3 in
  find_next_prime 30 (Z.of_nat (length ilist)) = Some 3 /\
  (m_size <$> HashTbl_ilist IntTbl.hash Z.eqb 30 ilist) = Some 11 /\
  (size <$> HashTbl_ilist IntTbl.hash Z.eqb 30 ilist) = Some 3 /\
  (m_size <$> assign_ilist IntTbl.hash Z.eqb 30 (fresh 11 one) ilist) = Some 3 /\
  (size <$> assign_ilist IntTbl.hash Z.eqb 30 (fresh 11 one) ilist) = Some 3.
Proof. split_and!; vm_compute; reflexivity. Qed.

(** *** [operator[]] *)

(** C7. Keys compared by absolute value: the table holds [(5, 50)], which
    [retrieve] finds under the key [-5]. [operator[]] compares with [==],
    misses the entry, inserts [(-5, 0)] over it and returns a reference to
    the new [0]: the stored 50 is gone. *)
Theorem operator_index_ignores_keyEqual :
  AbsTbl.insert 30 (fresh 11 one) 5 50 = Some (true, AbsTbl.with_5) /\
  AbsTbl.retrieve AbsTbl.with_5 (-5) 0 = (true, 50) /\
  AbsTbl.operator_index 30 AbsTbl.with_5 (-5)
  = Some (AbsTbl.indexed_ref, AbsTbl.indexed) /\
  deref AbsTbl.indexed AbsTbl.indexed_ref = Some 0 /\
  AbsTbl.retrieve AbsTbl.indexed 5 1 = (true, 0) /\
  size AbsTbl.indexed = 1.
Proof. split_and!; vm_compute; reflexivity. Qed.

(** *** Termination *)

(** C10. With [max_load_factor(-1.0f)] on a table of 11 buckets,
    [insert(1, 10)] never returns: whatever the capacity, one entry
    exceeds the bound, so every [rehash] re-inserts into a new table and
    rehashes again. No amount of fuel is enough. *)
Theorem insert_negative_load_factor_diverges :
  IntTbl.new 30 10 = Some IntTbl.t0 /\
  forall fuel,
    IntTbl.insert fuel (set_max_load_factor IntTbl.t0 minus_one) 1 10 = None.
Proof.
  split; [vm_compute; reflexivity|]. intros fuel.
  apply (Divergence.insert_fresh_negative IntTbl.hash Z.eqb 8388608 (-23) 1 10 fuel 11).
  exact range_11.
Qed.

(** *** The confirmed claims at work *)

Lemma calls_in_range (t : @HashTbl Z Z) (n : nat) :
  m_count t = 0 -> (n < 1000)%nat -> m_count t + Z.of_nat n < modulus.
Proof. intros -> Hn. unfold modulus. lia. Qed.

Lemma t0_wf : wf IntTbl.hash IntTbl.t0.
Proof. apply fresh_wf, range_11. Qed.

Lemma with_5_reached :
  IntTbl.insert 30 IntTbl.t0 5 50 = Some (true, IntTbl.with_5).
Proof. vm_compute. reflexivity. Qed.

Lemma with_5_wf : wf IntTbl.hash IntTbl.with_5.
Proof.
  assert (Hroom : m_count IntTbl.t0 + 1 < modulus) by (unfold modulus; simpl; lia).
  destruct (insert_post IntTbl.hash Z.eqb Z.eqb_eq 30 IntTbl.t0 5 50 _ t0_wf
              Hroom with_5_reached) as [H _].
  exact H.
Qed.

Lemma t11_wf : wf IntTbl.hash IntTbl.t11.
Proof.
  assert (Hroom : m_count IntTbl.t0 + Z.of_nat (length (IntTbl.first_keys 11)) < modulus)
    by (unfold modulus; simpl; lia).
  assert (Hi : insert_each (IntTbl.insert 30) (IntTbl.first_keys 11) IntTbl.t0
               = Some IntTbl.t11) by (vm_compute; reflexivity).
  destruct (insert_each_post IntTbl.hash Z.eqb (IntTbl.insert 30)
              (insert_post IntTbl.hash Z.eqb Z.eqb_eq 30) (IntTbl.first_keys 11) IntTbl.t0 IntTbl.t11
              t0_wf Hroom Hi) as [H _].
  exact H.
Qed.

Lemma colliding_reached :
  insert_each (IntTbl.insert 30)
              [IntTbl.entry 1 10; IntTbl.entry 12 120; IntTbl.entry 23 230]
              IntTbl.t0 = Some IntTbl.colliding.
Proof. vm_compute. reflexivity. Qed.

(** The default bound [1.0f] is met by every full table of up to 131
    buckets, and every capacity needed for up to 64 entries is found at
    or below 131. *)
Lemma calm_one : calm one 131.
Proof. apply (calm_upto_calm one 131). vm_compute. reflexivity. Qed.

Lemma ladder_64 : ladder 64 131.
Proof. apply (ladder_upto_ladder 150 64 131). vm_compute. reflexivity. Qed.

Lemma insert_sequence_unique_witness :
  (insert_each (IntTbl.insert 30) IntTbl.calls IntTbl.t0 = Some IntTbl.after_calls /\
   m_size IntTbl.after_calls = 23) /\
  ((forall k, k ∈ m_key <$> IntTbl.calls ->
              occurrences Z.eqb k (entries IntTbl.after_calls) = 1%nat) /\
   NoDup (m_key <$> entries IntTbl.after_calls) /\
   (forall k v d, last_data Z.eqb k IntTbl.calls = Some v ->
                  IntTbl.retrieve IntTbl.after_calls k d = (true, v))) /\
  (exists fuel t', insert_each (IntTbl.insert fuel) IntTbl.calls IntTbl.t0 = Some t').
Proof.
  assert (H : insert_each (IntTbl.insert 30) IntTbl.calls IntTbl.t0
              = Some IntTbl.after_calls) by (vm_compute; reflexivity).
  assert (Hroom : m_count IntTbl.t0 + Z.of_nat (length IntTbl.calls) < modulus)
    by (apply calls_in_range; [reflexivity | vm_compute; lia]).
  destruct (insert_sequence_unique IntTbl.hash Z.eqb Z.eqb_eq IntTbl.calls IntTbl.t0
              t0_wf Hroom) as [Hsafe Hreturns].
  split; [split; [exact H | vm_compute; reflexivity]|]. split.
  - exact (Hsafe 30%nat IntTbl.after_calls H).
  - apply (Hreturns 64 131 calm_one ladder_64); vm_compute; congruence.
Defined.

Lemma size_counts_entries_witness :
  (IntTbl.run 30 IntTbl.ops IntTbl.t0 = Some (IntTbl.ops_results, IntTbl.after_ops) /\
   successes IntTbl.ops IntTbl.ops_results = (13, 1)) /\
  (size IntTbl.after_ops = Z.of_nat (length (entries IntTbl.after_ops)) /\
   size IntTbl.after_ops
   = size IntTbl.t0 + fst (successes IntTbl.ops IntTbl.ops_results)
     - snd (successes IntTbl.ops IntTbl.ops_results) /\
   (entries IntTbl.t0 = [] ->
    size IntTbl.after_ops
    = fst (successes IntTbl.ops IntTbl.ops_results)
      - snd (successes IntTbl.ops IntTbl.ops_results))) /\
  (exists fuel r, IntTbl.run fuel IntTbl.ops IntTbl.t0 = Some r).
Proof.
  assert (H : IntTbl.run 30 IntTbl.ops IntTbl.t0
              = Some (IntTbl.ops_results, IntTbl.after_ops)) by (vm_compute; reflexivity).
  assert (Hroom : m_count IntTbl.t0 + Z.of_nat (length IntTbl.ops) < modulus)
    by (apply calls_in_range; [reflexivity | vm_compute; lia]).
  destruct (size_counts_entries IntTbl.hash Z.eqb Z.eqb_eq IntTbl.ops IntTbl.t0
              t0_wf Hroom) as [Hsafe Hreturns].
  split; [split; [exact H | vm_compute; reflexivity]|]. split.
  - exact (Hsafe 30%nat IntTbl.ops_results IntTbl.after_ops H).
  - apply (Hreturns 64 131 calm_one ladder_64); vm_compute; congruence.
Defined.

Lemma insert_branches_witness :
  wf IntTbl.hash IntTbl.with_5 /\
  m_count IntTbl.with_5 + 1 < modulus /\
  (* a new key in the chain of 5 *)
  (let index := index_of IntTbl.hash IntTbl.with_5 16 in
   let r := insert_mutation IntTbl.hash Z.eqb IntTbl.with_5 16 160 in
   fst r = true /\
   bucket (snd r) index = IntTbl.entry 16 160 :: bucket IntTbl.with_5 index /\
   m_count (snd r) = m_count IntTbl.with_5 + 1) /\
  (* the key 5 again *)
  (let index := index_of IntTbl.hash IntTbl.with_5 5 in
   let r := insert_mutation IntTbl.hash Z.eqb IntTbl.with_5 5 51 in
   fst r = false /\
   m_count (snd r) = m_count IntTbl.with_5 /\
   exists pos, bucket IntTbl.with_5 index !! pos = Some (IntTbl.entry 5 50) /\
               bucket (snd r) index
               = <[pos := IntTbl.entry 5 51]> (bucket IntTbl.with_5 index)) /\
  (* the calls themselves: 2/11 and 1/11 are not above 1.0f, no rehash *)
  (Float32.gt (Float32.div (Float32.of_size 2) (Float32.of_size 11)) one = false /\
   IntTbl.insert 1 IntTbl.with_5 16 160 = Some (true, IntTbl.with_5_16) /\
   bucket IntTbl.with_5_16 5 = [IntTbl.entry 16 160; IntTbl.entry 5 50] /\
   size IntTbl.with_5_16 = 2 /\ m_size IntTbl.with_5_16 = 11) /\
  (Float32.gt (Float32.div (Float32.of_size 1) (Float32.of_size 11)) one = false /\
   IntTbl.insert 1 IntTbl.with_5 5 51 = Some (false, IntTbl.with_5_51) /\
   bucket IntTbl.with_5_51 5 = [IntTbl.entry 5 51] /\
   size IntTbl.with_5_51 = 1 /\ m_size IntTbl.with_5_51 = 11) /\
  (* a new key that brings the load to 12/11, above 1.0f: rehash *)
  (wf IntTbl.hash IntTbl.t11 /\
   m_size IntTbl.t11 = 11 /\ size IntTbl.t11 = 11 /\
   Float32.gt (Float32.div (Float32.of_size 12) (Float32.of_size 11)) one = true /\
   IntTbl.insert 30 IntTbl.t11 12 120 = Some (true, IntTbl.t12) /\
   m_size IntTbl.t12 = 23 /\ size IntTbl.t12 = 12 /\
   IntTbl.retrieve IntTbl.t12 12 0 = (true, 120)) /\
  (* a key that is there, overwritten while the load 11/11 is above the
     bound 0.5f: the count stays at 11 and the check still runs: rehash *)
  (wf IntTbl.hash IntTbl.t11_half /\
   Float32.div (Float32.of_size 1) (Float32.of_size 2) = IntTbl.half /\
   m_size IntTbl.t11_half = 11 /\ size IntTbl.t11_half = 11 /\
   IntTbl.retrieve IntTbl.t11_half 1 0 = (true, 10) /\
   Float32.gt (Float32.div (Float32.of_size 11) (Float32.of_size 11)) IntTbl.half = true /\
   IntTbl.insert 30 IntTbl.t11_half 1 11 = Some (false, IntTbl.t11_half_1) /\
   m_size IntTbl.t11_half_1 = 23 /\ size IntTbl.t11_half_1 = 11 /\
   IntTbl.retrieve IntTbl.t11_half_1 1 0 = (true, 11)).
Proof.
  assert (Hc : m_count IntTbl.with_5 + 1 < modulus) by (unfold modulus; simpl; lia).
  assert (Hc11 : m_count IntTbl.t11 + 1 < modulus) by (vm_compute; reflexivity).
  assert (Hwf11h : wf IntTbl.hash IntTbl.t11_half)
    by (apply set_max_load_factor_wf; exact t11_wf).
  destruct (insert_branches IntTbl.hash Z.eqb Z.eqb_eq 0 IntTbl.with_5 16 160
              with_5_wf Hc) as (Hi16 & Hnew & _).
  destruct (insert_branches IntTbl.hash Z.eqb Z.eqb_eq 0 IntTbl.with_5 5 51
              with_5_wf Hc) as (Hi5 & _ & Hold & _).
  destruct (insert_branches IntTbl.hash Z.eqb Z.eqb_eq 29 IntTbl.t11 12 120
              t11_wf Hc11) as (Hi12 & _).
  destruct (insert_branches IntTbl.hash Z.eqb Z.eqb_eq 29 IntTbl.t11_half 1 11
              Hwf11h Hc11) as (Hi1 & _).
  split; [exact with_5_wf|]. split; [exact Hc|].
  split; [exact (Hnew eq_refl)|].
  split; [exact (Hold 50 eq_refl)|].
  split.
  { split; [vm_compute; reflexivity|]. split.
    - rewrite Hi16. vm_compute. reflexivity.
    - split_and!; reflexivity. }
  split.
  { split; [vm_compute; reflexivity|]. split.
    - rewrite Hi5. vm_compute. reflexivity.
    - split_and!; reflexivity. }
  split.
  { split; [exact t11_wf|]. split; [reflexivity|]. split; [reflexivity|].
    split; [vm_compute; reflexivity|]. split.
    - rewrite Hi12. vm_compute. reflexivity.
    - split_and!; reflexivity. }
  split; [exact Hwf11h|]. split; [vm_compute; reflexivity|].
  split; [reflexivity|]. split; [reflexivity|]. split; [reflexivity|].
  split; [vm_compute; reflexivity|]. split.
  - rewrite Hi1. vm_compute. reflexivity.
  - split_and!; reflexivity.
Defined.

Lemma at_reference_witness :
  wf IntTbl.hash IntTbl.with_5 /\
  snd (at_ IntTbl.hash Z.eqb IntTbl.with_5 5) = IntTbl.with_5 /\
  (exists r, fst (at_ IntTbl.hash Z.eqb IntTbl.with_5 5) = inr r /\
             deref IntTbl.with_5 r = Some 50 /\
             forall d k' d0,
               IntTbl.retrieve (assign IntTbl.with_5 r d) k' d0
               = if k' =? 5 then (true, d) else IntTbl.retrieve IntTbl.with_5 k' d0) /\
  fst (at_ IntTbl.hash Z.eqb IntTbl.with_5 6) = inl out_of_range.
Proof.
  split; [exact with_5_wf|].
  destruct (at_reference IntTbl.hash Z.eqb Z.eqb_eq IntTbl.with_5 5 with_5_wf)
    as (Hsame & Hfound & _ & _).
  destruct (at_reference IntTbl.hash Z.eqb Z.eqb_eq IntTbl.with_5 6 with_5_wf)
    as (_ & _ & Hmissing & _).
  split; [exact Hsame|]. split.
  - apply Hfound. vm_compute. apply elem_of_cons. now left.
  - apply Hmissing. vm_compute. intros H. apply elem_of_cons in H as [H|H].
    + discriminate H.
    + inversion H.
Defined.

Lemma count_chain_length_witness :
  Z.of_nat (length (bucket IntTbl.colliding (index_of IntTbl.hash IntTbl.colliding 12)))
  < modulus /\
  count IntTbl.hash Z.eqb IntTbl.colliding 12 = 3 /\
  count IntTbl.hash Z.eqb IntTbl.colliding 34 = 0.
Proof.
  assert (H12 : Z.of_nat (length (bucket IntTbl.colliding
                   (index_of IntTbl.hash IntTbl.colliding 12))) < modulus)
    by (vm_compute; reflexivity).
  assert (H34 : Z.of_nat (length (bucket IntTbl.colliding
                   (index_of IntTbl.hash IntTbl.colliding 34))) < modulus)
    by (vm_compute; reflexivity).
  split; [exact H12|]. split.
  - apply (count_chain_length IntTbl.hash Z.eqb IntTbl.colliding 12 H12).
    exists (IntTbl.entry 12 120). split; [|reflexivity].
    vm_compute. apply elem_of_cons. right. apply elem_of_cons. now left.
  - apply (count_chain_length IntTbl.hash Z.eqb IntTbl.colliding 34 H34).
    intros e He. vm_compute in He.
    repeat (apply elem_of_cons in He as [->|He]; [reflexivity|]).
    inversion He.
Defined.

End Scenarios.

(** * Further properties of the operations *)

Module Coverage.

Import SizeT SizeTFacts Prime PrimeFacts Float32 Float32Facts ac HashTblFacts.

Section Operations.

Context {KeyType DataType : Type}.
Variable hashFunc : KeyType -> Z.
Variable keyEqual : KeyType -> KeyType -> bool.

(** [KeyEqual] decides equality of keys, as [std::equal_to] does. *)
Hypothesis keyEqual_spec : forall a b, keyEqual a b = true <-> a = b.

Abbreviation HashEntry := (@HashEntry KeyType DataType).
Abbreviation HashTbl := (@HashTbl KeyType DataType).
Abbreviation index_of := (@index_of KeyType DataType hashFunc).
Abbreviation insert := (@insert KeyType DataType hashFunc keyEqual).
Abbreviation rehash := (@rehash KeyType DataType hashFunc keyEqual).
Abbreviation erase := (@erase KeyType DataType hashFunc keyEqual).
Abbreviation retrieve := (@retrieve KeyType DataType hashFunc keyEqual).
Abbreviation count := (@count KeyType DataType hashFunc keyEqual).
Abbreviation lookup := (@lookup KeyType DataType hashFunc keyEqual).
Abbreviation wf := (@wf KeyType DataType hashFunc).

Implicit Types (t : HashTbl) (chain : list HashEntry) (e : HashEntry).

Lemma retrieve_as_lookup t k d :
  retrieve t k d = match lookup t k with Some v => (true, v) | None => (false, d) end.
Proof. apply retrieve_lookup. Qed.

Lemma keyEqual_neq a b : a <> b -> keyEqual a b = false.
Proof. intros H. now apply (keyEqual_false keyEqual keyEqual_spec). Qed.

(** X1. What [insert] stores, [retrieve] finds: after [insert(k, v)] has
    returned, with or without a rehash, [retrieve(k)] gives [v], every
    other key is retrieved as before, the call returned [true] exactly
    when the key was not there, and [size()] grew by one in that case
    only. *)
Theorem insert_then_retrieve fuel t k v b t' :
  wf t -> m_count t + 1 < modulus ->
  insert fuel t k v = Some (b, t') ->
  (forall d, retrieve t' k d = (true, v)) /\
  (forall k' d, k' <> k -> retrieve t' k' d = retrieve t k' d) /\
  b = negb (fst (retrieve t k v)) /\
  size t' = size t + (if b then 1 else 0) /\
  m_load_factor t' = m_load_factor t /\
  wf t'.
Proof.
  intros Hwf Hroom H.
  destruct (insert_post hashFunc keyEqual keyEqual_spec _ _ _ _ _ Hwf Hroom H)
    as (Hwf' & Hlf & Hlk & Hb & Hc). simpl in *.
  split_and!; trivial.
  - intros d. rewrite retrieve_as_lookup, Hlk.
    now rewrite (keyEqual_refl keyEqual keyEqual_spec).
  - intros k' d Hne. rewrite !retrieve_as_lookup, Hlk. now rewrite keyEqual_neq.
  - rewrite retrieve_as_lookup. destruct (lookup t k) as [v0|] eqn:Hl; simpl.
    + destruct b; [|reflexivity]. destruct Hb as [Hb _]. now specialize (Hb eq_refl).
    + now apply Hb.
Qed.

(** X2. [retrieve] answers by the entries of the table: a key that some
    entry carries is found with the data of that entry; a key that no
    entry carries is not found, and the output parameter keeps the value
    it had. *)
Theorem retrieve_by_entries t k :
  wf t ->
  (forall v d, {| m_key := k; m_data := v |} ∈ entries t -> retrieve t k d = (true, v)) /\
  (k ∉ m_key <$> entries t -> forall d, retrieve t k d = (false, d)).
Proof.
  intros Hwf. split.
  - intros v d Hin. apply (lookup_entries hashFunc keyEqual keyEqual_spec) in Hin; trivial.
    now rewrite retrieve_as_lookup, Hin.
  - intros Hnin d. apply (lookup_None hashFunc keyEqual keyEqual_spec) in Hnin; trivial.
    now rewrite retrieve_as_lookup, Hnin.
Qed.

(** X3. [erase(k)] removes the key and nothing else: afterwards
    [retrieve(k)] fails, every other key is retrieved as before, the
    number of buckets and the bound on the load factor are what they were
    (there is no rehash), the call returned [true] exactly when the key
    could be retrieved, [size()] dropped by one in that case only, and a
    key that was not there leaves the very same table. *)
Theorem erase_removes t k :
  wf t ->
  wf (snd (erase t k)) /\
  (forall d, retrieve (snd (erase t k)) k d = (false, d)) /\
  (forall k' d, k' <> k -> retrieve (snd (erase t k)) k' d = retrieve t k' d) /\
  m_size (snd (erase t k)) = m_size t /\
  m_load_factor (snd (erase t k)) = m_load_factor t /\
  (forall d, fst (erase t k) = fst (retrieve t k d)) /\
  size (snd (erase t k)) = size t - (if fst (erase t k) then 1 else 0) /\
  (fst (erase t k) = false -> snd (erase t k) = t).
Proof.
  intros Hwf.
  destruct (erase_wf_count hashFunc keyEqual keyEqual_spec t k Hwf) as [Hwf' Hc].
  split_and!; trivial.
  - intros d. rewrite retrieve_as_lookup, (erase_lookup hashFunc keyEqual keyEqual_spec) by trivial.
    now rewrite (keyEqual_refl keyEqual keyEqual_spec).
  - intros k' d Hne.
    rewrite !retrieve_as_lookup, (erase_lookup hashFunc keyEqual keyEqual_spec) by trivial.
    now rewrite keyEqual_neq.
  - apply erase_size.
  - apply erase_load_factor.
  - intros d. rewrite retrieve_as_lookup.
    pose proof (erase_fst hashFunc keyEqual t k) as Hf.
    destruct (lookup t k) as [v|]; simpl.
    + apply Hf. discriminate.
    + destruct (fst (erase t k)); [|reflexivity]. now destruct (proj1 Hf eq_refl).
  - unfold ac.erase. now destruct (find_if _ _).
Qed.

(** X4. Erasing a key that has just been inserted, and was not there
    before, undoes the insertion for every reader: both calls return
    [true], and afterwards every key (the erased one too) is retrieved as
    before the insertion, and [size()] is what it was.  The number of
    buckets may have changed, since an insertion can rehash and an erasure
    never shrinks. *)
Theorem insert_then_erase fuel t k v b t' :
  wf t -> m_count t + 1 < modulus ->
  (forall d, retrieve t k d = (false, d)) ->
  insert fuel t k v = Some (b, t') ->
  b = true /\
  fst (erase t' k) = true /\
  (forall k' d, retrieve (snd (erase t' k)) k' d = retrieve t k' d) /\
  size (snd (erase t' k)) = size t /\
  wf (snd (erase t' k)).
Proof.
  intros Hwf Hroom Habs H.
  assert (Hl : lookup t k = None).
  { specialize (Habs v). rewrite retrieve_as_lookup in Habs.
    destruct (lookup t k); [discriminate | reflexivity]. }
  destruct (insert_post hashFunc keyEqual keyEqual_spec _ _ _ _ _ Hwf Hroom H)
    as (Hwf' & Hlf & Hlk & Hb & Hc). simpl in *.
  destruct (erase_wf_count hashFunc keyEqual keyEqual_spec t' k Hwf') as [Hwf'' Hc'].
  assert (Hbt : b = true) by now apply Hb.
  assert (Hft : fst (erase t' k) = true).
  { apply erase_fst. rewrite Hlk, (keyEqual_refl keyEqual keyEqual_spec). discriminate. }
  split_and!; trivial.
  - intros k' d.
    rewrite !retrieve_as_lookup, (erase_lookup hashFunc keyEqual keyEqual_spec) by trivial.
    rewrite Hlk. destruct (keyEqual k' k) eqn:Hk; [|reflexivity].
    apply keyEqual_spec in Hk. subst k'. now rewrite Hl.
  - unfold size. rewrite Hc', Hc, Hft, Hbt. lia.
Qed.

(** X5. [clear()] empties the table and keeps its shape: afterwards
    [size()] is 0, [empty()] holds, no key can be retrieved or counted, and
    the number of buckets and the bound on the load factor are what they
    were. *)
Theorem clear_empties t :
  wf t ->
  wf (clear t) /\
  size (clear t) = 0 /\
  empty (clear t) = true /\
  entries (clear t) = [] /\
  (forall k d, retrieve (clear t) k d = (false, d)) /\
  (forall k, count (clear t) k = 0) /\
  m_size (clear t) = m_size t /\
  m_load_factor (clear t) = m_load_factor t.
Proof.
  intros Hwf. destruct (clear_wf hashFunc t Hwf) as [Hwf' He].
  assert (Hb : forall i, bucket (clear t) i = []).
  { intros i. unfold bucket. simpl. rewrite list_lookup_fmap.
    now destruct (m_table t !! _). }
  split_and!; trivial.
  - intros k d. unfold ac.retrieve. now rewrite Hb.
  - intros k. unfold ac.count. now rewrite Hb.
Qed.

(** X6. [empty()] holds exactly when the table has no entry, which is
    exactly when no key at all can be retrieved. *)
Theorem empty_iff_nothing_retrieved t :
  wf t ->
  (empty t = true <-> entries t = []) /\
  (empty t = true <-> forall k d, retrieve t k d = (false, d)).
Proof.
  intros Hwf. pose proof (wf_count _ _ Hwf) as Hc.
  assert (Hiff : empty t = true <-> entries t = []).
  { unfold empty. rewrite Z.eqb_eq, Hc. destruct (entries t); simpl; split; try easy; lia. }
  split; [exact Hiff|]. rewrite Hiff. split.
  - intros He k d. rewrite retrieve_as_lookup.
    rewrite (proj2 (lookup_None hashFunc keyEqual keyEqual_spec t k Hwf)); [reflexivity|].
    rewrite He. inversion 1.
  - intros Hno. destruct (entries t) as [|[k v] l] eqn:He; [reflexivity|].
    assert (Hin : {| m_key := k; m_data := v |} ∈ entries t) by (rewrite He; constructor).
    apply (lookup_entries hashFunc keyEqual keyEqual_spec) in Hin; trivial.
    specialize (Hno k v). rewrite retrieve_as_lookup, Hin in Hno. discriminate.
Qed.

(** X7. [rehash()] moves the entries and loses none: when it returns, the
    table holds the same entries as before (in some order), so [size()]
    and every [retrieve] are unchanged; the bound on the load factor is
    kept and the table is well formed again. *)
Theorem rehash_keeps_entries fuel t t' :
  wf t -> rehash fuel t = Some t' ->
  wf t' /\
  entries t' ≡ₚ entries t /\
  size t' = size t /\
  m_load_factor t' = m_load_factor t /\
  (forall k d, retrieve t' k d = retrieve t k d).
Proof.
  intros Hwf H.
  destruct (rehash_post hashFunc keyEqual keyEqual_spec _ _ _ Hwf H) as (Hwf' & Hlf & Hp).
  split_and!; trivial.
  - unfold size. symmetry.
    now apply (count_Permutation hashFunc t t').
  - intros k d. rewrite !retrieve_as_lookup.
    now rewrite (lookup_Permutation hashFunc keyEqual keyEqual_spec t' t k).
Qed.

(** X8. How [insert] changes the number of buckets, when a full table
    meets the bound on the load factor (as with the default [1.0f]): the
    number of buckets stays what it was unless the load factor is exceeded
    once the entry is in, and is then [find_next_prime(2 * m_size)]; it
    always stays when there is a free bucket to spare per entry. *)
Theorem insert_capacity lf B fuel fuel' t k v b t' p :
  calm lf B -> B < modulus ->
  wf t -> m_load_factor t = lf -> m_size t <= B -> m_count t <= m_size t ->
  find_next_prime fuel' (2 * m_size t) = Some p -> 2 * m_size t <= p <= B ->
  insert fuel t k v = Some (b, t') ->
  m_size t'
  = (if load_exceeded (snd (insert_mutation hashFunc keyEqual t k v)) then p else m_size t) /\
  (m_count t + 1 <= m_size t -> m_size t' = m_size t).
Proof.
  intros Hcalm HB Hwf Hlf Hs Hc Hp Hp2 H.
  pose proof (wf_size _ _ Hwf) as Hsize.
  pose proof (wf_count _ _ Hwf) as Hcount.
  split.
  - destruct (load_exceeded _) eqn:He.
    + apply (insert_grows_to_next_prime hashFunc keyEqual keyEqual_spec lf B Hcalm HB
               fuel fuel' t k v b t' p); trivial; [now split_and! | lia].
    + destruct fuel as [|fuel]; [discriminate|].
      rewrite (insert_unfold hashFunc keyEqual keyEqual_spec) in H by lia.
      unfold ac.check_load in H. rewrite He in H.
      pose proof (insert_mutation_size hashFunc keyEqual t k v) as Hs1.
      destruct (insert_mutation hashFunc keyEqual t k v) as [b1 t1].
      simpl in *. now inversion H; subst.
  - intros Hfree.
    apply (insert_keeps_size hashFunc keyEqual keyEqual_spec lf B Hcalm HB
             fuel t k v (b, t')); trivial. now split_and!.
Qed.

(** X9. [is_prime] decides primality from 2 up to [2^62]: it returns, and
    whenever it returns it says [true] for the primes and [false] for the
    other numbers. *)
Theorem is_prime_decides n :
  2 <= n < 2 ^ 62 ->
  (exists fuel b, is_prime fuel n = Some b) /\
  (forall fuel b, is_prime fuel n = Some b -> (b = true <-> Z.prime n)).
Proof.
  intros Hn. destruct (is_prime_correct n Hn) as (fuel0 & b0 & H0 & Hb0).
  split; [now exists fuel0, b0|].
  intros fuel b H.
  pose proof (is_prime_mono fuel0 (Nat.max fuel0 fuel) _ _ (Nat.le_max_l _ _) H0) as H1.
  pose proof (is_prime_mono fuel (Nat.max fuel0 fuel) _ _ (Nat.le_max_r _ _) H) as H2.
  assert (b = b0) as -> by congruence. exact Hb0.
Qed.

(** X10. [find_next_prime(n)], from 2 on and with a prime [p >= n] below
    [2^62], returns, and what it returns is the smallest prime that is not
    below [n]: a prime [q] with [n <= q <= p] and no prime from [n] to
    [q - 1].  In particular a prime is returned as it is. *)
Theorem find_next_prime_is_next n p :
  2 <= n <= p -> p < 2 ^ 62 -> Z.prime p ->
  (exists fuel q, find_next_prime fuel n = Some q) /\
  (forall fuel q, find_next_prime fuel n = Some q ->
     Z.prime q /\ n <= q <= p /\ (forall r, n <= r < q -> ~ Z.prime r) /\
     (Z.prime n -> q = n)).
Proof.
  intros Hn Hp Hprime.
  destruct (find_next_prime_smallest p n Hn Hp Hprime) as (fuel0 & q0 & H0 & Hq0 & Hr0 & Hs0).
  split; [now exists fuel0, q0|].
  intros fuel q H.
  pose proof (find_next_prime_mono fuel0 (Nat.max fuel0 fuel) _ _ (Nat.le_max_l _ _) H0) as H1.
  pose proof (find_next_prime_mono fuel (Nat.max fuel0 fuel) _ _ (Nat.le_max_r _ _) H) as H2.
  assert (q = q0) as -> by congruence.
  split_and!; trivial; try lia.
  intros Hpn. destruct (Z.eq_dec q0 n) as [Heq|Hne]; [exact Heq|].
  destruct (Hs0 n ltac:(lia) Hpn).
Qed.

(** X11. [HashTbl(sz)] gives an empty, well-formed table: no key can be
    retrieved, [size()] is 0, the bound on the load factor is [1.0f], and
    there is at least one bucket, never the zero buckets that would make
    [hash % m_size] undefined.  From 2 on, and with a prime at hand below
    [2^62], the constructor returns, and the number of buckets is the
    smallest prime that is not below [sz]. *)
Theorem constructor_state sz :
  in_range sz ->
  (forall fuel t,
     HashTbl_new fuel sz = Some t ->
     wf t /\ size t = 0 /\ empty t = true /\ entries t = [] /\
     (forall k d, retrieve t k d = (false, d)) /\
     m_load_factor t = one /\ 1 <= m_size t) /\
  (forall p, 2 <= sz <= p -> p < 2 ^ 62 -> Z.prime p ->
     (exists fuel t, HashTbl_new (KeyType := KeyType) (DataType := DataType) fuel sz = Some t) /\
     (forall fuel t,
        HashTbl_new fuel sz = Some t ->
        Z.prime (m_size t) /\ sz <= m_size t <= p /\
        forall r, sz <= r < m_size t -> ~ Z.prime r)).
Proof.
  intros Hsz. split.
  - intros fuel t H. pose proof (HashTbl_new_wf hashFunc fuel sz t Hsz H) as Hwf.
    unfold HashTbl_new in H.
    destruct (find_next_prime fuel sz) as [q|] eqn:Hq; [|discriminate].
    inversion H; subst t. clear H.
    split_and!; trivial.
    + unfold entries. simpl. apply concat_replicate_nil.
    + intros k d. rewrite retrieve_as_lookup. now rewrite fresh_lookup.
    + simpl. pose proof (find_next_prime_range _ _ _ Hsz Hq). lia.
  - intros p Hn Hp Hprime.
    destruct (find_next_prime_smallest p sz Hn Hp Hprime) as (fuel0 & q0 & H0 & Hq0 & Hr0 & Hs0).
    split.
    + exists fuel0, (fresh q0 one). unfold HashTbl_new. now rewrite H0.
    + intros fuel t H. unfold HashTbl_new in H.
      destruct (find_next_prime fuel sz) as [q|] eqn:Hq; [|discriminate].
      inversion H; subst t. clear H. simpl.
      pose proof (find_next_prime_mono fuel0 (Nat.max fuel0 fuel) _ _ (Nat.le_max_l _ _) H0) as H1.
      pose proof (find_next_prime_mono fuel (Nat.max fuel0 fuel) _ _ (Nat.le_max_r _ _) Hq) as H2.
      assert (q = q0) as -> by congruence. now split_and!.
Qed.

(** X12. The constructor from an initializer list leaves a well-formed
    table in which every key of the list is retrieved with the data of its
    last occurrence in the list, no other key is retrieved, [size()] does
    not exceed the length of the list, and the bound on the load factor is
    [1.0f]. *)
Theorem ilist_constructor_contents fuel (ilist : list HashEntry) t :
  Z.of_nat (length ilist) < modulus ->
  HashTbl_ilist hashFunc keyEqual fuel ilist = Some t ->
  wf t /\
  (forall k d, retrieve t k d
               = match last_data keyEqual k ilist with
                 | Some v => (true, v)
                 | None => (false, d)
                 end) /\
  0 <= size t <= Z.of_nat (length ilist) /\
  m_load_factor t = one.
Proof.
  intros Hl H.
  destruct (HashTbl_ilist_last_wins hashFunc keyEqual keyEqual_spec fuel ilist t Hl H)
    as [Hwf Hr].
  unfold HashTbl_ilist, HashTbl_new in H.
  destruct (find_next_prime fuel DEFAULT_SIZE) as [q|] eqn:Hq; [|discriminate].
  assert (Hq' : 1 <= q < modulus).
  { apply (find_next_prime_range fuel DEFAULT_SIZE); [|exact Hq].
    unfold in_range, DEFAULT_SIZE, modulus. lia. }
  destruct (insert_each_post hashFunc keyEqual (insert fuel)
              (insert_post hashFunc keyEqual keyEqual_spec fuel) ilist _ t
              (fresh_wf hashFunc q one Hq') ltac:(simpl; lia) H) as (_ & Hlf & _ & Hc).
  simpl in Hlf, Hc. split_and!; trivial; unfold size; lia.
Qed.

(** X13. The assignment from an initializer list forgets what the table
    held: whatever [this] was, the table left is well formed, retrieves
    every key of the list with the data of its last occurrence and no
    other key, and has the bound [1.0f] on the load factor.  The number of
    buckets is [find_next_prime] of the length of the list, and no rehash
    changes it, when a full table meets that bound. *)
Theorem ilist_assignment_contents fuel this (ilist : list HashEntry) t :
  Z.of_nat (length ilist) < modulus ->
  assign_ilist hashFunc keyEqual fuel this ilist = Some t ->
  wf t /\
  (forall k d, retrieve t k d
               = match last_data keyEqual k ilist with
                 | Some v => (true, v)
                 | None => (false, d)
                 end) /\
  0 <= size t <= Z.of_nat (length ilist) /\
  m_load_factor t = one /\
  (forall B p, calm one B -> B < modulus ->
     find_next_prime fuel (Z.of_nat (length ilist)) = Some p ->
     Z.of_nat (length ilist) <= p <= B ->
     m_size t = p).
Proof.
  intros Hl H.
  destruct (assign_ilist_last_wins hashFunc keyEqual keyEqual_spec fuel this ilist t Hl H)
    as [Hwf Hr].
  unfold assign_ilist in H.
  rewrite wrap_small in H by (unfold in_range; lia).
  destruct (find_next_prime fuel _) as [q|] eqn:Hq; [|discriminate].
  assert (Hq' : 1 <= q < modulus).
  { apply (find_next_prime_range fuel (Z.of_nat (length ilist))); [|exact Hq].
    unfold in_range. lia. }
  destruct (insert_each_post hashFunc keyEqual (insert fuel)
              (insert_post hashFunc keyEqual keyEqual_spec fuel) ilist _ t
              (fresh_wf hashFunc q one Hq') ltac:(simpl; lia) H) as (_ & Hlf & _ & Hc).
  simpl in Hlf, Hc. split_and!; trivial; try (unfold size; lia).
  intros B p Hcalm HB Hp Hp2. assert (q = p) as -> by congruence.
  apply (insert_each_keeps_size hashFunc keyEqual keyEqual_spec one B Hcalm HB
           fuel ilist (fresh p one) t); [|simpl; lia|exact H].
  split_and!; [now apply fresh_wf | reflexivity | simpl; lia].
Qed.

(** ** [operator[]] *)

Section Index.

Variable key_op_eq : KeyType -> KeyType -> bool.
Variable default_data : DataType.

(** [operator==] of [KeyType] is the configured [KeyEqual]. *)
Hypothesis key_op_eq_keyEqual : forall a b, key_op_eq a b = keyEqual a b.

Abbreviation operator_index :=
  (@ac.operator_index KeyType DataType hashFunc keyEqual key_op_eq default_data).

(** X14. [operator[]] finds or inserts, when [==] on keys is the
    configured equality: for a key the table holds it returns a reference
    to the data of that key and leaves the table as it was; for any other
    key it inserts the key with [DataType{}] by [insert], rehash included,
    and returns a reference into the table that [insert] left, through
    which the new data is read and written. *)
Theorem operator_index_finds_or_inserts fuel t k :
  wf t -> m_count t + 1 < modulus ->
  (forall v, {| m_key := k; m_data := v |} ∈ entries t ->
     exists r, operator_index (S fuel) t k = Some (r, t) /\ deref t r = Some v) /\
  (k ∉ m_key <$> entries t ->
   forall b t', insert fuel t k default_data = Some (b, t') ->
     exists r, operator_index (S (S fuel)) t k = Some (r, t') /\
               deref t' r = Some default_data /\
               (forall d0, retrieve t' k d0 = (true, default_data)) /\
               forall d k' d0,
                 retrieve (assign t' r d) k' d0
                 = if keyEqual k' k then (true, d) else retrieve t' k' d0).
Proof.
  intros Hwf Hroom.
  destruct (operator_index_default_equality hashFunc keyEqual keyEqual_spec
              key_op_eq default_data key_op_eq_keyEqual fuel t k Hwf Hroom) as [Hpresent Habsent].
  split.
  - intros v Hin. apply Hpresent.
    now apply (lookup_entries hashFunc keyEqual keyEqual_spec).
  - intros Hnin b t' Hi.
    apply (lookup_None hashFunc keyEqual keyEqual_spec) in Hnin; trivial.
    destruct (Habsent Hnin b t' Hi) as (r & Hr & Hd & Hw).
    exists r. split_and!; trivial.
    intros d0.
    destruct (insert_post hashFunc keyEqual keyEqual_spec _ _ _ _ _ Hwf Hroom Hi)
      as (_ & _ & Hlk & _).
    simpl in Hlk. rewrite retrieve_as_lookup, Hlk.
    now rewrite (keyEqual_refl keyEqual keyEqual_spec).
Qed.

End Index.

(** ** Copies *)

Lemma last_data_app k (l1 l2 : list HashEntry) :
  last_data keyEqual k (l1 ++ l2)
  = match last_data keyEqual k l2 with
    | Some d => Some d
    | None => last_data keyEqual k l1
    end.
Proof.
  induction l1 as [|e l1 IH]; simpl.
  - now destruct (last_data keyEqual k l2).
  - rewrite IH. now destruct (last_data keyEqual k l2).
Qed.

Lemma lookup_last_data t k : wf t -> lookup t k = last_data keyEqual k (entries t).
Proof.
  intros Hwf. apply option_eq. intros v.
  rewrite (lookup_entries hashFunc keyEqual keyEqual_spec) by trivial.
  now rewrite (last_data_elem keyEqual keyEqual_spec)
    by (now apply (wf_NoDup_keys hashFunc)).
Qed.

Lemma entries_of_lookup t t' :
  wf t -> wf t' -> (forall k, lookup t k = lookup t' k) -> entries t ≡ₚ entries t'.
Proof.
  intros Hwf Hwf' Hl. apply NoDup_Permutation.
  - now apply (wf_NoDup_entries hashFunc).
  - now apply (wf_NoDup_entries hashFunc).
  - intros [k v].
    rewrite <- !(lookup_entries hashFunc keyEqual keyEqual_spec) by trivial.
    now rewrite Hl.
Qed.

(** What the loop of the two copying functions has done when it is
    over, whatever [insert] did on the way. *)
Lemma copy_loop_post fuel : forall (rest done : list (list HashEntry)) this t',
  wf this -> m_count this + Z.of_nat (length (concat rest)) < modulus ->
  copy_loop hashFunc keyEqual fuel rest (Z.of_nat (length done)) this = Returned t' ->
  wf t' /\ m_load_factor t' = m_load_factor this /\
  m_size t' <= Z.of_nat (length (done ++ rest)) /\
  m_count this <= m_count t' <= m_count this + Z.of_nat (length (concat rest)) /\
  (m_size t' = Z.of_nat (length (done ++ rest)) ->
   forall k, lookup t' k = match last_data keyEqual k (concat rest) with
                           | Some d => Some d
                           | None => lookup this k
                           end).
Proof.
  induction rest as [|chain rest IH]; intros done this t' Hwf Hc H; cbn [copy_loop] in H.
  - destruct (Z.ltb_spec (Z.of_nat (length done)) (m_size this)); [discriminate|].
    inversion H; subst t'. rewrite app_nil_r. simpl.
    split_and!; trivial; lia.
  - cbn [concat] in *. rewrite length_app in *.
    destruct (Z.ltb_spec (Z.of_nat (length done)) (m_size this)) as [Hlt|Hge].
    + destruct (insert_each _ chain this) as [this'|] eqn:Hi; [|discriminate].
      destruct (insert_each_post hashFunc keyEqual (insert fuel)
                  (insert_post hashFunc keyEqual keyEqual_spec fuel) chain this this'
                  Hwf ltac:(lia) Hi) as (Hwf' & Hlf' & Hlk' & Hc').
      pose proof (wf_size _ _ Hwf) as Hs.
      rewrite wrap_small in H by (unfold in_range; lia).
      replace (Z.of_nat (length done) + 1) with (Z.of_nat (length (done ++ [chain]))) in H
        by (rewrite length_app; cbn [length]; lia).
      destruct (IH (done ++ [chain]) this' t' Hwf' ltac:(lia) H)
        as (Hwf'' & Hlf'' & Hs'' & Hc'' & Hlk'').
      rewrite <- app_assoc in Hs'', Hlk''. cbn [app] in Hs'', Hlk''.
      rewrite length_app in Hs'', Hlk''.
      assert (Hfinal : m_size t' = Z.of_nat (length done + S (length rest)) ->
                forall k, lookup t' k
                          = match last_data keyEqual k (chain ++ concat rest) with
                            | Some d => Some d
                            | None => lookup this k
                            end).
      { intros Hsz k. rewrite (Hlk'' Hsz k), last_data_app, Hlk'.
        now destruct (last_data keyEqual k (concat rest)). }
      split_and!; trivial; try congruence; rewrite ?length_app; lia.
    + inversion H; subst t'. cbn [length].
      split_and!; trivial; lia.
Qed.

(** An [insert] that leaves the table within a bound that a full table
    meets ends with the mutation. *)
Lemma insert_within_bound lf B fuel t k v :
  calm lf B -> B < modulus -> m_load_factor t = lf ->
  0 <= m_count t -> m_count t + 1 <= m_size t -> m_size t <= B ->
  insert (S fuel) t k v = Some (insert_mutation hashFunc keyEqual t k v).
Proof.
  intros Hcalm HB Hlf H0 Hc Hs.
  rewrite (insert_unfold hashFunc keyEqual keyEqual_spec) by lia.
  unfold ac.check_load, load_exceeded.
  rewrite insert_mutation_load_factor, insert_mutation_size, insert_mutation_count, Hlf.
  rewrite Hcalm; [reflexivity| |exact Hs].
  destruct (fst _); lia.
Qed.

(** Copying one chain into the bucket it came from puts it there back to
    front. *)
Lemma insert_chain_exact lf B fuel sz i :
  calm lf B -> B < modulus -> 1 <= sz <= B ->
  forall (chain acc : list HashEntry) c0 (tbl : list (list HashEntry)),
    tbl !! i = Some acc ->
    NoDup (m_key <$> (acc ++ chain)) ->
    (forall e, e ∈ chain -> Z.to_nat (hashFunc (m_key e) mod sz) = i) ->
    0 <= c0 -> c0 + Z.of_nat (length chain) <= sz ->
    insert_each (insert (S fuel)) chain
      {| m_size := sz; m_count := c0; m_load_factor := lf; m_table := tbl |}
    = Some {| m_size := sz; m_count := c0 + Z.of_nat (length chain);
              m_load_factor := lf; m_table := <[i := reverse chain ++ acc]> tbl |}.
Proof.
  intros Hcalm HB Hsz.
  induction chain as [|e chain IH]; intros acc c0 tbl Hi Hnd Hidx H0 Hc.
  - cbn [insert_each length]. rewrite Z.add_0_r. cbn [reverse app].
    now rewrite list_insert_id by exact Hi.
  - cbn [length] in Hc. rewrite Nat2Z.inj_succ in Hc.
    cbn [insert_each].
    rewrite (insert_within_bound lf B) by (trivial; cbn [m_count m_size]; lia).
    unfold ac.insert_mutation, ac.index_of. cbn [m_size m_count m_load_factor m_table].
    rewrite (Hidx e) by constructor.
    assert (Hb : bucket {| m_size := sz; m_count := c0; m_load_factor := lf;
                           m_table := tbl |} i = acc)
      by (unfold bucket; cbn [m_table]; now rewrite Hi).
    rewrite !Hb.
    assert (Hf : find_if (fun e0 => keyEqual (m_key e) (m_key e0)) acc = None).
    { apply find_if_None. intros e' He'. apply keyEqual_neq. intros Heq.
      rewrite fmap_app, fmap_cons in Hnd. apply NoDup_app in Hnd as (_ & Hdis & _).
      apply (Hdis (m_key e')).
      - apply list_elem_of_fmap. now exists e'.
      - rewrite <- Heq. constructor. }
    rewrite Hf.
    assert (He : {| m_key := m_key e; m_data := m_data e |} = e) by now destruct e.
    rewrite He.
    rewrite (IH (e :: acc) (c0 + 1) (<[i := e :: acc]> tbl)).
    + f_equal. f_equal.
      * cbn [length]. rewrite Nat2Z.inj_succ. lia.
      * rewrite list_insert_insert_eq, reverse_cons, <- app_assoc. reflexivity.
    + apply list_lookup_insert_eq. now apply lookup_lt_Some in Hi.
    + cbn [app]. rewrite fmap_cons, <- fmap_cons, Permutation_middle. exact Hnd.
    + intros e' He'. apply Hidx. now constructor.
    + lia.
    + lia.
Qed.

Lemma copy_loop_exact lf B fuel sz :
  calm lf B -> B < modulus -> 1 <= sz <= B ->
  forall (rest done : list (list HashEntry)) c0,
    length (done ++ rest) = Z.to_nat sz ->
    (forall i chain e, (done ++ rest) !! i = Some chain -> e ∈ chain ->
                       Z.to_nat (hashFunc (m_key e) mod sz) = i) ->
    (forall chain, chain ∈ rest -> NoDup (m_key <$> chain)) ->
    0 <= c0 -> c0 + Z.of_nat (length (concat rest)) <= sz ->
    copy_loop hashFunc keyEqual (S fuel) rest (Z.of_nat (length done))
      {| m_size := sz; m_count := c0; m_load_factor := lf;
         m_table := (reverse <$> done) ++ replicate (length rest) [] |}
    = Returned {| m_size := sz; m_count := c0 + Z.of_nat (length (concat rest));
                  m_load_factor := lf; m_table := reverse <$> (done ++ rest) |}.
Proof.
  intros Hcalm HB Hsz.
  induction rest as [|chain rest IH]; intros done c0 Hlen Hplaced Hnd H0 Hc;
    cbn [copy_loop m_size].
  - rewrite app_nil_r in *. cbn [concat length replicate].
    rewrite Z.add_0_r, app_nil_r.
    destruct (Z.ltb_spec (Z.of_nat (length done)) sz); [lia | reflexivity].
  - cbn [concat] in *. rewrite length_app in Hlen, Hc. cbn [length] in Hlen.
    rewrite Nat2Z.inj_add in Hc.
    destruct (Z.ltb_spec (Z.of_nat (length done)) sz) as [_|Hge]; [|lia].
    rewrite (insert_chain_exact lf B fuel sz (length done) Hcalm HB Hsz chain []).
    + rewrite wrap_small by (unfold in_range, modulus in *; lia).
      pose proof (IH (done ++ [chain]) (c0 + Z.of_nat (length chain))) as IH'.
      rewrite <- !app_assoc in IH'. cbn [app] in IH'.
      rewrite fmap_app, <- app_assoc in IH'. cbn [fmap list_fmap app] in IH'.
      replace (Z.of_nat (length done) + 1) with (Z.of_nat (length (done ++ [chain])))
        by (rewrite length_app; cbn [length]; lia).
      rewrite app_nil_r. cbn [length replicate].
      rewrite insert_app_r_alt by (rewrite length_fmap; lia).
      rewrite length_fmap, Nat.sub_diag. cbn [insert list_insert].
      replace (c0 + Z.of_nat (length (chain ++ concat rest)))
        with (c0 + Z.of_nat (length chain) + Z.of_nat (length (concat rest)))
        by (rewrite length_app; lia).
      apply IH'; trivial; try lia.
      * rewrite length_app. cbn [length]. lia.
      * intros c Hin. apply Hnd. now constructor.
    + rewrite lookup_app_r by (rewrite length_fmap; lia).
      rewrite length_fmap, Nat.sub_diag. reflexivity.
    + cbn [app]. apply Hnd. constructor.
    + intros e He. apply (Hplaced (length done) chain e); [|exact He].
      apply list_lookup_middle. reflexivity.
    + exact H0.
    + lia.
Qed.

Lemma chain_lookup_reverse k (chain : list HashEntry) :
  NoDup (m_key <$> chain) ->
  chain_lookup keyEqual k (reverse chain) = chain_lookup keyEqual k chain.
Proof.
  intros Hnd. apply option_eq. intros v. split; intros H.
  - apply (chain_lookup_elem keyEqual keyEqual_spec); trivial.
    apply (chain_lookup_Some_elem keyEqual keyEqual_spec) in H.
    now rewrite elem_of_reverse in H.
  - apply (chain_lookup_elem keyEqual keyEqual_spec).
    + now rewrite reverse_Permutation.
    + rewrite elem_of_reverse. now apply (chain_lookup_Some_elem keyEqual keyEqual_spec).
Qed.

Lemma retrieve_reversed t c lf k d :
  wf t ->
  retrieve {| m_size := m_size t; m_count := c; m_load_factor := lf;
              m_table := reverse <$> m_table t |} k d
  = retrieve t k d.
Proof.
  intros Hwf. rewrite !retrieve_as_lookup. unfold ac.lookup.
  set (t' := {| m_size := m_size t; m_count := c; m_load_factor := lf;
                m_table := reverse <$> m_table t |}).
  change (index_of t' k) with (index_of t k).
  assert (Hb : bucket t' (index_of t k) = reverse (bucket t (index_of t k))).
  { unfold bucket, t'. cbn [m_table]. rewrite list_lookup_fmap.
    now destruct (m_table t !! index_of t k). }
  rewrite Hb, chain_lookup_reverse; [reflexivity|].
  apply (wf_chain _ _ Hwf (index_of t k)).
  apply bucket_lookup. now apply (index_of_lt hashFunc).
Qed.

Lemma length_concat_reverse (l : list (list HashEntry)) :
  length (concat (reverse <$> l)) = length (concat l).
Proof.
  induction l as [|c l IH]; [reflexivity|].
  cbn [fmap list_fmap concat]. rewrite !length_app, length_reverse. now f_equal.
Qed.

(** X15. The copy constructor, on a source none of whose prefixes
    exceeds the bound on the load factor (a full table meets the bound and
    the source is not over-full) and whose number of buckets
    [find_next_prime] returns as it is: the copy has the same number of
    buckets, the same count and the same bound, and bucket by bucket the
    same entries as the source, each chain back to front. *)
Theorem copy_constructor_reverses_chains B fuel source :
  calm (m_load_factor source) B -> B < modulus ->
  wf source -> m_size source <= B -> m_count source <= m_size source ->
  find_next_prime fuel (m_size source) = Some (m_size source) ->
  HashTbl_copy hashFunc keyEqual fuel source
  = Returned {| m_size := m_size source; m_count := m_count source;
                m_load_factor := m_load_factor source;
                m_table := reverse <$> m_table source |}.
Proof.
  intros Hcalm HB Hwf Hs Hc Hp.
  pose proof (wf_size _ _ Hwf) as Hsize.
  pose proof (wf_length _ _ Hwf) as Hlen.
  pose proof (wf_count _ _ Hwf) as Hcount.
  destruct fuel as [|fuel]; [discriminate|].
  unfold HashTbl_copy, HashTbl_new. rewrite Hp.
  unfold set_max_load_factor, fresh. cbn [m_size m_count m_load_factor m_table].
  rewrite <- Hlen.
  pose proof (copy_loop_exact (m_load_factor source) B fuel (m_size source)
                Hcalm HB ltac:(lia) (m_table source) [] 0) as H.
  cbn [app length fmap list_fmap Z.of_nat] in H.
  unfold entries in Hcount. rewrite Z.add_0_l, <- Hcount in H.
  apply H; trivial; try lia.
  - intros i chain e Hi He. apply (wf_placed _ _ Hwf i chain e Hi He).
  - intros chain Hin. apply list_elem_of_lookup in Hin as [i Hi].
    apply (wf_chain _ _ Hwf i chain Hi).
Qed.

(** X16. The copy constructor never returns a table with more buckets
    than its source: the loop is bounded by the [m_size] of the table
    being filled, so that a copy which [insert] has made grow goes on to
    index the array of the source past its end.  When it returns with as
    many buckets as the source, the copy is well formed and holds the
    same entries: the same [size()], the same answer to every [retrieve],
    and the bound on the load factor of the source. *)
Theorem copy_constructor_never_grows fuel source t' :
  wf source ->
  HashTbl_copy hashFunc keyEqual fuel source = Returned t' ->
  wf t' /\
  m_load_factor t' = m_load_factor source /\
  m_size t' <= m_size source /\
  (m_size t' = m_size source ->
     entries t' ≡ₚ entries source /\
     size t' = size source /\
     forall k d, retrieve t' k d = retrieve source k d).
Proof.
  intros Hwf H.
  pose proof (wf_size _ _ Hwf) as Hsize.
  pose proof (wf_length _ _ Hwf) as Hlen.
  pose proof (wf_count _ _ Hwf) as Hcount.
  pose proof (wf_count_range _ _ Hwf) as Hrange.
  unfold HashTbl_copy, HashTbl_new in H.
  destruct (find_next_prime fuel (m_size source)) as [q|] eqn:Hq; [|discriminate].
  assert (Hq' : 1 <= q < modulus).
  { apply (find_next_prime_range fuel (m_size source)); [|exact Hq].
    unfold in_range. lia. }
  set (this := set_max_load_factor (fresh q one) (m_load_factor source)) in H.
  assert (Hthis : wf this).
  { apply set_max_load_factor_wf. now apply fresh_wf. }
  change 0 with (Z.of_nat (length (@nil (list HashEntry)))) in H.
  unfold entries in Hcount.
  destruct (copy_loop_post fuel (m_table source) [] this t' Hthis
              ltac:(cbn [this set_max_load_factor fresh m_count]; lia) H)
    as (Hwf' & Hlf' & Hs' & Hc' & Hlk').
  cbn [app] in Hs', Hlk'. rewrite Hlen, Z2Nat.id in Hs', Hlk' by lia.
  split_and!; trivial.
  intros Hsz.
  assert (Hl : forall k, lookup t' k = lookup source k).
  { intros k. rewrite (Hlk' Hsz k), (lookup_last_data source k Hwf).
    unfold entries. destruct (last_data keyEqual k (concat (m_table source))); [reflexivity|].
    apply (fresh_lookup hashFunc keyEqual q one k). }
  pose proof (entries_of_lookup t' source Hwf' Hwf Hl) as Hperm.
  split_and!; trivial.
  - unfold size. now apply (count_Permutation hashFunc t' source).
  - intros k d. now rewrite !retrieve_as_lookup, Hl.
Qed.

(** X17. The copy assignment takes the number of buckets, the bound on
    the load factor and the entries of [clone], each chain back to front,
    so that every [retrieve] answers as on [clone]; but it does not reset
    [m_count], so that [size()] of the assigned table is the size it had
    before plus the size of [clone], whatever the number of entries it
    holds.  (On a [clone] that is within a bound which a full table meets,
    and with the sum of both counts not above the number of buckets, so
    that no [insert] of the loop calls [rehash].) *)
Theorem copy_assignment_adds_count B fuel this clone :
  calm (m_load_factor clone) B -> B < modulus ->
  wf this -> wf clone -> m_size clone <= B ->
  m_count this + m_count clone <= m_size clone ->
  exists t',
    assign_copy hashFunc keyEqual (S fuel) this clone false = Returned t' /\
    m_size t' = m_size clone /\
    m_load_factor t' = m_load_factor clone /\
    m_table t' = reverse <$> m_table clone /\
    (forall k d, retrieve t' k d = retrieve clone k d) /\
    size t' = size this + size clone /\
    Z.of_nat (length (entries t')) = size clone.
Proof.
  intros Hcalm HB Hthis Hwf Hs Hc.
  pose proof (wf_size _ _ Hwf) as Hsize.
  pose proof (wf_length _ _ Hwf) as Hlen.
  pose proof (wf_count _ _ Hwf) as Hcount.
  pose proof (wf_count _ _ Hthis) as Hcount0.
  unfold entries in Hcount.
  eexists. split.
  - unfold assign_copy. rewrite <- Hlen.
    pose proof (copy_loop_exact (m_load_factor clone) B fuel (m_size clone)
                  Hcalm HB ltac:(lia) (m_table clone) [] (m_count this)) as H.
    cbn [app length fmap list_fmap Z.of_nat] in H.
    apply H; trivial; try lia.
    + intros i chain e Hi He. apply (wf_placed _ _ Hwf i chain e Hi He).
    + intros chain Hin. apply list_elem_of_lookup in Hin as [i Hi].
      apply (wf_chain _ _ Hwf i chain Hi).
  - cbn [m_size m_load_factor m_table]. split_and!; trivial.
    + intros k d. now apply retrieve_reversed.
    + unfold size. cbn [m_count]. lia.
    + unfold size, entries. cbn [m_table]. rewrite length_concat_reverse. lia.
Qed.

(** ** Bounds on the load factor that are not positive numbers *)

Lemma gt_nan x : gt x S754_nan = false.
Proof. now destruct x. Qed.

(** X19. A negative bound on the load factor makes a new table
    unusable: after [max_load_factor(x)] with any finite [x < 0] on a table
    that a constructor has just returned, whatever its number of buckets,
    no [insert] ever returns.  The first entry exceeds the bound, [rehash]
    re-inserts it with [insert] into a new table, where it exceeds the
    bound again, and so on. *)
Theorem insert_negative_bound_never_returns mx ex fuel0 sz t :
  in_range sz ->
  HashTbl_new fuel0 sz = Some t ->
  forall fuel k v,
    insert fuel (set_max_load_factor t (S754_finite true mx ex)) k v = None.
Proof.
  intros Hsz H fuel k v. unfold HashTbl_new in H.
  destruct (find_next_prime fuel0 sz) as [p|] eqn:Hp; [|discriminate].
  inversion H; subst t.
  change (set_max_load_factor (fresh p one) (S754_finite true mx ex))
    with (fresh p (S754_finite true mx ex) : HashTbl).
  apply Divergence.insert_fresh_negative.
  apply (find_next_prime_range fuel0 sz p Hsz Hp).
Qed.

(** X20. A bound of [+infinity] (or a NaN) switches [rehash] off:
    nothing compares greater than such a bound, so every [insert] returns
    at once with the entry prepended or overwritten in its chain and the
    number of buckets as it was, however long the chains grow. *)
Theorem insert_infinite_bound_never_rehashes fuel t k v :
  wf t -> m_count t + 1 < modulus ->
  m_load_factor t = S754_infinity false \/ m_load_factor t = S754_nan ->
  insert (S fuel) t k v = Some (insert_mutation hashFunc keyEqual t k v) /\
  (forall b t', insert (S fuel) t k v = Some (b, t') ->
     m_size t' = m_size t /\ m_load_factor t' = m_load_factor t /\
     (forall d, retrieve t' k d = (true, v))).
Proof.
  intros Hwf Hroom Hlf.
  pose proof (wf_count _ _ Hwf) as Hcount.
  assert (Hi : insert (S fuel) t k v = Some (insert_mutation hashFunc keyEqual t k v)).
  { rewrite (insert_unfold hashFunc keyEqual keyEqual_spec) by lia.
    unfold ac.check_load, load_exceeded. rewrite insert_mutation_load_factor.
    destruct Hlf as [-> | ->]; [now rewrite gt_infinity | now rewrite gt_nan]. }
  split; [exact Hi|].
  intros b t' H.
  destruct (insert_post hashFunc keyEqual keyEqual_spec _ _ _ _ _ Hwf Hroom H)
    as (_ & Hlf' & Hlk & _).
  simpl in Hlf', Hlk.
  rewrite Hi in H. inversion H as [Hm].
  pose proof (insert_mutation_size hashFunc keyEqual t k v) as Hs.
  rewrite Hm in Hs. simpl in Hs.
  split_and!; trivial.
  intros d. rewrite retrieve_as_lookup, Hlk.
  now rewrite (keyEqual_refl keyEqual keyEqual_spec).
Qed.

(** ** Printing *)

Section Printing.

Variable show : DataType -> String.string.

Abbreviation print := (@ac.print KeyType DataType show).
Abbreviation listing := (@ac.listing KeyType DataType show).

Lemma append_assoc (a b c : String.string) :
  String.append (String.append a b) c = String.append a (String.append b c).
Proof. induction a as [|x a IH]; simpl; [reflexivity | now rewrite IH]. Qed.

Lemma append_empty (a : String.string) : String.append a String.EmptyString = a.
Proof. induction a as [|x a IH]; simpl; [reflexivity | now rewrite IH]. Qed.

Lemma listing_app (l1 l2 : list HashEntry) :
  listing (l1 ++ l2) = String.append (listing l1) (listing l2).
Proof.
  induction l1 as [|e l1 IH]; [reflexivity|].
  cbn [app]. unfold ac.listing in *. cbn [fold_right]. rewrite IH.
  now rewrite !append_assoc.
Qed.

Lemma print_chain_text (chain : list HashEntry) : forall os,
  print_chain show os chain = String.append os (listing chain).
Proof.
  unfold print_chain, put.
  induction chain as [|e chain IH]; intros os; cbn [fold_left].
  - unfold ac.listing. cbn [fold_right]. now rewrite append_empty.
  - rewrite IH. unfold ac.listing. cbn [fold_right]. now rewrite !append_assoc.
Qed.

Lemma print_chains_text (l : list (list HashEntry)) : forall os,
  fold_left (print_chain show) l os = String.append os (listing (concat l)).
Proof.
  induction l as [|chain l IH]; intros os; cbn [fold_left concat].
  - unfold ac.listing. cbn [fold_right]. now rewrite append_empty.
  - now rewrite IH, print_chain_text, listing_app, append_assoc.
Qed.

(** X18. What [operator<<] writes: after what the stream held, an
    opening brace and a space, then the data of every entry, bucket by
    bucket and each chain from its front, every one of them followed by a
    comma and a space (the last one too), then a closing brace.  Keys are
    not written; a table without entries is written as a brace, a space
    and a brace. *)
Theorem print_text os t :
  wf t ->
  print os t
  = String.append os
      (String.append "{ "%string (String.append (listing (entries t)) "}"%string)) /\
  (entries t = [] -> print os t = String.append os "{ }"%string).
Proof.
  intros Hwf.
  assert (H : print os t
              = String.append os
                  (String.append "{ "%string
                     (String.append (listing (entries t)) "}"%string))).
  { unfold ac.print, put.
    rewrite take_ge by (rewrite (wf_length _ _ Hwf); lia).
    rewrite print_chains_text. unfold entries. now rewrite !append_assoc. }
  split; [exact H|].
  intros He. rewrite H, He. reflexivity.
Qed.

End Printing.

End Operations.

(** ** The properties on concrete tables *)

Lemma modulus_room (c : Z) : 0 <= c < 1000 -> c + 1 < modulus.
Proof. unfold modulus. lia. Qed.

Lemma range_131 : 131 < modulus.
Proof. unfold modulus. lia. Qed.

Lemma colliding_wf : wf IntTbl.hash IntTbl.colliding.
Proof.
  assert (Hroom : m_count IntTbl.t0 + Z.of_nat 3 < modulus) by (unfold modulus; simpl; lia).
  destruct (insert_each_post IntTbl.hash Z.eqb (IntTbl.insert 30)
              (insert_post IntTbl.hash Z.eqb Z.eqb_eq 30)
              [IntTbl.entry 1 10; IntTbl.entry 12 120; IntTbl.entry 23 230]
              IntTbl.t0 IntTbl.colliding
              Scenarios.t0_wf Hroom Scenarios.colliding_reached) as [H _].
  exact H.
Qed.

Lemma t11_full_wf : wf IntTbl.hash IntTbl.t11_full.
Proof.
  change IntTbl.t11_full with (snd (insert_mutation IntTbl.hash Z.eqb IntTbl.t11 12 120)).
  apply (insert_mutation_wf IntTbl.hash Z.eqb Z.eqb_eq); [exact Scenarios.t11_wf|].
  apply modulus_room. vm_compute. split; congruence.
Qed.

Lemma named_wf : wf StrTbl.hash StrTbl.named.
Proof.
  assert (Hroom : m_count StrTbl.blank + Z.of_nat (length StrTbl.words) < modulus)
    by (unfold modulus; simpl; lia).
  assert (Hi : insert_each (insert StrTbl.hash Z.eqb 30) StrTbl.words StrTbl.blank
               = Some StrTbl.named) by (vm_compute; reflexivity).
  destruct (insert_each_post StrTbl.hash Z.eqb (insert StrTbl.hash Z.eqb 30)
              (insert_post StrTbl.hash Z.eqb Z.eqb_eq 30) StrTbl.words StrTbl.blank StrTbl.named
              (fresh_wf StrTbl.hash 11 one Scenarios.range_11) Hroom Hi) as [H _].
  exact H.
Qed.

Lemma prime_11 : Z.prime 11.
Proof.
  destruct (is_prime_correct 11 ltac:(lia)) as (fuel & b & Hb & Hiff).
  apply Hiff.
  pose proof (is_prime_mono fuel (Nat.max fuel 5) 11 b (Nat.le_max_l _ _) Hb) as H1.
  pose proof (is_prime_mono 5 (Nat.max fuel 5) 11 true (Nat.le_max_r _ _) eq_refl) as H2.
  congruence.
Qed.

Lemma insert_then_retrieve_witness :
  wf IntTbl.hash IntTbl.with_5 /\
  m_count IntTbl.with_5 + 1 < modulus /\
  IntTbl.insert 30 IntTbl.with_5 16 160 = Some (true, IntTbl.with_5_16) /\
  (forall d, IntTbl.retrieve IntTbl.with_5_16 16 d = (true, 160)) /\
  (forall k' d, k' <> 16 ->
     IntTbl.retrieve IntTbl.with_5_16 k' d = IntTbl.retrieve IntTbl.with_5 k' d) /\
  size IntTbl.with_5_16 = size IntTbl.with_5 + 1.
Proof.
  assert (Hroom : m_count IntTbl.with_5 + 1 < modulus) by (vm_compute; reflexivity).
  assert (Hi : IntTbl.insert 30 IntTbl.with_5 16 160 = Some (true, IntTbl.with_5_16))
    by (vm_compute; reflexivity).
  destruct (insert_then_retrieve IntTbl.hash Z.eqb Z.eqb_eq 30 IntTbl.with_5 16 160
              true IntTbl.with_5_16 Scenarios.with_5_wf Hroom Hi)
    as (H1 & H2 & _ & H4 & _).
  split_and!;
    [exact Scenarios.with_5_wf | exact Hroom | exact Hi | exact H1 | exact H2 | exact H4].
Defined.

Lemma retrieve_by_entries_witness :
  wf IntTbl.hash IntTbl.colliding /\
  IntTbl.retrieve IntTbl.colliding 12 0 = (true, 120) /\
  IntTbl.retrieve IntTbl.colliding 34 7 = (false, 7).
Proof.
  split; [exact colliding_wf|]. split.
  - apply (retrieve_by_entries IntTbl.hash Z.eqb Z.eqb_eq IntTbl.colliding 12 colliding_wf).
    vm_compute. apply elem_of_cons. right. apply elem_of_cons. now left.
  - apply (retrieve_by_entries IntTbl.hash Z.eqb Z.eqb_eq IntTbl.colliding 34 colliding_wf).
    vm_compute. intros H.
    repeat (apply elem_of_cons in H as [H|H]; [discriminate H|]).
    inversion H.
Defined.

Lemma erase_removes_witness :
  wf IntTbl.hash IntTbl.colliding /\
  fst (erase IntTbl.hash Z.eqb IntTbl.colliding 12) = true /\
  (forall d, IntTbl.retrieve (snd (erase IntTbl.hash Z.eqb IntTbl.colliding 12)) 12 d
             = (false, d)) /\
  (forall k' d, k' <> 12 ->
     IntTbl.retrieve (snd (erase IntTbl.hash Z.eqb IntTbl.colliding 12)) k' d
     = IntTbl.retrieve IntTbl.colliding k' d) /\
  size (snd (erase IntTbl.hash Z.eqb IntTbl.colliding 12)) = 2 /\
  m_size (snd (erase IntTbl.hash Z.eqb IntTbl.colliding 12)) = 11 /\
  snd (erase IntTbl.hash Z.eqb IntTbl.colliding 34) = IntTbl.colliding.
Proof.
  destruct (erase_removes IntTbl.hash Z.eqb Z.eqb_eq IntTbl.colliding 12 colliding_wf)
    as (_ & H1 & H2 & H3 & _ & H4 & H5 & _).
  destruct (erase_removes IntTbl.hash Z.eqb Z.eqb_eq IntTbl.colliding 34 colliding_wf)
    as (_ & _ & _ & _ & _ & _ & _ & H6).
  split_and!;
    [exact colliding_wf | exact (H4 0) | exact H1 | exact H2 | exact H5 | exact H3
    | exact (H6 eq_refl)].
Defined.

Lemma insert_then_erase_witness :
  wf IntTbl.hash IntTbl.with_5 /\
  m_count IntTbl.with_5 + 1 < modulus /\
  (forall d, IntTbl.retrieve IntTbl.with_5 16 d = (false, d)) /\
  IntTbl.insert 30 IntTbl.with_5 16 160 = Some (true, IntTbl.with_5_16) /\
  fst (erase IntTbl.hash Z.eqb IntTbl.with_5_16 16) = true /\
  (forall k' d, IntTbl.retrieve (snd (erase IntTbl.hash Z.eqb IntTbl.with_5_16 16)) k' d
                = IntTbl.retrieve IntTbl.with_5 k' d) /\
  size (snd (erase IntTbl.hash Z.eqb IntTbl.with_5_16 16)) = size IntTbl.with_5.
Proof.
  assert (Hroom : m_count IntTbl.with_5 + 1 < modulus) by (vm_compute; reflexivity).
  assert (Habs : forall d, IntTbl.retrieve IntTbl.with_5 16 d = (false, d))
    by (intros d; reflexivity).
  assert (Hi : IntTbl.insert 30 IntTbl.with_5 16 160 = Some (true, IntTbl.with_5_16))
    by (vm_compute; reflexivity).
  destruct (insert_then_erase IntTbl.hash Z.eqb Z.eqb_eq 30 IntTbl.with_5 16 160
              true IntTbl.with_5_16 Scenarios.with_5_wf Hroom Habs Hi)
    as (_ & H2 & H3 & H4 & _).
  split_and!;
    [exact Scenarios.with_5_wf | exact Hroom | exact Habs | exact Hi
    | exact H2 | exact H3 | exact H4].
Defined.

Lemma clear_empties_witness :
  wf IntTbl.hash IntTbl.colliding /\
  size (clear IntTbl.colliding) = 0 /\
  (forall k d, IntTbl.retrieve (clear IntTbl.colliding) k d = (false, d)) /\
  m_size (clear IntTbl.colliding) = 11.
Proof.
  destruct (clear_empties IntTbl.hash Z.eqb IntTbl.colliding colliding_wf)
    as (_ & H1 & _ & _ & H2 & _ & H3 & _).
  split_and!; [exact colliding_wf | exact H1 | exact H2 | exact H3].
Defined.

Lemma empty_iff_nothing_retrieved_witness :
  wf IntTbl.hash IntTbl.t0 /\
  empty IntTbl.t0 = true /\
  (forall k d, IntTbl.retrieve IntTbl.t0 k d = (false, d)) /\
  wf IntTbl.hash IntTbl.with_5 /\
  empty IntTbl.with_5 = false /\
  entries IntTbl.with_5 <> [].
Proof.
  destruct (empty_iff_nothing_retrieved IntTbl.hash Z.eqb Z.eqb_eq IntTbl.t0 Scenarios.t0_wf)
    as [_ H0].
  destruct (empty_iff_nothing_retrieved IntTbl.hash Z.eqb Z.eqb_eq IntTbl.with_5
              Scenarios.with_5_wf) as [H5 _].
  split_and!.
  - exact Scenarios.t0_wf.
  - reflexivity.
  - apply H0. reflexivity.
  - exact Scenarios.with_5_wf.
  - reflexivity.
  - intros He. apply H5 in He. discriminate He.
Defined.

Lemma rehash_keeps_entries_witness :
  wf IntTbl.hash IntTbl.t11_full /\
  rehash IntTbl.hash Z.eqb 30 IntTbl.t11_full = Some IntTbl.t12 /\
  m_size IntTbl.t11_full = 11 /\ m_size IntTbl.t12 = 23 /\
  entries IntTbl.t12 ≡ₚ entries IntTbl.t11_full /\
  size IntTbl.t12 = 12 /\
  (forall k d, IntTbl.retrieve IntTbl.t12 k d = IntTbl.retrieve IntTbl.t11_full k d).
Proof.
  assert (Hr : rehash IntTbl.hash Z.eqb 30 IntTbl.t11_full = Some IntTbl.t12)
    by (vm_compute; reflexivity).
  destruct (rehash_keeps_entries IntTbl.hash Z.eqb Z.eqb_eq 30 IntTbl.t11_full IntTbl.t12
              t11_full_wf Hr) as (_ & H1 & H2 & _ & H3).
  split_and!;
    [exact t11_full_wf | exact Hr | reflexivity | reflexivity | exact H1 | exact H2
    | exact H3].
Defined.

Lemma insert_capacity_witness :
  calm one 131 /\ wf IntTbl.hash IntTbl.t11 /\
  m_size IntTbl.t11 = 11 /\ m_count IntTbl.t11 = 11 /\
  find_next_prime 30 (2 * m_size IntTbl.t11) = Some 23 /\
  IntTbl.insert 30 IntTbl.t11 12 120 = Some (true, IntTbl.t12) /\
  IntTbl.insert 30 IntTbl.with_5 16 160 = Some (true, IntTbl.with_5_16) /\
  m_size IntTbl.t12 = 23 /\
  m_size IntTbl.with_5_16 = m_size IntTbl.with_5.
Proof.
  assert (Hp : find_next_prime 30 (2 * m_size IntTbl.t11) = Some 23)
    by (vm_compute; reflexivity).
  assert (Hi : IntTbl.insert 30 IntTbl.t11 12 120 = Some (true, IntTbl.t12))
    by (vm_compute; reflexivity).
  assert (Hp5 : find_next_prime 30 (2 * m_size IntTbl.with_5) = Some 23)
    by (vm_compute; reflexivity).
  assert (Hi5 : IntTbl.insert 30 IntTbl.with_5 16 160 = Some (true, IntTbl.with_5_16))
    by (vm_compute; reflexivity).
  destruct (insert_capacity IntTbl.hash Z.eqb Z.eqb_eq one 131 30 30 IntTbl.t11 12 120
              true IntTbl.t12 23 Scenarios.calm_one range_131 Scenarios.t11_wf eq_refl
              ltac:(vm_compute; congruence) ltac:(vm_compute; congruence) Hp
              ltac:(vm_compute; split; congruence) Hi) as [H1 _].
  destruct (insert_capacity IntTbl.hash Z.eqb Z.eqb_eq one 131 30 30 IntTbl.with_5 16 160
              true IntTbl.with_5_16 23 Scenarios.calm_one range_131 Scenarios.with_5_wf
              eq_refl ltac:(vm_compute; congruence) ltac:(vm_compute; congruence) Hp5
              ltac:(vm_compute; split; congruence) Hi5) as [_ H2].
  split_and!;
    [exact Scenarios.calm_one | exact Scenarios.t11_wf | reflexivity | reflexivity | exact Hp
    | exact Hi | exact Hi5 | exact H1 | apply H2; vm_compute; congruence].
Defined.

Lemma is_prime_decides_witness :
  2 <= 11 < 2 ^ 62 /\ 2 <= 25 < 2 ^ 62 /\
  is_prime 5 11 = Some true /\ Z.prime 11 /\
  is_prime 5 25 = Some false /\ ~ Z.prime 25.
Proof.
  assert (H11 : 2 <= 11 < 2 ^ 62) by lia.
  assert (H25 : 2 <= 25 < 2 ^ 62) by lia.
  destruct (is_prime_decides 11 H11) as [_ Hd11].
  destruct (is_prime_decides 25 H25) as [_ Hd25].
  assert (Hp11 : Z.prime 11) by (apply (Hd11 5%nat true); reflexivity).
  assert (Hp25 : ~ Z.prime 25).
  { intros Hp. apply (Hd25 5%nat false) in Hp; [discriminate Hp | reflexivity]. }
  split_and!; trivial; lia.
Defined.

Lemma find_next_prime_is_next_witness :
  2 <= 8 <= 11 /\ 11 < 2 ^ 62 /\ Z.prime 11 /\
  find_next_prime 30 8 = Some 11 /\
  ~ Z.prime 8 /\ ~ Z.prime 9 /\ ~ Z.prime 10.
Proof.
  assert (Hn : 2 <= 8 <= 11) by lia.
  assert (Hp : 11 < 2 ^ 62) by lia.
  destruct (find_next_prime_is_next 8 11 Hn Hp prime_11) as [_ H].
  destruct (H 30%nat 11 eq_refl) as (_ & _ & Hnone & _).
  pose proof (Hnone 8 ltac:(lia)) as H8.
  pose proof (Hnone 9 ltac:(lia)) as H9.
  pose proof (Hnone 10 ltac:(lia)) as H10.
  pose proof prime_11 as H11.
  split_and!; trivial; lia.
Defined.

Lemma constructor_state_witness :
  in_range 10 /\ 2 <= 10 <= 11 /\ 11 < 2 ^ 62 /\ Z.prime 11 /\
  IntTbl.new 30 10 = Some IntTbl.t0 /\
  wf IntTbl.hash IntTbl.t0 /\ size IntTbl.t0 = 0 /\
  (forall k d, IntTbl.retrieve IntTbl.t0 k d = (false, d)) /\
  m_load_factor IntTbl.t0 = one /\
  Z.prime (m_size IntTbl.t0) /\ 10 <= m_size IntTbl.t0 <= 11.
Proof.
  assert (Hr : in_range 10) by (unfold in_range, modulus; lia).
  assert (Hn : 2 <= 10 <= 11) by lia.
  assert (Hp : 11 < 2 ^ 62) by lia.
  assert (Hnew : IntTbl.new 30 10 = Some IntTbl.t0) by (vm_compute; reflexivity).
  destruct (constructor_state (DataType := Z) IntTbl.hash Z.eqb 10 Hr) as [Hany Hprime].
  destruct (Hany 30%nat IntTbl.t0 Hnew) as (H1 & H2 & _ & _ & H3 & H4 & _).
  destruct (Hprime 11 Hn Hp prime_11) as [_ Hsmallest].
  destruct (Hsmallest 30%nat IntTbl.t0 Hnew) as (H5 & H6 & _).
  pose proof prime_11 as H11.
  split_and!; trivial; lia.
Defined.

Lemma ilist_constructor_contents_witness :
  Z.of_nat (length IntTbl.pairs) < modulus /\
  HashTbl_ilist IntTbl.hash Z.eqb 30 IntTbl.pairs = Some IntTbl.from_pairs /\
  IntTbl.retrieve IntTbl.from_pairs 1 0 = (true, 11) /\
  IntTbl.retrieve IntTbl.from_pairs 2 0 = (true, 20) /\
  IntTbl.retrieve IntTbl.from_pairs 3 0 = (false, 0) /\
  0 <= size IntTbl.from_pairs <= 3.
Proof.
  assert (Hl : Z.of_nat (length IntTbl.pairs) < modulus) by (vm_compute; reflexivity).
  assert (Hi : HashTbl_ilist IntTbl.hash Z.eqb 30 IntTbl.pairs = Some IntTbl.from_pairs)
    by (vm_compute; reflexivity).
  destruct (ilist_constructor_contents IntTbl.hash Z.eqb Z.eqb_eq 30 IntTbl.pairs
              IntTbl.from_pairs Hl Hi) as (_ & Hr & Hs & _).
  split_and!;
    [exact Hl | exact Hi | exact (Hr 1 0) | exact (Hr 2 0) | exact (Hr 3 0)
    | apply Hs | apply Hs].
Defined.

Lemma ilist_assignment_contents_witness :
  Z.of_nat (length IntTbl.pairs) < modulus /\
  assign_ilist IntTbl.hash Z.eqb 30 IntTbl.with_5 IntTbl.pairs = Some IntTbl.assigned_pairs /\
  calm one 131 /\
  find_next_prime 30 (Z.of_nat (length IntTbl.pairs)) = Some 3 /\
  IntTbl.retrieve IntTbl.assigned_pairs 1 0 = (true, 11) /\
  IntTbl.retrieve IntTbl.assigned_pairs 5 0 = (false, 0) /\
  m_size IntTbl.assigned_pairs = 3.
Proof.
  assert (Hl : Z.of_nat (length IntTbl.pairs) < modulus) by (vm_compute; reflexivity).
  assert (Hi : assign_ilist IntTbl.hash Z.eqb 30 IntTbl.with_5 IntTbl.pairs
               = Some IntTbl.assigned_pairs) by (vm_compute; reflexivity).
  assert (Hp : find_next_prime 30 (Z.of_nat (length IntTbl.pairs)) = Some 3)
    by (vm_compute; reflexivity).
  destruct (ilist_assignment_contents IntTbl.hash Z.eqb Z.eqb_eq 30 IntTbl.with_5
              IntTbl.pairs IntTbl.assigned_pairs Hl Hi) as (_ & Hr & _ & _ & Hs).
  split_and!;
    [exact Hl | exact Hi | exact Scenarios.calm_one | exact Hp
    | exact (Hr 1 0) | exact (Hr 5 0) |].
  apply (Hs 131 3 Scenarios.calm_one range_131 Hp). vm_compute. split; congruence.
Defined.

Lemma operator_index_finds_or_inserts_witness :
  wf IntTbl.hash IntTbl.with_5 /\
  m_count IntTbl.with_5 + 1 < modulus /\
  (exists r, operator_index IntTbl.hash Z.eqb Z.eqb 0 1 IntTbl.with_5 5
             = Some (r, IntTbl.with_5) /\
             deref IntTbl.with_5 r = Some 50) /\
  IntTbl.insert 30 IntTbl.with_5 16 0
  = Some (true, set_count (set_bucket IntTbl.with_5 5
                             [IntTbl.entry 16 0; IntTbl.entry 5 50]) 2) /\
  (exists r, operator_index IntTbl.hash Z.eqb Z.eqb 0 32 IntTbl.with_5 16
             = Some (r, set_count (set_bucket IntTbl.with_5 5
                                     [IntTbl.entry 16 0; IntTbl.entry 5 50]) 2) /\
             deref (set_count (set_bucket IntTbl.with_5 5
                                 [IntTbl.entry 16 0; IntTbl.entry 5 50]) 2) r = Some 0).
Proof.
  assert (Hroom : m_count IntTbl.with_5 + 1 < modulus) by (vm_compute; reflexivity).
  assert (Hi : IntTbl.insert 30 IntTbl.with_5 16 0
               = Some (true, set_count (set_bucket IntTbl.with_5 5
                                          [IntTbl.entry 16 0; IntTbl.entry 5 50]) 2))
    by (vm_compute; reflexivity).
  destruct (operator_index_finds_or_inserts IntTbl.hash Z.eqb Z.eqb_eq Z.eqb 0
              (fun a b => eq_refl) 0 IntTbl.with_5 5 Scenarios.with_5_wf Hroom)
    as [Hfound _].
  destruct (operator_index_finds_or_inserts IntTbl.hash Z.eqb Z.eqb_eq Z.eqb 0
              (fun a b => eq_refl) 30 IntTbl.with_5 16 Scenarios.with_5_wf Hroom)
    as [_ Hnew].
  split_and!; trivial.
  - exact Scenarios.with_5_wf.
  - apply Hfound. vm_compute. apply elem_of_cons. now left.
  - destruct (Hnew ltac:(vm_compute; intros H; apply elem_of_cons in H as [H|H];
                          [discriminate H | inversion H]) true _ Hi)
      as (r & Hr & Hd & _).
    exists r. split; [exact Hr | exact Hd].
Defined.

Lemma copy_constructor_reverses_chains_witness :
  calm (m_load_factor IntTbl.colliding) 131 /\
  wf IntTbl.hash IntTbl.colliding /\
  m_size IntTbl.colliding <= 131 /\
  m_count IntTbl.colliding <= m_size IntTbl.colliding /\
  find_next_prime 30 (m_size IntTbl.colliding) = Some (m_size IntTbl.colliding) /\
  HashTbl_copy IntTbl.hash Z.eqb 30 IntTbl.colliding = Returned IntTbl.colliding_copy /\
  bucket IntTbl.colliding 1 = [IntTbl.entry 23 230; IntTbl.entry 12 120; IntTbl.entry 1 10] /\
  bucket IntTbl.colliding_copy 1
  = [IntTbl.entry 1 10; IntTbl.entry 12 120; IntTbl.entry 23 230].
Proof.
  assert (Hs : m_size IntTbl.colliding <= 131) by (vm_compute; congruence).
  assert (Hc : m_count IntTbl.colliding <= m_size IntTbl.colliding)
    by (vm_compute; congruence).
  assert (Hp : find_next_prime 30 (m_size IntTbl.colliding)
               = Some (m_size IntTbl.colliding)) by (vm_compute; reflexivity).
  pose proof (copy_constructor_reverses_chains IntTbl.hash Z.eqb Z.eqb_eq 131 30
                IntTbl.colliding Scenarios.calm_one range_131 colliding_wf Hs Hc Hp) as H.
  split_and!;
    [exact Scenarios.calm_one | exact colliding_wf | exact Hs | exact Hc | exact Hp
    | exact H | reflexivity | reflexivity].
Defined.

Lemma copy_constructor_never_grows_witness :
  wf IntTbl.hash IntTbl.colliding /\
  HashTbl_copy IntTbl.hash Z.eqb 30 IntTbl.colliding = Returned IntTbl.colliding_copy /\
  m_size IntTbl.colliding_copy <= m_size IntTbl.colliding /\
  wf IntTbl.hash IntTbl.colliding_copy /\
  size IntTbl.colliding_copy = size IntTbl.colliding /\
  (forall k d, IntTbl.retrieve IntTbl.colliding_copy k d
               = IntTbl.retrieve IntTbl.colliding k d).
Proof.
  assert (Hcopy : HashTbl_copy IntTbl.hash Z.eqb 30 IntTbl.colliding
                  = Returned IntTbl.colliding_copy) by (vm_compute; reflexivity).
  destruct (copy_constructor_never_grows IntTbl.hash Z.eqb Z.eqb_eq 30 IntTbl.colliding
              IntTbl.colliding_copy colliding_wf Hcopy) as (H1 & _ & H2 & H3).
  destruct (H3 eq_refl) as (_ & H4 & H5).
  split_and!; [exact colliding_wf | exact Hcopy | exact H2 | exact H1 | exact H4 | exact H5].
Defined.

Lemma copy_assignment_adds_count_witness :
  calm (m_load_factor IntTbl.colliding) 131 /\
  wf IntTbl.hash IntTbl.with_5 /\ wf IntTbl.hash IntTbl.colliding /\
  m_size IntTbl.colliding <= 131 /\
  m_count IntTbl.with_5 + m_count IntTbl.colliding <= m_size IntTbl.colliding /\
  assign_copy IntTbl.hash Z.eqb 30 IntTbl.with_5 IntTbl.colliding false
  = Returned IntTbl.with_5_assigned /\
  size IntTbl.with_5_assigned = 4 /\
  Z.of_nat (length (entries IntTbl.with_5_assigned)) = 3.
Proof.
  assert (Hs : m_size IntTbl.colliding <= 131) by (vm_compute; congruence).
  assert (Hc : m_count IntTbl.with_5 + m_count IntTbl.colliding <= m_size IntTbl.colliding)
    by (vm_compute; congruence).
  destruct (copy_assignment_adds_count IntTbl.hash Z.eqb Z.eqb_eq 131 29 IntTbl.with_5
              IntTbl.colliding Scenarios.calm_one range_131 Scenarios.with_5_wf
              colliding_wf Hs Hc) as (t' & Ha & _ & _ & _ & _ & Hsize & Hentries).
  assert (Hcopy : assign_copy IntTbl.hash Z.eqb 30 IntTbl.with_5 IntTbl.colliding false
                  = Returned IntTbl.with_5_assigned) by (vm_compute; reflexivity).
  assert (t' = IntTbl.with_5_assigned) as -> by congruence.
  split_and!;
    [exact Scenarios.calm_one | exact Scenarios.with_5_wf | exact colliding_wf
    | exact Hs | exact Hc | exact Hcopy | exact Hsize | exact Hentries].
Defined.

Lemma print_text_witness :
  wf StrTbl.hash StrTbl.named /\
  bucket StrTbl.named 1
  = [ {| m_key := 12; m_data := "twelve"%string |};
      {| m_key := 1; m_data := "one"%string |} ] /\
  print StrTbl.show "t = "%string StrTbl.named = "t = { twelve, one, five, }"%string /\
  print StrTbl.show "t = "%string StrTbl.blank = "t = { }"%string.
Proof.
  destruct (print_text StrTbl.hash StrTbl.show "t = "%string StrTbl.named named_wf)
    as [H1 _].
  destruct (print_text StrTbl.hash StrTbl.show "t = "%string StrTbl.blank
              (fresh_wf StrTbl.hash 11 one Scenarios.range_11)) as [_ H2].
  split_and!.
  - exact named_wf.
  - reflexivity.
  - rewrite H1. reflexivity.
  - apply H2. reflexivity.
Defined.

Lemma insert_negative_bound_never_returns_witness :
  in_range 10 /\
  IntTbl.new 30 10 = Some IntTbl.t0 /\
  forall fuel k v,
    IntTbl.insert fuel (set_max_load_factor IntTbl.t0 (S754_finite true 8388608 (-24))) k v
    = None.
Proof.
  assert (Hr : in_range 10) by (unfold in_range, modulus; lia).
  assert (Hnew : IntTbl.new 30 10 = Some IntTbl.t0) by (vm_compute; reflexivity).
  split_and!; [exact Hr | exact Hnew |].
  exact (insert_negative_bound_never_returns IntTbl.hash Z.eqb 8388608 (-24) 30 10
           IntTbl.t0 Hr Hnew).
Defined.

Lemma insert_infinite_bound_never_rehashes_witness :
  wf IntTbl.hash (set_max_load_factor IntTbl.t11 (S754_infinity false)) /\
  m_count (set_max_load_factor IntTbl.t11 (S754_infinity false)) + 1 < modulus /\
  IntTbl.insert 1 (set_max_load_factor IntTbl.t11 (S754_infinity false)) 12 120
  = Some (insert_mutation IntTbl.hash Z.eqb
            (set_max_load_factor IntTbl.t11 (S754_infinity false)) 12 120) /\
  m_size (snd (insert_mutation IntTbl.hash Z.eqb
                 (set_max_load_factor IntTbl.t11 (S754_infinity false)) 12 120)) = 11 /\
  m_count (snd (insert_mutation IntTbl.hash Z.eqb
                  (set_max_load_factor IntTbl.t11 (S754_infinity false)) 12 120)) = 12.
Proof.
  assert (Hwf : wf IntTbl.hash (set_max_load_factor IntTbl.t11 (S754_infinity false)))
    by (apply set_max_load_factor_wf; exact Scenarios.t11_wf).
  assert (Hroom : m_count (set_max_load_factor IntTbl.t11 (S754_infinity false)) + 1
                  < modulus) by (vm_compute; reflexivity).
  destruct (insert_infinite_bound_never_rehashes IntTbl.hash Z.eqb Z.eqb_eq 0
              (set_max_load_factor IntTbl.t11 (S754_infinity false)) 12 120
              Hwf Hroom (or_introl eq_refl)) as [Hi Hpost].
  destruct (Hpost _ _ Hi) as (Hs & _).
  split_and!; [exact Hwf | exact Hroom | exact Hi | exact Hs | reflexivity].
Defined.

End Coverage.
